(** * A voxel world in the browser: chunk store, terrain generator, greedy
    mesher, movement controller and voxel pick.

    Shallow embedding of [js/game/config.js], [js/game/world.js],
    [js/game/player.js], [js/game/input.js] and [js/game/ui.js].  JavaScript numbers that the program only uses as
    integers (block coordinates, array indices, block ids) are [Z]; numbers
    that carry fractions (noise, positions, velocities, ray parameters) are
    IEEE binary64 values, Rocq's primitive [float], with the same rounding
    as the JavaScript operators. *)

From Stdlib Require Import ZArith Lia Bool List Floats.
From stdpp Require Import base option list gmap strings.

Set Warnings "-inexact-float".

Local Open Scope Z_scope.

(* ===================================================================== *)
(** * JavaScript values and numeric built-ins *)
(* ===================================================================== *)

Module Js.

(** A property read yields a number or [undefined]. *)
Inductive JsVal :=
| JsNum (n : Z)
| JsUndefined.

(** [a !== b] on such values. *)
Definition strict_ne (a b : JsVal) : bool :=
  match a, b with
  | JsNum m, JsNum n => negb (m =? n)
  | JsUndefined, JsUndefined => false
  | _, _ => true
  end.

(** The double that an integer denotes (exact below 2^53). *)
Definition of_Z (z : Z) : float :=
  SF2Prim (binary_normalize prec emax z 0 false).

(** The integer part of [Math.floor x] as the bit operators see it
    (ToInt32 sends NaN and the infinities to 0; callers mask the result). *)
Definition floorZ (x : float) : Z :=
  match Prim2SF x with
  | S754_finite s m e => Z.shiftl (if s then Z.neg m else Z.pos m) e
  | _ => 0
  end.

(** [Math.floor]: NaN, infinities, zeros and integers are returned as they are. *)
Definition Math_floor (x : float) : float :=
  match Prim2SF x with
  | S754_finite _ _ e => if 0 <=? e then x else of_Z (floorZ x)
  | _ => x
  end.

(** A double that is an integer below 2^53 in magnitude, as that integer. *)
Definition to_int (x : float) : option Z :=
  match Prim2SF x with
  | S754_zero _ => Some 0
  | S754_finite _ _ _ =>
      let z := floorZ x in
      if PrimFloat.eqb (of_Z z) x && (Z.abs z <? 2 ^ 53) then Some z else None
  | _ => None
  end.

(** A finite double whose value is an integer, as that integer (the
    components of a floored vector are such, or are not finite). *)
Definition finite_int (x : float) : option Z :=
  match Prim2SF x with
  | S754_zero _ => Some 0
  | S754_finite _ _ _ => Some (floorZ x)
  | _ => None
  end.

Definition is_nan (x : float) : bool := negb (PrimFloat.eqb x x).

(** [Math.max a b]. *)
Definition Math_max (a b : float) : float :=
  if is_nan a || is_nan b then nan
  else if PrimFloat.ltb a b then b
  else if PrimFloat.ltb b a then a
  else if PrimFloat.eqb a 0 then (a + b)%float
  else a.

(** [Math.min a b]. *)
Definition Math_min (a b : float) : float :=
  if is_nan a || is_nan b then nan
  else if PrimFloat.ltb a b then a
  else if PrimFloat.ltb b a then b
  else if PrimFloat.eqb a 0 then (- (- a + - b))%float
  else a.

(** Unsigned view of the 32-bit integers of the bit operators.  [^], [|]
    and [Math.imul] commute with the two's-complement reading, and [>>>]
    reads its left operand unsigned, so the generator below is computed on
    residues modulo 2^32. *)
Definition u32 (z : Z) : Z := z mod 2 ^ 32.
Definition imul (a b : Z) : Z := u32 (a * b).

(** [Math.random()]: the draws still to come. *)
Definition Rand := nat -> float.
Definition Math_random (r : Rand) : float * Rand := (r 0%nat, fun n => r (S n)).

End Js.

(* ===================================================================== *)
(** * Loops *)
(* ===================================================================== *)

(** A [for] loop over [l] that is left by [break] at the first element
    for which the body finds something. *)
Fixpoint first_some {A B} (body : A -> option B) (l : list A) : option B :=
  match l with
  | [] => None
  | a :: l' =>
      match body a with
      | Some b => Some b
      | None => first_some body l'
      end
  end.

(* ===================================================================== *)
(** * Typed arrays *)
(* ===================================================================== *)

(** A [Uint8Array] is its length and the cells that have been written; a
    cell that has not been written holds 0.  A read out of range is
    [undefined] ([None]); a write out of range is dropped, and a write in
    range stores the value modulo 256. *)
Module TypedArray.

Record Uint8Array := mkArray { len : Z; cells : gmap Z Z }.

Definition in_range (a : Uint8Array) (i : Z) : bool := (0 <=? i) && (i <? len a).

Definition get (a : Uint8Array) (i : Z) : option Z :=
  if in_range a i then Some (default 0 (cells a !! i)) else None.

Definition set_u8 (a : Uint8Array) (i v : Z) : Uint8Array :=
  if in_range a i then mkArray (len a) (<[i := v mod 256]> (cells a)) else a.

(** [new Uint8Array(n)]. *)
Definition new (n : Z) : Uint8Array := mkArray n ∅.

End TypedArray.

(* ===================================================================== *)
(** * js/game/config.js *)
(* ===================================================================== *)

Definition CHUNK_SIZE : Z := 16.
Definition WORLD_HEIGHT : Z := 64.
Definition RENDER_DISTANCE : Z := 8.

(** The [BLOCKS] object, property by property. *)
Definition BLOCKS_table : list (string * Z) :=
  [ ("air", 0); ("stone", 1); ("cobblestone", 2); ("dirt", 3); ("grass", 4);
    ("logs", 5); ("leaves", 6); ("planks", 7); ("glass", 8); ("bricks", 9) ]%string.

(** [BLOCKS.name]. *)
Fixpoint prop_get (o : list (string * Z)) (name : string) : Js.JsVal :=
  match o with
  | [] => Js.JsUndefined
  | (k, v) :: o' => if String.eqb k name then Js.JsNum v else prop_get o' name
  end.

Definition BLOCKS (name : string) : Js.JsVal := prop_get BLOCKS_table name.

Module Block.
Definition air : Z := 0.
Definition stone : Z := 1.
Definition cobblestone : Z := 2.
Definition dirt : Z := 3.
Definition grass : Z := 4.
Definition logs : Z := 5.
Definition leaves : Z := 6.
Definition planks : Z := 7.
Definition glass : Z := 8.
Definition bricks : Z := 9.
End Block.

(** The values of the block-type enumeration. *)
Definition is_block_type (t : Z) : Prop := 0 <= t <= 9.

(* ===================================================================== *)
(** * js/game/world.js: the noise generator *)
(* ===================================================================== *)

Module Perlin.
Import Js.

(** One call of the seeded generator [random]: the new value of [seed] and
    the 32-bit numerator of the result, which is [numerator / 4294967296]. *)
Definition random_step (seed : Z) : Z * Z :=
  let seed := seed + 0x6D2B79F5 in
  let t := u32 seed in
  let t := imul (Z.lxor t (Z.shiftr t 15)) (Z.lor t 1) in
  let t := Z.lxor t (u32 (t + imul (Z.lxor t (Z.shiftr t 7)) (Z.lor t 61))) in
  (seed, Z.lxor t (Z.shiftr t 14)).

Definition random (seed : Z) : Z * float :=
  let '(seed, r) := random_step seed in
  (seed, (of_Z r / 4294967296)%float).

(** [[p[i], p[j]] = [p[j], p[i]]]. *)
Definition swap (p : TypedArray.Uint8Array) (i j : Z) : TypedArray.Uint8Array :=
  let pj := default 0 (TypedArray.get p j) in
  let pi := default 0 (TypedArray.get p i) in
  TypedArray.set_u8 (TypedArray.set_u8 p i pj) j pi.

(** The shuffle [for (let i = 255; i > 0; i--)], counted down by [n]. *)
Fixpoint shuffle (n : nat) (seed : Z) (p : TypedArray.Uint8Array)
    : TypedArray.Uint8Array :=
  match n with
  | O => p
  | S n' =>
      let i := Z.of_nat n in
      let '(seed, r) := random seed in
      let j := floorZ (r * of_Z (i + 1))%float in
      shuffle n' seed (swap p i j)
  end.

(** The table [p] that a given [seed] produces: the identity on 0..255,
    shuffled, then copied to 256..511. *)
Definition permutation (seed : Z) : TypedArray.Uint8Array :=
  let p := TypedArray.new 512 in
  let p := foldl (fun p i => TypedArray.set_u8 p i i) p (seqZ 0 256) in
  let p := shuffle 255 seed p in
  foldl (fun p i => TypedArray.set_u8 p (i + 256) (default 0 (TypedArray.get p i)))
        p (seqZ 0 256).

Definition fade (t : float) : float :=
  (t * t * t * (t * (t * 6 - 15) + 10))%float.

Definition lerp (t a b : float) : float := (a + t * (b - a))%float.

(** [grad]; an [undefined] hash reads as 0 under [&]. *)
Definition grad (hash : option Z) (x y : float) : float :=
  let h := Z.land (default 0 hash) 7 in
  let u := if h <? 4 then x else y in
  let v := if h <? 4 then y else x in
  let bit1 := negb (Z.land h 1 =? 0) in
  let bit2 := negb (Z.land h 2 =? 0) in
  ((if bit1 then - u else u) + (if bit2 then (-2) * v else 2 * v))%float.

(** The sample function returned by the closure, for the table [p]. *)
Definition perlin2D (p : TypedArray.Uint8Array) (x y : float) : float :=
  let X := Z.land (floorZ x) 255 in
  let Y := Z.land (floorZ y) 255 in
  let x := (x - Math_floor x)%float in
  let y := (y - Math_floor y)%float in
  let u := fade x in
  let v := fade y in
  let A := (fun a => a + Y) <$> TypedArray.get p X in
  let AA := A ≫= TypedArray.get p in
  let AB := A ≫= (fun a => TypedArray.get p (a + 1)) in
  let B := (fun b => b + Y) <$> TypedArray.get p (X + 1) in
  let BA := B ≫= TypedArray.get p in
  let BB := B ≫= (fun b => TypedArray.get p (b + 1)) in
  lerp v (lerp u (grad (AA ≫= TypedArray.get p) x y)
                 (grad (BA ≫= TypedArray.get p) (x - 1) y))
         (lerp u (grad (AB ≫= TypedArray.get p) x (y - 1))
                 (grad (BB ≫= TypedArray.get p) (x - 1) (y - 1))).

End Perlin.


(* ===================================================================== *)
(** * THREE.Vector3, THREE.Box3 and THREE.Ray, as far as the game uses them *)
(* ===================================================================== *)

Module Three.
Local Open Scope float_scope.

Record Vector3 := vec3 { vx : float; vy : float; vz : float }.

Definition add (a b : Vector3) : Vector3 :=
  vec3 (vx a + vx b) (vy a + vy b) (vz a + vz b).
Definition sub (a b : Vector3) : Vector3 :=
  vec3 (vx a - vx b) (vy a - vy b) (vz a - vz b).
Definition multiplyScalar (a : Vector3) (s : float) : Vector3 :=
  vec3 (vx a * s) (vy a * s) (vz a * s).
Definition dot (a b : Vector3) : float :=
  vx a * vx b + vy a * vy b + vz a * vz b.
Definition length (a : Vector3) : float :=
  PrimFloat.sqrt (vx a * vx a + vy a * vy a + vz a * vz a).
Definition floor (a : Vector3) : Vector3 :=
  vec3 (Js.Math_floor (vx a)) (Js.Math_floor (vy a)) (Js.Math_floor (vz a)).

(** [Box3.setFromCenterAndSize]: the corners [min] and [max]. *)
Definition setFromCenterAndSize (center size : Vector3) : Vector3 * Vector3 :=
  let halfSize := multiplyScalar size 0.5 in
  (sub center halfSize, add center halfSize).

Record Ray := { origin : Vector3; direction : Vector3 }.

(** [ray.at(t, target)]: [origin + direction * t]. *)
Definition at_ (r : Ray) (t : float) : Vector3 :=
  add (origin r) (multiplyScalar (direction r) t).

End Three.

(* ===================================================================== *)
(** * js/game/world.js: chunks and their generation *)
(* ===================================================================== *)

(** A chunk without its mesh, which belongs to the renderer. *)
Record Chunk := mkChunk {
  chunk_x : Z;
  chunk_z : Z;
  blocks : TypedArray.Uint8Array;   (* CHUNK_SIZE * WORLD_HEIGHT * CHUNK_SIZE cells *)
  needsUpdate : bool
}.

(** [x + z * CHUNK_SIZE + y * CHUNK_SIZE * CHUNK_SIZE]. *)
Definition block_index (x y z : Z) : Z :=
  x + z * CHUNK_SIZE + y * CHUNK_SIZE * CHUNK_SIZE.

(** [a[i] || BLOCKS.air]. *)
Definition or_air (v : option Z) : Z :=
  match v with
  | Some b => if b =? 0 then Block.air else b
  | None => Block.air
  end.

Module Gen.
Import Js.

(** The generator writes into the grid of the chunk under construction and
    draws from [Math.random]; both are threaded through its loops. *)
Record State := mkState { grid : TypedArray.Uint8Array; draws : Rand }.

Definition M (A : Type) : Type := State -> A * State.

Definition ret {A} (a : A) : M A := fun s => (a, s).
Definition bind {A B} (m : M A) (k : A -> M B) : M B :=
  fun s => let '(a, s') := m s in k a s'.

Notation "'let*' x ':=' m 'in' k" := (bind m (fun x => k))
  (at level 10, x name, m at level 200, k at level 200).
Notation "m '>>' k" := (bind m (fun _ => k))
  (at level 100, right associativity).

Definition random : M float :=
  fun s => let '(v, r) := Math_random (draws s) in (v, mkState (grid s) r).
Definition read (i : Z) : M (option Z) :=
  fun s => (TypedArray.get (grid s) i, s).
Definition write (i v : Z) : M unit :=
  fun s => (tt, mkState (TypedArray.set_u8 (grid s) i v) (draws s)).

Definition when (b : bool) (m : M unit) : M unit := if b then m else ret tt.

Fixpoint for_each {A} (l : list A) (body : A -> M unit) : M unit :=
  match l with
  | [] => ret tt
  | a :: l' => body a >> for_each l' body
  end.

(** [for (let i = lo; i <= hi; i++)]. *)
Definition for_to (lo hi : Z) (body : Z -> M unit) : M unit :=
  for_each (seqZ lo (hi - lo + 1)) body.

(** [if (chunk.blocks[index] === BLOCKS.air && Math.random() < q)
       chunk.blocks[index] = BLOCKS.leaves]; the draw is made only on air. *)
Definition leaf (index : Z) (q : float) : M unit :=
  let* b := read index in
  match b with
  | Some 0 =>
      let* r := random in
      when (PrimFloat.ltb r q) (write index Block.leaves)
  | _ => ret tt
  end.

Definition in_chunk_xz (x z : Z) : bool :=
  (0 <=? x) && (x <? CHUNK_SIZE) && (0 <=? z) && (z <? CHUNK_SIZE).

(** The trunk loop shared by the oak and the tall tree. *)
Definition trunk (x y z treeHeight : Z) : M unit :=
  for_to 0 (treeHeight - 1) (fun i =>
    when (y + i <? WORLD_HEIGHT) (write (block_index x (y + i) z) Block.logs)).

Definition generateOakTree (x y z : Z) : M unit :=
  let* r := random in
  let treeHeight := 4 + floorZ (r * 3)%float in
  trunk x y z treeHeight >>
  let leafY := y + treeHeight - 1 in
  for_to (-2) 2 (fun dx =>
  for_to (-2) 2 (fun dz =>
  for_to 0 2 (fun dy =>
    if 3 <? Z.abs dx + Z.abs dz + Z.abs dy then ret tt
    else
      let leafX := x + dx in
      let leafZ := z + dz in
      let leafYPos := leafY + dy in
      if in_chunk_xz leafX leafZ && (leafYPos <? WORLD_HEIGHT)
      then leaf (block_index leafX leafYPos leafZ) 0.8%float
      else ret tt))).

Definition generateTallTree (x y z : Z) : M unit :=
  let* r := random in
  let treeHeight := 8 + floorZ (r * 4)%float in
  trunk x y z treeHeight >>
  let leafY := y + treeHeight - 2 in
  for_to (-1) 1 (fun dx =>
  for_to (-1) 1 (fun dz =>
  for_to 0 3 (fun dy =>
    let leafX := x + dx in
    let leafZ := z + dz in
    let leafYPos := leafY + dy in
    if in_chunk_xz leafX leafZ && (leafYPos <? WORLD_HEIGHT)
    then leaf (block_index leafX leafYPos leafZ) 0.9%float
    else ret tt))).

Definition generateLargeTree (x y z : Z) : M unit :=
  let* r := random in
  let treeHeight := 6 + floorZ (r * 3)%float in
  for_to 0 1 (fun dx =>
  for_to 0 1 (fun dz =>
  for_to 0 (treeHeight - 1) (fun i =>
    let trunkX := x + dx in
    let trunkZ := z + dz in
    when ((trunkX <? CHUNK_SIZE) && (trunkZ <? CHUNK_SIZE) && (y + i <? WORLD_HEIGHT))
         (write (block_index trunkX (y + i) trunkZ) Block.logs)))) >>
  let leafY := y + treeHeight - 2 in
  for_to (-3) 4 (fun dx =>
  for_to (-3) 4 (fun dz =>
  for_to 0 4 (fun dy =>
    let distance :=
      PrimFloat.sqrt (of_Z (dx * dx) + of_Z (dz * dz) + of_Z (dy * dy) * 0.5)%float in
    if PrimFloat.ltb 4 distance then ret tt
    else
      let leafX := x + dx in
      let leafZ := z + dz in
      let leafYPos := leafY + dy in
      if in_chunk_xz leafX leafZ && (leafYPos <? WORLD_HEIGHT)
      then leaf (block_index leafX leafYPos leafZ) 0.7%float
      else ret tt))).

Definition generateTree (x y z : Z) : M unit :=
  let* treeType := random in
  if PrimFloat.ltb treeType 0.7 then generateOakTree x y z
  else if PrimFloat.ltb treeType 0.9 then generateTallTree x y z
  else generateLargeTree x y z.

Definition GROUND_LEVEL : float := 32%float.

(** One column of [generateChunk]: the heights, then the loop over [y]. *)
Definition column (p : TypedArray.Uint8Array) (chunkX chunkZ x z : Z) : M unit :=
  let worldX := of_Z (chunkX * CHUNK_SIZE + x) in
  let worldZ := of_Z (chunkZ * CHUNK_SIZE + z) in
  let mountainFactor := Perlin.perlin2D p (worldX * 0.003) (worldZ * 0.003) in
  let mountainFactor := ((mountainFactor - 0.1) * 1.5)%float in
  let mountainFactor := Math_max 0 mountainFactor in
  let baseHills := (Perlin.perlin2D p (worldX * 0.015) (worldZ * 0.015) * 6)%float in
  let mountainDetail := (Perlin.perlin2D p (worldX * 0.03) (worldZ * 0.03) * 20)%float in
  let mountainHeight := (mountainFactor * mountainFactor * (25 + mountainDetail))%float in
  let totalHeight := (GROUND_LEVEL + baseHills + mountainHeight)%float in
  for_to 0 (WORLD_HEIGHT - 1) (fun y =>
    let index := block_index x y z in
    let surfaceY := Math_floor totalHeight in
    let yf := of_Z y in
    if PrimFloat.eqb yf surfaceY then
      if PrimFloat.ltb mountainHeight 5 then
        write index Block.grass >>
        if PrimFloat.eqb mountainHeight 0 then
          let* r := random in
          when (PrimFloat.ltb r 0.008) (generateTree x (y + 1) z)
        else ret tt
      else
        let* r := random in
        write index (if PrimFloat.ltb r 0.7 then Block.stone else Block.cobblestone)
    else if PrimFloat.ltb yf surfaceY && PrimFloat.ltb (surfaceY - 4) yf then
      write index Block.dirt
    else if PrimFloat.ltb yf (surfaceY - 3) then
      write index Block.stone
    else ret tt).

(** The two outer loops of [generateChunk]. *)
Definition fill (p : TypedArray.Uint8Array) (chunkX chunkZ : Z) : M unit :=
  for_to 0 (CHUNK_SIZE - 1) (fun x =>
  for_to 0 (CHUNK_SIZE - 1) (fun z =>
    column p chunkX chunkZ x z)).

End Gen.

(** The chunk map (keyed by the pair that the template string
    [`${chunkX},${chunkZ}`] spells), the permutation table captured by
    [perlin2D], and the state of [Math.random]. *)
Record World := mkWorld {
  chunks : gmap (Z * Z) Chunk;
  perm : TypedArray.Uint8Array;
  rand : Js.Rand
}.

Definition generateChunk (w : World) (chunkX chunkZ : Z) : World :=
  match chunks w !! (chunkX, chunkZ) with
  | Some _ => w
  | None =>
      let empty := TypedArray.new (CHUNK_SIZE * WORLD_HEIGHT * CHUNK_SIZE) in
      let '(_, s) := Gen.fill (perm w) chunkX chunkZ (Gen.mkState empty (rand w)) in
      let chunk := mkChunk chunkX chunkZ (Gen.grid s) true in
      mkWorld (<[(chunkX, chunkZ) := chunk]> (chunks w)) (perm w) (Gen.draws s)
  end.

(** [((x % CHUNK_SIZE) + CHUNK_SIZE) % CHUNK_SIZE], with JavaScript's
    truncating [%]. *)
Definition local_coord (x : Z) : Z :=
  Z.rem (Z.rem x CHUNK_SIZE + CHUNK_SIZE) CHUNK_SIZE.

(** [Math.floor(x / CHUNK_SIZE)]; the quotient by 16 is exact in binary64. *)
Definition chunk_coord (x : Z) : Z := x / CHUNK_SIZE.

Definition getBlock (w : World) (x y z : Z) : Z :=
  if (y <? 0) || (WORLD_HEIGHT <=? y) then Block.air
  else
    let chunkX := chunk_coord x in
    let chunkZ := chunk_coord z in
    match chunks w !! (chunkX, chunkZ) with
    | None => Block.air
    | Some chunk =>
        let localX := local_coord x in
        let localZ := local_coord z in
        let index := block_index localX y localZ in
        or_air (TypedArray.get (blocks chunk) index)
    end.

(** [if (chunks[key]) chunks[key].needsUpdate = true]. *)
Definition mark (key : Z * Z) (cs : gmap (Z * Z) Chunk) : gmap (Z * Z) Chunk :=
  alter (fun c => mkChunk (chunk_x c) (chunk_z c) (blocks c) true) key cs.

Definition setBlock (w : World) (x y z blockType : Z) : World :=
  if (y <? 0) || (WORLD_HEIGHT <=? y) then w
  else
    let chunkX := chunk_coord x in
    let chunkZ := chunk_coord z in
    let w :=
      match chunks w !! (chunkX, chunkZ) with
      | Some _ => w
      | None => generateChunk w chunkX chunkZ
      end in
    match chunks w !! (chunkX, chunkZ) with
    | None => w   (* unreachable: [generateChunk] stores the chunk *)
    | Some chunk =>
        let localX := local_coord x in
        let localZ := local_coord z in
        let index := block_index localX y localZ in
        let chunk :=
          mkChunk (chunk_x chunk) (chunk_z chunk)
                  (TypedArray.set_u8 (blocks chunk) index blockType) true in
        let cs := <[(chunkX, chunkZ) := chunk]> (chunks w) in
        let cs := if localX =? 0 then mark (chunkX - 1, chunkZ) cs else cs in
        let cs := if localX =? CHUNK_SIZE - 1 then mark (chunkX + 1, chunkZ) cs else cs in
        let cs := if localZ =? 0 then mark (chunkX, chunkZ - 1) cs else cs in
        let cs := if localZ =? CHUNK_SIZE - 1 then mark (chunkX, chunkZ + 1) cs else cs in
        mkWorld cs (perm w) (rand w)
    end.

(* ===================================================================== *)
(** * js/game/world.js: the greedy mesher *)
(* ===================================================================== *)

Definition getBlockInChunk (chunk : Chunk) (x y z : Z) : Z :=
  if (x <? 0) || (CHUNK_SIZE <=? x) || (y <? 0) || (WORLD_HEIGHT <=? y)
     || (z <? 0) || (CHUNK_SIZE <=? z)
  then Block.air
  else or_air (TypedArray.get (blocks chunk) (block_index x y z)).

Module Mesher.

(** The three-element arrays [x], [q], [du], [dv], [normal] and [dims]. *)
Definition Arr3 : Type := Z * Z * Z.

Definition get3 (a : Arr3) (k : nat) : Z :=
  match k with
  | O => a.1.1
  | 1%nat => a.1.2
  | _ => a.2
  end.

Definition set3 (a : Arr3) (k : nat) (c : Z) : Arr3 :=
  match k with
  | O => (c, a.1.2, a.2)
  | 1%nat => (a.1.1, c, a.2)
  | _ => (a.1.1, a.1.2, c)
  end.

Definition add3 (a b : Arr3) : Arr3 := (a.1.1 + b.1.1, a.1.2 + b.1.2, a.2 + b.2).

Definition zero3 : Arr3 := (0, 0, 0).

Definition dims : Arr3 := (CHUNK_SIZE, WORLD_HEIGHT, CHUNK_SIZE).

(** [(axis + 1) % 3] and [(axis + 2) % 3]. *)
Definition axis_u (axis : nat) : nat := ((axis + 1) mod 3)%nat.
Definition axis_v (axis : nat) : nat := ((axis + 2) mod 3)%nat.

(** The number of cells of the mask along [u] and along [v]. *)
Definition dim (k : nat) : nat := Z.to_nat (get3 dims k).

(** A face as pushed on [faces].  [blockType] is [Math.abs(currentMask)],
    which is [NaN] ([None]) when [currentMask] is [undefined]. *)
Record Face := mkFace {
  vertices : list Arr3;
  normal : Arr3;
  blockType : option Z
}.

(** The store into an [Int32Array]. *)
Definition int32 (z : Z) : Z := (z + 2 ^ 31) mod 2 ^ 32 - 2 ^ 31.

(** The value written to [mask[n++]] for the cell at [x]. *)
Definition mask_cell (chunk : Chunk) (axis : nat) (x : Arr3) : Z :=
  let q := set3 zero3 axis 1 in
  let blockA :=
    if 0 <=? get3 x axis then getBlockInChunk chunk x.1.1 x.1.2 x.2 else 0 in
  let blockB :=
    if get3 x axis <? get3 dims axis - 1
    then getBlockInChunk chunk (x.1.1 + q.1.1) (x.1.2 + q.1.2) (x.2 + q.2)
    else 0 in
  if Bool.eqb (negb (blockA =? 0)) (negb (blockB =? 0)) then int32 0
  else if negb (blockA =? 0) then int32 blockA
  else int32 (- blockB).

(** The mask of the slice at [x[axis] = xa]: the cells are written in the
    order of the two loops, [x[v]] outside and [x[u]] inside. *)
Definition plane_mask (chunk : Chunk) (axis : nat) (xa : Z) : list Z :=
  let u := axis_u axis in
  let v := axis_v axis in
  xv ← seq 0 (dim v);
  xu ← seq 0 (dim u);
  [mask_cell chunk axis
     (set3 (set3 (set3 zero3 axis xa) v (Z.of_nat xv)) u (Z.of_nat xu))].

(** [let w = 1; while (i + w < dims[u] && mask[n + w] === currentMask) w++;] *)
Fixpoint grow_w (fuel : nat) (mask : list Z) (cur : option Z)
    (du i n w : nat) : nat :=
  match fuel with
  | O => w
  | S fuel' =>
      if (i + w <? du)%nat && bool_decide (mask !! (n + w)%nat = cur)
      then grow_w fuel' mask cur du i n (S w)
      else w
  end.

(** The inner [for] of the height loop: no cell of the row differs. *)
Definition row_matches (mask : list Z) (cur : option Z) (du n w h : nat) : bool :=
  forallb (fun k => bool_decide (mask !! (n + k + h * du)%nat = cur)) (seq 0 w).

(** [while (j + h < dims[v]) { ...; if (done) break; h++; }] *)
Fixpoint grow_h (fuel : nat) (mask : list Z) (cur : option Z)
    (du dv j n w h : nat) : nat :=
  match fuel with
  | O => h
  | S fuel' =>
      if (j + h <? dv)%nat && row_matches mask cur du n w h
      then grow_h fuel' mask cur du dv j n w (S h)
      else h
  end.

(** [for (l < h) for (k < w) mask[n + k + l * dims[u]] = 0]. *)
Definition clear_rect (mask : list Z) (du n w h : nat) : list Z :=
  foldl (fun m l => foldl (fun m k => <[(n + k + l * du)%nat := 0]> m) m (seq 0 w))
        mask (seq 0 h).

(** The face pushed for the rectangle at [(i, j)] of size [w] by [h] in the
    plane [x[axis] = xa] (the value of [x[axis]] after its increment). *)
Definition make_face (axis : nat) (xa : Z) (cur : option Z) (i j w h : nat) : Face :=
  let u := axis_u axis in
  let v := axis_v axis in
  let x := set3 (set3 (set3 zero3 axis xa) u (Z.of_nat i)) v (Z.of_nat j) in
  let du := set3 zero3 u (Z.of_nat w) in
  let dv := set3 zero3 v (Z.of_nat h) in
  let positive := match cur with Some c => 0 <? c | None => false end in
  let normal := set3 zero3 axis (if positive then 1 else -1) in
  let v1 := x in
  let v2 := add3 x du in
  let v3 := add3 (add3 x du) dv in
  let v4 := add3 x dv in
  mkFace (if positive then [v1; v2; v3; v4] else [v1; v4; v3; v2])
         normal (Z.abs <$> cur).

(** The state of the scan of one plane. *)
Record Scan := mkScan { s_mask : list Z; s_n : nat; s_faces : list Face }.

(** [for (let i = 0; i < dims[u];) { ... }] for the row [j]. *)
Fixpoint row_loop (fuel : nat) (axis : nat) (xa : Z) (du dv j i : nat)
    (s : Scan) : Scan :=
  match fuel with
  | O => s
  | S fuel' =>
      if (i <? du)%nat then
        let mask := s_mask s in
        let n := s_n s in
        if negb (bool_decide (mask !! n = Some 0)) then
          let currentMask := mask !! n in
          let w := grow_w du mask currentMask du i n 1 in
          let h := grow_h dv mask currentMask du dv j n w 1 in
          let face := make_face axis xa currentMask i j w h in
          row_loop fuel' axis xa du dv j (i + w)
                   (mkScan (clear_rect mask du n w h) (n + w) (s_faces s ++ [face]))
        else
          row_loop fuel' axis xa du dv j (i + 1) (mkScan mask (n + 1) (s_faces s))
      else s
  end.

(** The scan of one plane, from [n = 0]: the faces are appended to [faces]. *)
Definition plane_loop (axis : nat) (xa : Z) (mask : list Z) (faces : list Face)
    : list Face :=
  let du := dim (axis_u axis) in
  let dv := dim (axis_v axis) in
  s_faces (foldl (fun s j => row_loop du axis xa du dv j 0 s)
                 (mkScan mask 0 faces) (seq 0 dv)).

(** [for (x[axis] = -1; x[axis] < dims[axis];)]: the mask is computed at
    [x[axis]], then [x[axis]++], then the plane is scanned. *)
Definition axis_loop (chunk : Chunk) (axis : nat) (faces : list Face) : list Face :=
  foldl (fun faces xa => plane_loop axis (xa + 1) (plane_mask chunk axis xa) faces)
        faces (seqZ (-1) (get3 dims axis + 1)).

Definition greedyMeshChunk (chunk : Chunk) : list Face :=
  foldl (fun faces axis => axis_loop chunk axis faces) [] (seq 0 3).

End Mesher.

(* ===================================================================== *)
(** * js/game/world.js: the voxel pick *)
(* ===================================================================== *)

Module Pick.
Import Js Three.
Local Open Scope float_scope.

(** [getBlock(pos.x, pos.y, pos.z)] for a floored vector [pos].  A
    coordinate that is not finite names no chunk ([x], [z]: the key holds
    [NaN] or [Infinity]) or no cell ([y]: out of range, or the index is
    [NaN]), and the read gives air. *)
Definition block_at (w : World) (pos : Vector3) : Z :=
  match finite_int (vx pos), finite_int (vy pos), finite_int (vz pos) with
  | Some x, Some y, Some z => getBlock w x y z
  | _, _, _ => Block.air
  end.

(** The heuristic normal, from [diff]. *)
Definition pick_normal (diff : Vector3) : Vector3 :=
  if (abs (vy diff) <? abs (vx diff)) && (abs (vz diff) <? abs (vx diff)) then
    vec3 (if 0 <? vx diff then -1 else 1) 0 0
  else if abs (vz diff) <? abs (vy diff) then
    vec3 0 (if 0 <? vy diff then -1 else 1) 0
  else
    vec3 0 0 (if 0 <? vz diff then -1 else 1).

(** [{ position: pos, normal: normal }]. *)
Record Hit := mkHit { hit_position : Vector3; hit_normal : Vector3 }.

(** The body of the loop at parameter [t]: the hit, if the sample is not air. *)
Definition probe (w : World) (ray : Ray) (t : float) : option Hit :=
  let point := at_ ray t in
  let pos := floor point in
  if negb (block_at w pos =? Block.air)%Z then
    let prevPoint := at_ ray (t - 0.1) in
    let diff := multiplyScalar (sub point prevPoint) 10 in
    Some (mkHit pos (pick_normal diff))
  else None.

(** [for (let t = 0; t < 10; t += 0.1)], from the current [t]. *)
Fixpoint march (fuel : nat) (w : World) (ray : Ray) (t : float) : option Hit :=
  match fuel with
  | O => None
  | S fuel' =>
      if t <? 10 then
        match probe w ray t with
        | Some hit => Some hit
        | None => march fuel' w ray (t + 0.1)
        end
      else None
  end.

(** The parameters that the loop visits, with the same counter. *)
Fixpoint params (fuel : nat) (t : float) : list float :=
  match fuel with
  | O => []
  | S fuel' => if t <? 10 then t :: params fuel' (t + 0.1) else []
  end.

(** The counter leaves the loop after 101 steps (see [march_ticks]). *)
Definition steps : nat := 101.

Definition getVoxelIntersection (w : World) (ray : Ray) : option Hit :=
  march steps w ray 0.

End Pick.

(* ===================================================================== *)
(** * js/game/player.js *)
(* ===================================================================== *)

Module Player.
Import Js Three.
Local Open Scope float_scope.

Definition GRAVITY : float := 0.01.
Definition MAX_SPEED_GROUND : float := 0.3.
Definition MAX_SPEED_AIR : float := 0.02.
Definition ACCEL_GROUND : float := 0.2.
Definition ACCEL_AIR : float := 1.3.
Definition FRICTION : float := 0.2.
Definition JUMP_IMPULSE : float := 0.2.

Definition width : float := 0.6.
Definition height : float := 1.8.

(** The fields of [player] that a tick reads and writes. *)
Record State := mkState {
  position : Vector3;
  velocity : Vector3;
  onGround : bool
}.

Definition set_velocity (pl : State) (v : Vector3) : State :=
  mkState (position pl) v (onGround pl).

Definition accelerate (pl : State) (wishDir : Vector3) (wishSpeed accel : float)
    : State :=
  let currentSpeed := dot (velocity pl) wishDir in
  let addSpeed := wishSpeed - currentSpeed in
  if addSpeed <=? 0 then pl
  else
    let accelSpeed := accel * wishSpeed in
    let accelSpeed := if addSpeed <? accelSpeed then addSpeed else accelSpeed in
    set_velocity pl (add (velocity pl) (multiplyScalar wishDir accelSpeed)).

Definition applyFriction (pl : State) : State :=
  let v := velocity pl in
  let speed := length v in
  if speed <? 0.001 then set_velocity pl (vec3 0 (vy v) 0)
  else
    let control := if speed <? FRICTION then FRICTION else speed in
    let drop := control * FRICTION in
    let newSpeed := Math_max 0 (speed - drop) in
    if negb (newSpeed =? speed) then
      let scale := newSpeed / speed in
      set_velocity pl (vec3 (vx v * scale) (vy v) (vz v * scale))
    else pl.

(** The keys that a tick reads. *)
Record Keys := mkKeys {
  KeyW : bool; KeyS : bool; KeyA : bool; KeyD : bool; Space : bool; ShiftLeft : bool
}.

(** [v.normalize()]: [v.divideScalar(v.length() || 1)], a product by the inverse. *)
Definition normalize (v : Vector3) : Vector3 :=
  let l := length v in
  let l := if (l =? 0) || is_nan l then 1 else l in
  multiplyScalar v (1 / l).

Definition getWishDirection (keys : Keys) (forward right : Vector3) : Vector3 :=
  let wishDir := vec3 0 0 0 in
  let wishDir := if KeyW keys then add wishDir forward else wishDir in
  let wishDir := if KeyS keys then sub wishDir forward else wishDir in
  let wishDir := if KeyA keys then sub wishDir right else wishDir in
  let wishDir := if KeyD keys then add wishDir right else wishDir in
  let wishDir := vec3 (vx wishDir) 0 (vz wishDir) in
  if 0 <? dot wishDir wishDir then normalize wishDir else wishDir.

(** Lines 119 to 133 of a tick: friction, acceleration, jump and gravity. *)
Definition move (pl : State) (wishDir : Vector3) (space : bool) : State :=
  let pl :=
    if onGround pl then
      let pl := applyFriction pl in
      let pl := accelerate pl wishDir MAX_SPEED_GROUND ACCEL_GROUND in
      if space
      then mkState (position pl)
                   (vec3 (vx (velocity pl)) JUMP_IMPULSE (vz (velocity pl))) false
      else pl
    else accelerate pl wishDir MAX_SPEED_AIR ACCEL_AIR in
  let v := velocity pl in
  set_velocity pl (vec3 (vx v) (vy v - GRAVITY) (vz v)).

(** [block !== BLOCKS.air && block !== BLOCKS.water]. *)
Definition floor_hit (block : Z) : bool :=
  strict_ne (JsNum block) (BLOCKS "air") && strict_ne (JsNum block) (BLOCKS "water").

(** The two loops over the columns under the box: the first column, in the
    order of the loops, whose floor cell is a hit. *)
Definition scan_floor (w : World) (startX endX startZ endZ feetY : Z)
    : option (Z * Z) :=
  first_some (fun x =>
    first_some (fun z =>
      if floor_hit (getBlock w x feetY z) then Some (x, z) else None)
      (seqZ startZ (endZ - startZ + 1)%Z))
    (seqZ startX (endX - startX + 1)%Z).

(** A loop bound as the integer that the counter starts from or is compared
    with.  The loops are modelled for bounds that are integers below 2^53,
    on which [x++] is exact; for other bounds the result is [None]. *)
Definition bound (x : float) : option Z := to_int x.

(** The Y pass, lines 141 to 167: the player after it and [newPosition]. *)
Definition collideY (w : World) (pl : State) (newPosition : Vector3)
    : option (State * Vector3) :=
  let pl := mkState (position pl) (velocity pl) false in
  '(pl, newPosition) ←
    (if vy (velocity pl) <=? 0 then
       let '(bmin, bmax) :=
         setFromCenterAndSize
           (vec3 (vx (position pl)) (vy newPosition + height / 2) (vz (position pl)))
           (vec3 width height width) in
       let feetY := Math_floor (vy bmin) in
       let startX := Math_floor (vx bmin) in
       let endX := Math_floor (vx bmax) in
       let startZ := Math_floor (vz bmin) in
       let endZ := Math_floor (vz bmax) in
       match bound feetY, bound startX, bound endX, bound startZ, bound endZ with
       | Some fy, Some sx, Some ex, Some sz, Some ez =>
           match scan_floor w sx ex sz ez fy with
           | Some _ =>
               Some (mkState (position pl)
                             (vec3 (vx (velocity pl)) 0 (vz (velocity pl))) true,
                     vec3 (vx newPosition) (feetY + 1) (vz newPosition))
           | None => Some (pl, newPosition)
           end
       | _, _, _, _, _ => None
       end
     else Some (pl, newPosition));
  Some (mkState (vec3 (vx (position pl)) (vy newPosition) (vz (position pl)))
                (velocity pl) (onGround pl),
        newPosition).

(** The column of cells at the leading edge of the box, for the X and the
    Z pass: is one of them not air? *)
Definition scan_wall (w : World) (startY endY : Z) (cell : Z -> Z * Z * Z) : bool :=
  existsb (fun y => let c := cell y in negb (getBlock w c.1.1 c.1.2 c.2 =? Block.air)%Z)
          (seqZ startY (endY - startY + 1)%Z).

(** The X pass, lines 169 to 186. *)
Definition collideX (w : World) (pl : State) (newPosition : Vector3)
    : option (State * Vector3) :=
  '(pl, newPosition) ←
    (if negb (vx (velocity pl) =? 0) then
       let '(bmin, bmax) :=
         setFromCenterAndSize
           (vec3 (vx newPosition) (vy (position pl) + height / 2) (vz (position pl)))
           (vec3 width height width) in
       let checkX :=
         if 0 <? vx (velocity pl) then Math_floor (vx bmax) else Math_floor (vx bmin) in
       let startY := Math_floor (vy bmin) in
       let endY := Math_floor (vy bmax) in
       match bound checkX, bound startY, bound endY,
             bound (Math_floor (vz (position pl))) with
       | Some cx, Some sy, Some ey, Some pz =>
           if scan_wall w sy ey (fun y => (cx, y, pz))
           then Some (set_velocity pl (vec3 0 (vy (velocity pl)) (vz (velocity pl))),
                      vec3 (vx (position pl)) (vy newPosition) (vz newPosition))
           else Some (pl, newPosition)
       | _, _, _, _ => None
       end
     else Some (pl, newPosition));
  Some (mkState (vec3 (vx newPosition) (vy (position pl)) (vz (position pl)))
                (velocity pl) (onGround pl),
        newPosition).

(** The Z pass, lines 188 to 205. *)
Definition collideZ (w : World) (pl : State) (newPosition : Vector3)
    : option (State * Vector3) :=
  '(pl, newPosition) ←
    (if negb (vz (velocity pl) =? 0) then
       let '(bmin, bmax) :=
         setFromCenterAndSize
           (vec3 (vx (position pl)) (vy (position pl) + height / 2) (vz newPosition))
           (vec3 width height width) in
       let checkZ :=
         if 0 <? vz (velocity pl) then Math_floor (vz bmax) else Math_floor (vz bmin) in
       let startY := Math_floor (vy bmin) in
       let endY := Math_floor (vy bmax) in
       match bound checkZ, bound startY, bound endY,
             bound (Math_floor (vx (position pl))) with
       | Some cz, Some sy, Some ey, Some px =>
           if scan_wall w sy ey (fun y => (px, y, cz))
           then Some (set_velocity pl (vec3 (vx (velocity pl)) (vy (velocity pl)) 0),
                      vec3 (vx newPosition) (vy newPosition) (vz (position pl)))
           else Some (pl, newPosition)
       | _, _, _, _ => None
       end
     else Some (pl, newPosition));
  Some (mkState (vec3 (vx (position pl)) (vy (position pl)) (vz newPosition))
                (velocity pl) (onGround pl),
        newPosition).

Definition worldUp : Vector3 := vec3 0 1 0.

(** The flight mode: no gravity, no friction and no collision. *)
Definition fly (pl : State) (keys : Keys) (forward right : Vector3) : State :=
  let speed := 0.3 in
  let movement := vec3 0 0 0 in
  let movement := if KeyW keys then add movement forward else movement in
  let movement := if KeyS keys then sub movement forward else movement in
  let movement := if KeyA keys then sub movement right else movement in
  let movement := if KeyD keys then add movement right else movement in
  let movement := if Space keys then add movement worldUp else movement in
  let movement := if ShiftLeft keys then sub movement worldUp else movement in
  let movement :=
    if 0 <? length movement then multiplyScalar (normalize movement) speed
    else movement in
  mkState (add (position pl) movement) movement (onGround pl).

(** A tick.  [forward] and [right] are [player.forward] and [player.right]
    as the branch taken reads them: left from an earlier tick when flying,
    and set from the camera's orientation otherwise.  The camera, which
    follows the player afterwards, is the renderer's. *)
Definition updatePlayer (w : World) (pl : State) (isFlying : bool) (keys : Keys)
    (forward right : Vector3) : option State :=
  if isFlying then Some (fly pl keys forward right)
  else
    let wishDir := getWishDirection keys forward right in
    let pl := move pl wishDir (Space keys) in
    let newPosition := add (position pl) (velocity pl) in
    '(pl, newPosition) ← collideY w pl newPosition;
    '(pl, newPosition) ← collideX w pl newPosition;
    '(pl, _) ← collideZ w pl newPosition;
    Some pl.

End Player.

(* ===================================================================== *)
(** * js/game/input.js *)
(* ===================================================================== *)

Module Input.
Import Js Three.
Local Open Scope float_scope.

(** The variables of the module.  [keys] holds the own properties of the
    object, one for each code seen so far; [selectedBlock] is a string or
    [undefined]. *)
Record State := mkState {
  keys : gmap string bool;
  mouseLocked : bool;
  selectedBlock : option string;
  isFlying : bool;
  mouseX : float;
  mouseY : float
}.

Definition initial : State := mkState ∅ false (Some "stone"%string) false 0 0.

(** The properties that [keys], made by [{}], inherits from
    [Object.prototype]: functions, and the object itself under [__proto__]. *)
Definition Object_prototype : list string :=
  [ "constructor"; "__defineGetter__"; "__defineSetter__"; "hasOwnProperty";
    "__lookupGetter__"; "__lookupSetter__"; "isPrototypeOf"; "propertyIsEnumerable";
    "toString"; "valueOf"; "__proto__"; "toLocaleString" ]%string.

(** [keys[code]] read as a condition.  A code that is no own property is
    looked up in [Object.prototype], whose values are truthy; any other
    code never seen is [undefined].  [__proto__] is an accessor and always
    reads as the prototype. *)
Definition pressed (s : State) (code : string) : bool :=
  if String.eqb code "__proto__" then true
  else match keys s !! code with
       | Some b => b
       | None => bool_decide (code ∈ Object_prototype)
       end.

(** [keys[code] = b]: an own property, which hides an inherited one.  The
    setter of [__proto__] ignores a boolean. *)
Definition set_key (keys : gmap string bool) (code : string) (b : bool)
    : gmap string bool :=
  if String.eqb code "__proto__" then keys else <[code := b]> keys.

(** The keys that a tick of the player reads. *)
Definition player_keys (s : State) : Player.Keys :=
  Player.mkKeys (pressed s "KeyW") (pressed s "KeyS") (pressed s "KeyA")
                (pressed s "KeyD") (pressed s "Space") (pressed s "ShiftLeft").

(** [BLOCKS[selectedBlock]] as [setBlock] stores it: a [Uint8Array] turns
    a value that is not a number into 0. *)
Definition block_value (name : option string) : Z :=
  match BLOCKS (default "undefined"%string name) with
  | JsNum n => n
  | JsUndefined => 0
  end.

(** [setBlock(v.x, v.y, v.z, t)] for a vector whose components are finite
    integers, as the floored vectors of the pick and their neighbours are. *)
Definition setBlock_at (w : World) (v : Vector3) (t : Z) : option World :=
  match finite_int (vx v), finite_int (vy v), finite_int (vz v) with
  | Some x, Some y, Some z => Some (setBlock w x y z t)
  | _, _, _ => None
  end.

Definition breakBlock (w : World) (position : Vector3) : option World :=
  setBlock_at w position Block.air.

(** [a.equals(b)]. *)
Definition equals (a b : Vector3) : bool :=
  (vx b =? vx a) && (vy b =? vy a) && (vz b =? vz a).

Definition placeBlock (w : World) (s : State) (playerPosition position normal : Vector3)
    : option World :=
  let newPos := add position normal in
  let playerBlockPos := floor playerPosition in
  if equals newPos playerBlockPos || equals newPos (add playerBlockPos (vec3 0 1 0))
  then Some w
  else setBlock_at w newPos (block_value (selectedBlock s)).

Definition blockTypes : list string :=
  [ "stone"; "cobblestone"; "dirt"; "grass"; "logs"; "leaves"; "planks"; "glass";
    "bricks" ]%string.

Definition blockKeys : list string :=
  [ "Digit1"; "Digit2"; "Digit3"; "Digit4"; "Digit5"; "Digit6"; "Digit7"; "Digit8";
    "Digit9" ]%string.

(** [l.indexOf(x)], counted from [i]. *)
Fixpoint indexOf_from (l : list string) (x : string) (i : Z) : Z :=
  match l with
  | [] => -1
  | a :: l' => if String.eqb a x then i else indexOf_from l' x (i + 1)
  end.

Definition indexOf (l : list string) (x : string) : Z := indexOf_from l x 0.

(** The [keydown] listener, for an event with this [code]. *)
Definition keydown (s : State) (code : string) : State :=
  let keys := set_key (keys s) code true in
  let keyIndex := indexOf blockKeys code in
  let selectedBlock :=
    if negb (keyIndex =? -1)%Z then blockTypes !! Z.to_nat keyIndex else selectedBlock s in
  let isFlying := if String.eqb code "KeyF" then negb (isFlying s) else isFlying s in
  mkState keys (mouseLocked s) selectedBlock isFlying (mouseX s) (mouseY s).

(** The [keyup] listener. *)
Definition keyup (s : State) (code : string) : State :=
  mkState (set_key (keys s) code false) (mouseLocked s) (selectedBlock s) (isFlying s)
          (mouseX s) (mouseY s).

(** The [pointerlockchange] listener; [locked] is
    [document.pointerLockElement === document.body]. *)
Definition pointerlockchange (s : State) (locked : bool) : State :=
  mkState (keys s) locked (selectedBlock s) (isFlying s) (mouseX s) (mouseY s).

(** The [click] listener of a block item whose [dataset.block] is [name]. *)
Definition select (s : State) (name : option string) : State :=
  mkState (keys s) (mouseLocked s) name (isFlying s) (mouseX s) (mouseY s).

Definition Math_PI : float := 3.141592653589793.

(** The [mousemove] listener; the camera then turns to [-mouseX] about y
    and [-mouseY] about x. *)
Definition mousemove (s : State) (movementX movementY : float) : State :=
  if mouseLocked s then
    let mouseX := mouseX s + movementX * 0.002 in
    let mouseY := mouseY s + movementY * 0.002 in
    let mouseY := Math_max (- Math_PI / 2) (Math_min (Math_PI / 2) mouseY) in
    mkState (keys s) (mouseLocked s) (selectedBlock s) (isFlying s) mouseX mouseY
  else s.

(** The [mousedown] listener: [ray] is the ray through the centre of the
    view, [button] the button of the event. *)
Definition mousedown (s : State) (w : World) (playerPosition : Vector3) (ray : Ray)
    (button : Z) : option World :=
  if negb (mouseLocked s) then Some w
  else
    match Pick.getVoxelIntersection w ray with
    | Some hit =>
        if (button =? 0)%Z then breakBlock w (Pick.hit_position hit)
        else if (button =? 2)%Z
        then placeBlock w s playerPosition (Pick.hit_position hit) (Pick.hit_normal hit)
        else Some w
    | None => Some w
    end.

End Input.

(* ===================================================================== *)
(** * js/game/world.js: the meshes of the chunks and the chunks around
      the player *)
(* ===================================================================== *)

Module Render.
Import Js Mesher.
Local Open Scope float_scope.

(** A [THREE.Color]. *)
Record Color := rgb { red : float; green : float; blue : float }.

(** [color.multiplyScalar(s)]. *)
Definition multiplyScalar (c : Color) (s : float) : Color :=
  rgb (red c * s) (green c * s) (blue c * s).

(** The [BLOCK_COLORS] object of [js/game/config.js]. *)
Definition BLOCK_COLORS_table : list (Z * Z) :=
  [ (1, 0x9E9E9E); (2, 0x757575); (3, 0x8D6E63); (4, 0x7CB342); (5, 0x5D4037);
    (6, 0x4CAF50); (7, 0xA1887F); (8, 0xE0F7FA); (9, 0xC62828) ]%Z.

Fixpoint color_get (o : list (Z * Z)) (k : Z) : option Z :=
  match o with
  | [] => None
  | (k', v) :: o' => if (k' =? k)%Z then Some v else color_get o' k
  end.

(** [BLOCK_COLORS[face.blockType]]: [undefined] for a type without an
    entry and for [NaN]. *)
Definition BLOCK_COLORS (blockType : option Z) : option Z :=
  blockType ≫= color_get BLOCK_COLORS_table.

(** The brightness of a face, by its normal. *)
Definition brightness (normal : Arr3) : float :=
  if (get3 normal 1 =? 1)%Z then 1.0
  else if (get3 normal 1 =? -1)%Z then 0.5
  else if negb (get3 normal 0 =? 0)%Z then 0.75
  else 0.85.

(** The three arrays from which the geometry is made. *)
Record Geometry := mkGeometry {
  position : list Z;
  color : list float;
  index : list Z
}.

Definition no_geometry : Geometry := mkGeometry [] [] [].

(** The body of [for (const face of faces)]: [mkColor] is [new THREE.Color]
    on a hexadecimal colour or on [undefined]. *)
Definition push_face (mkColor : option Z -> Color) (chunk : Chunk)
    (acc : Geometry * Z) (face : Face) : Geometry * Z :=
  let '(g, indexOffset) := acc in
  let c := multiplyScalar (mkColor (BLOCK_COLORS (blockType face)))
                          (brightness (normal face)) in
  let g :=
    foldl (fun g vertex =>
             mkGeometry
               (position g ++ [ (get3 vertex 0 + chunk_x chunk * CHUNK_SIZE)%Z;
                                get3 vertex 1;
                                (get3 vertex 2 + chunk_z chunk * CHUNK_SIZE)%Z ])
               (color g ++ [red c; green c; blue c])
               (index g))
          g (vertices face) in
  (mkGeometry (position g) (color g)
     (index g ++ [ indexOffset; indexOffset + 1; indexOffset + 2;
                   indexOffset; indexOffset + 2; indexOffset + 3 ]%Z),
   (indexOffset + 4)%Z).

Definition build (mkColor : option Z -> Color) (chunk : Chunk) (faces : list Face)
    : Geometry :=
  (foldl (push_face mkColor chunk) (no_geometry, 0%Z) faces).1.

(** The mesh of a chunk: its geometry, two of its flags, and whether it
    is in the scene. *)
Record Mesh := mkMesh {
  geometry : Geometry;
  castShadow : bool;
  visible : bool;
  inScene : bool
}.

(** [scene.remove(mesh)], with the disposal of its geometry and material. *)
Definition remove (m : Mesh) : Mesh :=
  mkMesh (geometry m) (castShadow m) (visible m) false.

Definition set_visible (b : bool) (m : Mesh) : Mesh :=
  mkMesh (geometry m) (castShadow m) b (inScene m).

Definition lower (c : Chunk) : Chunk :=
  mkChunk (chunk_x c) (chunk_z c) (blocks c) false.

(** The distance of a chunk from the chunk of the player. *)
Definition distance (playerChunkX playerChunkZ : Z) (c : Chunk) : Z :=
  Z.max (Z.abs (chunk_x c - playerChunkX)) (Z.abs (chunk_z c - playerChunkZ)).

(** [createChunkMesh(chunk)]: the chunk and [chunk.mesh] after the call. *)
Definition createChunkMesh (mkColor : option Z -> Color) (playerChunkX playerChunkZ : Z)
    (chunk : Chunk) (mesh : option Mesh) : Chunk * option Mesh :=
  let mesh := remove <$> mesh in
  let faces := greedyMeshChunk chunk in
  match faces with
  | [] => (lower chunk, mesh)
  | _ =>
      let g := build mkColor chunk faces in
      let m := mkMesh g (distance playerChunkX playerChunkZ chunk <=? 3)%Z true true in
      (lower chunk, Some m)
  end.

(** The chunks and their meshes. *)
Record Scene := mkScene {
  world : World;
  meshes : gmap (Z * Z) Mesh
}.

(** The coordinates that the two loops around the player visit, in order. *)
Definition around (playerChunkX playerChunkZ : Z) : list (Z * Z) :=
  x ← seqZ (playerChunkX - RENDER_DISTANCE) (2 * RENDER_DISTANCE + 1);
  z ← seqZ (playerChunkZ - RENDER_DISTANCE) (2 * RENDER_DISTANCE + 1);
  [(x, z)].

(** The loops of [generateInitialWorld], for the chunk of the player. *)
Definition generate_around (w : World) (playerChunkX playerChunkZ : Z) : World :=
  foldl (fun w k => generateChunk w k.1 k.2) w (around playerChunkX playerChunkZ).

(** The first loops of [updateWorld]. *)
Definition fill_around (w : World) (playerChunkX playerChunkZ : Z) : World :=
  foldl (fun w k =>
           match chunks w !! k with
           | Some _ => w
           | None => generateChunk w k.1 k.2
           end)
        w (around playerChunkX playerChunkZ).

(** A chunk beyond the distance at which chunks are kept. *)
Definition far (playerChunkX playerChunkZ : Z) (c : Chunk) : bool :=
  (RENDER_DISTANCE + 2 <? distance playerChunkX playerChunkZ c)%Z.

(** [chunk.mesh] of the chunk stored under [k]; a chunk that was generated
    in this call has none. *)
Definition mesh_of (sc : Scene) (k : Z * Z) : option Mesh :=
  match chunks (world sc) !! k with
  | Some _ => meshes sc !! k
  | None => None
  end.

(** The branch of [updateWorld] for a chunk that is kept: [inFrustum] is
    [frustum.intersectsBox] on the bounds of the chunk. *)
Definition show (mkColor : option Z -> Color) (inFrustum : Z -> Z -> bool)
    (playerChunkX playerChunkZ : Z) (c : Chunk) (mesh : option Mesh)
    : Chunk * option Mesh :=
  if inFrustum (chunk_x c) (chunk_z c) then
    let '(c, mesh) :=
      if needsUpdate c || negb (bool_decide (is_Some mesh))
      then createChunkMesh mkColor playerChunkX playerChunkZ c mesh
      else (c, mesh) in
    (c, set_visible true <$> mesh)
  else (c, set_visible false <$> mesh).

(** The body of [updateWorld], for the chunk of the player: the chunks
    around the player are generated, the chunks that are far are deleted
    with their meshes, and the others are shown or hidden.  The loop over
    the entries treats each chunk by itself. *)
Definition update_around (mkColor : option Z -> Color) (inFrustum : Z -> Z -> bool)
    (sc : Scene) (playerChunkX playerChunkZ : Z) : Scene :=
  let w := fill_around (world sc) playerChunkX playerChunkZ in
  let kept :=
    map_imap (fun k c =>
                if far playerChunkX playerChunkZ c then None
                else Some (show mkColor inFrustum playerChunkX playerChunkZ
                                c (mesh_of sc k)))
             (chunks w) in
  mkScene (mkWorld (fst <$> kept) (perm w) (rand w)) (omap snd kept).

(** The chunk of the player, [Math.floor(player.position.x / CHUNK_SIZE)],
    as the integer that the loops count from; they are modelled for
    chunks whose coordinates are below 2^52 in magnitude. *)
Definition playerChunk (p : float) : option Z :=
  match to_int (Math_floor (p / 16)) with
  | Some c => if (Z.abs c <? 2 ^ 52)%Z then Some c else None
  | None => None
  end.

(** [generateInitialWorld]; between two rows of chunks it yields to the
    event loop, in which no listener writes to the chunks before the game
    runs. *)
Definition generateInitialWorld (w : World) (playerPosition : Three.Vector3)
    : option World :=
  playerChunkX ← playerChunk (Three.vx playerPosition);
  playerChunkZ ← playerChunk (Three.vz playerPosition);
  Some (generate_around w playerChunkX playerChunkZ).

(** [updateWorld], without the two counters that it returns for the
    display. *)
Definition updateWorld (mkColor : option Z -> Color) (inFrustum : Z -> Z -> bool)
    (sc : Scene) (playerPosition : Three.Vector3) : option Scene :=
  playerChunkX ← playerChunk (Three.vx playerPosition);
  playerChunkZ ← playerChunk (Three.vz playerPosition);
  Some (update_around mkColor inFrustum sc playerChunkX playerChunkZ).

End Render.

(* ===================================================================== *)
(** * js/game/ui.js: the frame counter and the graph of the frame times *)
(* ===================================================================== *)

Module Ui.
Import Js.
Local Open Scope float_scope.

(** The canvas of the graph, if the page has one: its size, and whether
    [getContext('2d')] gave a context. *)
Record Canvas := mkCanvas { width : Z; height : Z; hasContext : bool }.

(** [ctx]. *)
Definition ctx (canvas : option Canvas) : bool :=
  match canvas with
  | Some cv => hasContext cv
  | None => false
  end.

Definition MAX_FRAME_HISTORY (canvas : option Canvas) : Z :=
  match canvas with
  | Some cv => width cv
  | None => 120
  end.

Definition TARGET_MS : float := 1000 / 60.

(** What [drawFrameTimeGraph] asks of the context. *)
Inductive Draw :=
| clearRect (x y w h : Z)
| line (style : string) (x0 : Z) (y0 : float) (x1 : Z) (y1 : float)
| fillRect (style : string) (x : Z) (y : float) (w : Z) (h : float).

(** The bar of the frame time [ft], the [i]-th of [n]. *)
Definition bar (cv : Canvas) (n i : Z) (ft : float) : Draw :=
  let maxMs := 50 in
  let x := (width cv - (n - i))%Z in
  let barHeight := Math_min (of_Z (height cv)) (ft / maxMs * of_Z (height cv)) in
  let style :=
    if TARGET_MS * 2 <? ft then "#D32F2F"%string
    else if TARGET_MS <? ft then "#FBC02D"%string
    else "#7CB342"%string in
  fillRect style x (of_Z (height cv) - barHeight) 1 barHeight.

Definition drawFrameTimeGraph (canvas : option Canvas) (frameTimes : list float)
    : list Draw :=
  match canvas with
  | Some cv =>
      if hasContext cv then
        let maxMs := 50 in
        let targetY := of_Z (height cv) - TARGET_MS / maxMs * of_Z (height cv) in
        [ clearRect 0 0 (width cv) (height cv);
          line "rgba(0, 255, 0, 0.3)" 0 targetY (width cv) targetY ]
        ++ imap (fun i ft => bar cv (Z.of_nat (length frameTimes)) (Z.of_nat i) ft)
                frameTimes
      else []
  | None => []
  end.

(** [Math.round]: a value that is an integer or not a number is returned
    as it is; a value in (0, 0.5) gives [+0] and one in [-0.5, 0) gives
    [-0]; otherwise the floor, or the floor plus one when the fraction is
    at least one half. *)
Definition Math_round (x : float) : float :=
  if is_nan x || (Math_floor x =? x) then x
  else if (0 <? x) && (x <? 0.5) then 0
  else if (x <? 0) && (-0.5 <=? x) then -0
  else
    let f := Math_floor x in
    if x - f <? 0.5 then f else f + 1.

(** The variables of the module. *)
Record State := mkState {
  frameCount : Z;
  lastTime : float;
  lastFrameTime : float;
  fps : float;
  frameTimes : list float
}.

(** [updateUI], for the value [currentTime] of [performance.now()]: the
    variables after the call and what is drawn.  The texts that it writes
    into the page are the page's. *)
Definition updateUI (canvas : option Canvas) (s : State) (currentTime : float)
    : State * list Draw :=
  let frameCount := (frameCount s + 1)%Z in
  let '(frameCount, lastTime, fps) :=
    if lastTime s + 1000 <=? currentTime
    then (0%Z, currentTime,
          Math_round (of_Z (frameCount * 1000) / (currentTime - lastTime s)))
    else (frameCount, lastTime s, fps s) in
  let deltaTime := currentTime - lastFrameTime s in
  let lastFrameTime := currentTime in
  if ctx canvas then
    let frameTimes := frameTimes s ++ [deltaTime] in
    let frameTimes :=
      if (MAX_FRAME_HISTORY canvas <? Z.of_nat (length frameTimes))%Z
      then tail frameTimes else frameTimes in
    (mkState frameCount lastTime lastFrameTime fps frameTimes,
     drawFrameTimeGraph canvas frameTimes)
  else
    (mkState frameCount lastTime lastFrameTime fps (frameTimes s), []).

End Ui.

(* ===================================================================== *)
(** * Vocabulary of the statements *)
(* ===================================================================== *)

(** The number of cells of a grid. *)
Definition grid_size : Z := CHUNK_SIZE * WORLD_HEIGHT * CHUNK_SIZE.

(** A grid with all its cells. *)
Definition sized (a : TypedArray.Uint8Array) : Prop := TypedArray.len a = grid_size.

(** A grid whose cells hold bytes. *)
Definition bytes (a : TypedArray.Uint8Array) : Prop :=
  forall i v, TypedArray.cells a !! i = Some v -> 0 <= v < 256.

(** A property of the grid of every stored chunk. *)
Definition grids (P : TypedArray.Uint8Array -> Prop) (w : World) : Prop :=
  forall k c, chunks w !! k = Some c -> P (blocks c).

(** Every stored chunk has a full grid; chunks enter the store through
    [generateChunk] only. *)
Definition wf_world (w : World) : Prop := grids sized w.

(** Every stored grid holds bytes. *)
Definition byte_world (w : World) : Prop := grids bytes w.

(** A property of grids that a write of one cell cannot break. *)
Definition stable (P : TypedArray.Uint8Array -> Prop) : Prop :=
  forall a i v, P a -> P (TypedArray.set_u8 a i v).

(** A generator step that keeps a property of the grid. *)
Definition keeps {A} (P : TypedArray.Uint8Array -> Prop) (m : Gen.M A) : Prop :=
  forall s, P (Gen.grid s) -> P (Gen.grid (m s).2).

(** The world before any chunk is generated. *)
Definition fresh_world (seed : Z) (r : Js.Rand) : World :=
  mkWorld ∅ (Perlin.permutation seed) r.

(** The order of the comparison operators on doubles, read on a key: the
    class of the value (negative infinity, negative, zero, positive,
    positive infinity), then exponent and mantissa. [NaN] has no key. *)
Definition rank (f : spec_float) : option (Z * Z * Z) :=
  match f with
  | S754_nan => None
  | S754_infinity true => Some (-2, 0, 0)
  | S754_infinity false => Some (2, 0, 0)
  | S754_zero _ => Some (0, 0, 0)
  | S754_finite true m e => Some (-1, - e, Z.neg m)
  | S754_finite false m e => Some (1, e, Z.pos m)
  end.

Definition lex (a b : Z * Z * Z) : comparison :=
  match a.1.1 ?= b.1.1 with
  | Eq => match a.1.2 ?= b.1.2 with
          | Eq => a.2 ?= b.2
          | c => c
          end
  | c => c
  end.

Definition lex_lt (a b : Z * Z * Z) : Prop :=
  a.1.1 < b.1.1 \/ (a.1.1 = b.1.1 /\ (a.1.2 < b.1.2 \/ (a.1.2 = b.1.2 /\ a.2 < b.2))).

(** The key of a double. *)
Definition key (x : float) : option (Z * Z * Z) := rank (Prim2SF x).

(** The box of the Y pass: around the current [x] and [z], with its bottom
    at the tentative [y]. *)
Definition floor_box (pl : Player.State) (newPosition : Three.Vector3)
    : Three.Vector3 * Three.Vector3 :=
  Three.setFromCenterAndSize
    (Three.vec3 (Three.vx (Player.position pl))
                (Three.vy newPosition + Player.height / 2)%float
                (Three.vz (Player.position pl)))
    (Three.vec3 Player.width Player.height Player.width).

(** A world of one chunk that is air except for one stone block at
    [(0, 9, 0)], and a player standing on it with feet at [y = 10],
    falling at [-0.01]. *)
Definition one_block_world : World :=
  mkWorld
    {[ (0, 0) :=
         mkChunk 0 0
           (TypedArray.set_u8 (TypedArray.new (CHUNK_SIZE * WORLD_HEIGHT * CHUNK_SIZE))
              (block_index 0 9 0) Block.stone)
           false ]}
    (Perlin.permutation 0)
    (fun _ => 0.5%float).

Definition standing_player : Player.State :=
  Player.mkState (Three.vec3 0.5 10 0.5) (Three.vec3 0 (-0.01) 0) true.

(** The grid stored for a chunk coordinate, if any. *)
Definition grid_of (w : World) (chunkX chunkZ : Z) : option TypedArray.Uint8Array :=
  blocks <$> chunks w !! (chunkX, chunkZ).

(** Two states of the generator with the same grid and the same draws to come. *)
Definition same_state (s1 s2 : Gen.State) : Prop :=
  Gen.grid s1 = Gen.grid s2 /\ forall n, Gen.draws s1 n = Gen.draws s2 n.

(** A generator step whose result and effect depend on the draws only
    through their values. *)
Definition respects_draws {A} (m : Gen.M A) : Prop :=
  forall s1 s2, same_state s1 s2 ->
    (m s1).1 = (m s2).1 /\ same_state (m s1).2 (m s2).2.

(** The values of the counter [t] of the pick, had the loop [n] rounds:
    [t], [t + 0.1], [t + 0.1 + 0.1], ... *)
Fixpoint ticks (n : nat) (t : float) : list float :=
  match n with
  | O => []
  | S n' => t :: ticks n' (t + 0.1)%float
  end.

(** The value of the counter after [n] increments. *)
Fixpoint tick_after (n : nat) (t : float) : float :=
  match n with
  | O => t
  | S n' => tick_after n' (t + 0.1)%float
  end.

(** The block in which the sample of the ray at parameter [t] lies. *)
Definition sample_block (w : World) (ray : Three.Ray) (t : float) : Z :=
  Pick.block_at w (Three.floor (Three.at_ ray t)).

(** The vector from the previous sample to the sample at [t], scaled. *)
Definition sample_diff (ray : Three.Ray) (t : float) : Three.Vector3 :=
  Three.multiplyScalar
    (Three.sub (Three.at_ ray t) (Three.at_ ray (t - 0.1)%float)) 10.

(** A level ray from inside the stone block of [one_block_world], half way
    between the x and the z direction. *)
Definition diagonal_ray : Three.Ray :=
  {| Three.origin := Three.vec3 0.5 9.5 0.5;
     Three.direction := Three.vec3 0.7071067811865476 0 0.7071067811865476 |}.

(** Components and axis vectors by axis number: 0 is x, 1 is y, 2 is z. *)
Definition component (d : Three.Vector3) (axis : nat) : float :=
  match axis with
  | O => Three.vx d
  | 1%nat => Three.vy d
  | _ => Three.vz d
  end.

Definition along (axis : nat) (s : float) : Three.Vector3 :=
  match axis with
  | O => Three.vec3 s 0 0
  | 1%nat => Three.vec3 0 s 0
  | _ => Three.vec3 0 0 s
  end.

(** ** The mesher *)

(** The cells [(a, b)] of the rectangle at [(i, j)] of size [w] by [h], in
    the coordinates of the mask. *)
Definition rect (i j w h : nat) : list (nat * nat) :=
  b ← seq j h; a ← seq i w; [(a, b)].

(** A rectangle that the scan of a plane emits: the mask value and the
    arguments of [make_face]. *)
Record Quad := mkQuad {
  q_cur : option Z; q_i : nat; q_j : nat; q_w : nat; q_h : nat
}.

Definition quad_cells (q : Quad) : list (nat * nat) :=
  rect (q_i q) (q_j q) (q_w q) (q_h q).

Definition quad_face (axis : nat) (xa : Z) (q : Quad) : Mesher.Face :=
  Mesher.make_face axis xa (q_cur q) (q_i q) (q_j q) (q_w q) (q_h q).

(** What the scan of a plane maintains: [m0] is the mask at the start, [m]
    the mask now, [n] the position of the scan and [qs] the rectangles
    emitted so far. *)
Record scan_inv (du dv : nat) (m0 m : list Z) (n : nat) (qs : list Quad) : Prop := {
  inv_length : length m = (du * dv)%nat;
  inv_behind : forall p, (p < n)%nat -> (p < du * dv)%nat -> m !! p = Some 0;
  inv_cover : forall a b, (a < du)%nat -> (b < dv)%nat ->
    ((a, b) ∈ qs ≫= quad_cells \/ m !! (a + b * du)%nat <> Some 0)
    <-> m0 !! (a + b * du)%nat <> Some 0;
  inv_nodup : NoDup (qs ≫= quad_cells);
  inv_done : forall a b, (a, b) ∈ qs ≫= quad_cells ->
    (a < du)%nat /\ (b < dv)%nat /\ m !! (a + b * du)%nat = Some 0
}.

(** The corner of the unit face at [(a, b)] of the plane [x[axis] = xa]. *)
Definition plane_pos (axis : nat) (xa : Z) (a b : nat) : Mesher.Arr3 :=
  Mesher.set3
    (Mesher.set3 (Mesher.set3 Mesher.zero3 axis xa) (Mesher.axis_u axis) (Z.of_nat a))
    (Mesher.axis_v axis) (Z.of_nat b).

(** The axis along which the normal of a face points. *)
Definition face_axis (f : Mesher.Face) : nat :=
  if negb (Mesher.get3 (Mesher.normal f) 0 =? 0) then 0%nat
  else if negb (Mesher.get3 (Mesher.normal f) 1 =? 0) then 1%nat
  else 2%nat.

(** A face cut back into unit faces: a unit face is the axis it is
    perpendicular to and the corner with the least coordinates.  The
    rectangle of a face lies between its first and its third vertex. *)
Definition rasterize (f : Mesher.Face) : list (nat * Mesher.Arr3) :=
  match Mesher.vertices f with
  | v1 :: _ :: v3 :: _ =>
      let axis := face_axis f in
      let u := Mesher.axis_u axis in
      let v := Mesher.axis_v axis in
      b ← seqZ (Mesher.get3 v1 v) (Mesher.get3 v3 v - Mesher.get3 v1 v);
      a ← seqZ (Mesher.get3 v1 u) (Mesher.get3 v3 u - Mesher.get3 v1 u);
      [(axis, Mesher.set3 (Mesher.set3 v1 u a) v b)]
  | _ => []
  end.

Definition cells_of (faces : list Mesher.Face) : list (nat * Mesher.Arr3) :=
  faces ≫= rasterize.

(** The cell at [x] of the chunk is not air; cells outside the chunk are air. *)
Definition solid (chunk : Chunk) (x : Mesher.Arr3) : bool :=
  negb (getBlockInChunk chunk x.1.1 x.1.2 x.2 =? 0).

(** The cell before [x] along [axis]. *)
Definition behind (axis : nat) (x : Mesher.Arr3) : Mesher.Arr3 :=
  Mesher.set3 x axis (Mesher.get3 x axis - 1).

(** The unit face at [x] perpendicular to [axis] lies on a plane of the
    sweep (the two planes that bound the chunk included) and inside the
    chunk in the two other directions, and exactly one of the two cells
    that it separates is solid. *)
Definition is_boundary (chunk : Chunk) (axis : nat) (x : Mesher.Arr3) : Prop :=
  (axis < 3)%nat /\
  0 <= Mesher.get3 x axis <= Mesher.get3 Mesher.dims axis /\
  0 <= Mesher.get3 x (Mesher.axis_u axis) < Mesher.get3 Mesher.dims (Mesher.axis_u axis) /\
  0 <= Mesher.get3 x (Mesher.axis_v axis) < Mesher.get3 Mesher.dims (Mesher.axis_v axis) /\
  solid chunk (behind axis x) <> solid chunk x.

(** The cells of the grid that were written hold bytes, as [set_u8] stores them. *)
Definition byte_grid (chunk : Chunk) : Prop := bytes (blocks chunk).

(** The unit face at [x] lies inside the chunk in the two directions of the
    plane, and exactly one of the two cells that it separates is solid. *)
Definition crossing (chunk : Chunk) (axis : nat) (x : Mesher.Arr3) : Prop :=
  0 <= Mesher.get3 x (Mesher.axis_u axis) < Mesher.get3 Mesher.dims (Mesher.axis_u axis) /\
  0 <= Mesher.get3 x (Mesher.axis_v axis) < Mesher.get3 Mesher.dims (Mesher.axis_v axis) /\
  solid chunk (behind axis x) <> solid chunk x.

(** The grid of the chunk is full and every cell holds [t]. *)
Definition filled_with (chunk : Chunk) (t : Z) : Prop :=
  TypedArray.len (blocks chunk) = grid_size /\
  forall i, 0 <= i < grid_size -> TypedArray.cells (blocks chunk) !! i = Some t.

(** A chunk whose grid is full of [t]. *)
Definition solid_chunk (t : Z) : Chunk :=
  mkChunk 0 0
    (TypedArray.mkArray grid_size (map_seqZ 0 (replicate (Z.to_nat grid_size) t)))
    true.

(** The six faces of a chunk that is full of one block type [t]: for each
    axis, the face on the plane at 0, which looks down the axis, and the
    face on the far plane, which looks up. *)
Definition six_faces (t : Z) : list Mesher.Face :=
  [ Mesher.mkFace [(0, 0, 0); (0, 0, 16); (0, 64, 16); (0, 64, 0)] (-1, 0, 0) (Some t);
    Mesher.mkFace [(16, 0, 0); (16, 64, 0); (16, 64, 16); (16, 0, 16)] (1, 0, 0) (Some t);
    Mesher.mkFace [(0, 0, 0); (16, 0, 0); (16, 0, 16); (0, 0, 16)] (0, -1, 0) (Some t);
    Mesher.mkFace [(0, 64, 0); (0, 64, 16); (16, 64, 16); (16, 64, 0)] (0, 1, 0) (Some t);
    Mesher.mkFace [(0, 0, 0); (0, 64, 0); (16, 64, 0); (16, 0, 0)] (0, 0, -1) (Some t);
    Mesher.mkFace [(0, 0, 16); (16, 0, 16); (16, 64, 16); (0, 64, 16)] (0, 0, 1) (Some t) ].


(* ===================================================================== *)
(** * Vocabulary of the statements: the store *)
(* ===================================================================== *)

(** The key of the chunk that holds the column at [(x, z)], and the index
    of the cell at [(x, y, z)] in the grid of that chunk. *)
Definition chunk_key (x z : Z) : Z * Z := (chunk_coord x, chunk_coord z).

Definition cell_index (x y z : Z) : Z :=
  block_index (local_coord x) y (local_coord z).

(** The neighbours of the chunk of [(x, z)] that a write in that column
    touches: the one across a border on which the column lies. *)
Definition flagged (x z : Z) (k : Z * Z) : bool :=
  ((local_coord x =? 0) && bool_decide (k = (chunk_coord x - 1, chunk_coord z)))
  || ((local_coord x =? CHUNK_SIZE - 1) && bool_decide (k = (chunk_coord x + 1, chunk_coord z)))
  || ((local_coord z =? 0) && bool_decide (k = (chunk_coord x, chunk_coord z - 1)))
  || ((local_coord z =? CHUNK_SIZE - 1) && bool_decide (k = (chunk_coord x, chunk_coord z + 1))).

(** A chunk with its flag raised when [b] holds. *)
Definition flag_if (b : bool) (c : Chunk) : Chunk :=
  mkChunk (chunk_x c) (chunk_z c) (blocks c) (needsUpdate c || b).

(** A world with one stored chunk, all air, at [(0, 0)]. *)
Definition air_world : World :=
  mkWorld {[ (0, 0) := mkChunk 0 0 (TypedArray.new grid_size) false ]}
          (TypedArray.new 512) (fun _ => 0.5%float).

(** The blocks that the terrain generator places. *)
Definition terrain_block (v : Z) : Prop := 1 <= v <= 6.

(** A grid whose written cells hold terrain blocks. *)
Definition terrain (a : TypedArray.Uint8Array) : Prop :=
  forall i v, TypedArray.cells a !! i = Some v -> terrain_block v.

(* ===================================================================== *)
(** * Vocabulary of the statements: the player *)
(* ===================================================================== *)

(** The box of the X pass: at the tentative [x], around the current [y]
    and [z]; and the box of the Z pass, at the tentative [z]. *)
Definition wall_box_x (pl : Player.State) (newPosition : Three.Vector3)
    : Three.Vector3 * Three.Vector3 :=
  Three.setFromCenterAndSize
    (Three.vec3 (Three.vx newPosition)
                (Three.vy (Player.position pl) + Player.height / 2)%float
                (Three.vz (Player.position pl)))
    (Three.vec3 Player.width Player.height Player.width).

Definition wall_box_z (pl : Player.State) (newPosition : Three.Vector3)
    : Three.Vector3 * Three.Vector3 :=
  Three.setFromCenterAndSize
    (Three.vec3 (Three.vx (Player.position pl))
                (Three.vy (Player.position pl) + Player.height / 2)%float
                (Three.vz newPosition))
    (Three.vec3 Player.width Player.height Player.width).

(** The side of the box that leads a move with velocity component [v]. *)
Definition leading (v lo hi : float) : float :=
  if PrimFloat.ltb 0 v then Js.Math_floor hi else Js.Math_floor lo.

(** No key but the space bar is down. *)
Definition only_space : Player.Keys := Player.mkKeys false false false false true false.

(** The keys with the space bar released. *)
Definition release_space (keys : Player.Keys) : Player.Keys :=
  Player.mkKeys (Player.KeyW keys) (Player.KeyS keys) (Player.KeyA keys)
                (Player.KeyD keys) false (Player.ShiftLeft keys).

(* ===================================================================== *)
(** * Vocabulary of the statements: the input *)
(* ===================================================================== *)

(** The integer coordinates of a vector whose components are finite integers. *)
Definition cell_of (v : Three.Vector3) : option (Z * Z * Z) :=
  match Js.finite_int (Three.vx v), Js.finite_int (Three.vy v),
        Js.finite_int (Three.vz v) with
  | Some x, Some y, Some z => Some (x, y, z)
  | _, _, _ => None
  end.

(** The input state with the pointer locked. *)
Definition locked : Input.State :=
  Input.pointerlockchange Input.initial true.

(** A ray that starts in the stone block of [one_block_world] and looks down. *)
Definition ray_in_block : Three.Ray :=
  {| Three.origin := Three.vec3 0.5 9.5 0.5; Three.direction := Three.vec3 0 (-1) 0 |}.

(* ===================================================================== *)
(** * Vocabulary of the statements: faces and meshes *)
(* ===================================================================== *)

(** The mask [m] comes from [m0] by clearing cells. *)
Definition fades (m0 m : list Z) : Prop :=
  forall p v, m !! p = Some v -> v <> 0 -> m0 !! p = Some v.

(** A rectangle that the scan of the mask [m0] may emit: it lies in the
    plane, is not empty, and all of its cells held the same value in
    [m0], which is not 0. *)
Definition quad_ok (du dv : nat) (m0 : list Z) (q : Quad) : Prop :=
  exists c, q_cur q = Some c /\ c <> 0 /\
    (1 <= q_w q)%nat /\ (1 <= q_h q)%nat /\
    (q_i q + q_w q <= du)%nat /\ (q_j q + q_h q <= dv)%nat /\
    forall a b, (a, b) ∈ quad_cells q -> m0 !! (a + b * du)%nat = Some c.

(** A face of the mesh of [chunk]: the face of such a rectangle of the
    mask of one of the planes of the sweep. *)
Definition face_ok (chunk : Chunk) (f : Mesher.Face) : Prop :=
  exists axis xa q,
    (axis < 3)%nat /\ -1 <= xa < Mesher.get3 Mesher.dims axis /\
    f = quad_face axis (xa + 1) q /\
    quad_ok (Mesher.dim (Mesher.axis_u axis)) (Mesher.dim (Mesher.axis_v axis))
            (Mesher.plane_mask chunk axis xa) q.

(** The block at a position given as an array. *)
Definition block_in (chunk : Chunk) (x : Mesher.Arr3) : Z :=
  getBlockInChunk chunk x.1.1 x.1.2 x.2.

(** A chunk whose grid has no cell written. *)
Definition air_chunk : Chunk := mkChunk 0 0 (TypedArray.new grid_size) true.

(* ===================================================================== *)
(** * Vocabulary of the statements: the chunks around the player *)
(* ===================================================================== *)

(** The chunk coordinate [k] lies within [r] chunks of [(cx, cz)]. *)
Definition near (r cx cz : Z) (k : Z * Z) : Prop :=
  Z.abs (k.1 - cx) <= r /\ Z.abs (k.2 - cz) <= r.

(** Every chunk is stored under its own coordinate. *)
Definition keyed (w : World) : Prop :=
  forall k c, chunks w !! k = Some c -> (chunk_x c, chunk_z c) = k.

(** The mesh [m] shows the chunk [c]: when the chunk has faces, the mesh
    is in the scene with the geometry of these faces. *)
Definition shown (mkColor : option Z -> Render.Color) (c : Chunk)
    (m : option Render.Mesh) : Prop :=
  Mesher.greedyMeshChunk c <> [] ->
  exists mesh, m = Some mesh /\ Render.inScene mesh = true /\
               Render.geometry mesh = Render.build mkColor c (Mesher.greedyMeshChunk c).

(** Every chunk whose flag is down has a mesh that shows it. *)
Definition current (mkColor : option Z -> Render.Color) (sc : Render.Scene) : Prop :=
  forall k c, chunks (Render.world sc) !! k = Some c -> needsUpdate c = false ->
              shown mkColor c (Render.meshes sc !! k).

(** The scene before any chunk is generated. *)
Definition empty_scene (seed : Z) (r : Js.Rand) : Render.Scene :=
  Render.mkScene (fresh_world seed r) ∅.

(** The position at which the player starts. *)
Definition start_position : Three.Vector3 := Three.vec3 0 32 0.

(** The six indices of the two triangles of the face number [j]. *)
Definition quad_indices (j : Z) : list Z :=
  [4 * j; 4 * j + 1; 4 * j + 2; 4 * j; 4 * j + 2; 4 * j + 3].

(** The three numbers pushed for a vertex of a face of [chunk]. *)
Definition placed (chunk : Chunk) (v : Mesher.Arr3) : list Z :=
  [Mesher.get3 v 0 + chunk_x chunk * CHUNK_SIZE; Mesher.get3 v 1;
   Mesher.get3 v 2 + chunk_z chunk * CHUNK_SIZE].

(** The colour of a face. *)
Definition face_color (mkColor : option Z -> Render.Color) (f : Mesher.Face)
    : Render.Color :=
  Render.multiplyScalar (mkColor (Render.BLOCK_COLORS (Mesher.blockType f)))
                        (Render.brightness (Mesher.normal f)).

(** White for every block. *)
Definition white (_ : option Z) : Render.Color := Render.rgb 1 1 1.

(** Everything is in view. *)
Definition in_view (_ _ : Z) : bool := true.

(* ===================================================================== *)
(** * Vocabulary of the statements: the noise *)
(* ===================================================================== *)

(** A double that is a number: a zero or a finite value. *)
Definition is_finite (x : float) : bool :=
  match Prim2SF x with
  | S754_zero _ | S754_finite _ _ _ => true
  | _ => false
  end.

(** The value of the noise at the corner of a cell, for the four hashes
    [h1], [h2], [h3] and [h4] of the corners of the cell. *)
Definition corner_noise (h1 h2 h3 h4 : Z) : float :=
  Perlin.lerp (Perlin.fade 0)
    (Perlin.lerp (Perlin.fade 0) (Perlin.grad (Some h1) 0 0)
                 (Perlin.grad (Some h2) (0 - 1) 0))
    (Perlin.lerp (Perlin.fade 0) (Perlin.grad (Some h3) 0 (0 - 1))
                 (Perlin.grad (Some h4) (0 - 1) (0 - 1))).

(* ===================================================================== *)
(** * Vocabulary of the statements: the frame counter *)
(* ===================================================================== *)

(** The variables after [updateUI] ran at each of the times [ts]. *)
Definition frames (canvas : option Ui.Canvas) (s : Ui.State) (ts : list float)
    : Ui.State :=
  foldl (fun s t => (Ui.updateUI canvas s t).1) s ts.

(** The time between each of the times [ts] and the one before it, [last]
    being the time before the first. *)
Fixpoint deltas (last : float) (ts : list float) : list float :=
  match ts with
  | [] => []
  | t :: ts => (t - last)%float :: deltas t ts
  end.

(** The last [n] elements of a list, or all of them when it is shorter. *)
Definition last_n {A} (n : nat) (l : list A) : list A := drop (length l - n) l.

(** The columns of the bars among what is drawn. *)
Definition columns (ds : list Ui.Draw) : list Z :=
  omap (fun d => match d with Ui.fillRect _ x _ _ _ => Some x | _ => None end) ds.

(** A canvas of the size of the page's graph. *)
Definition graph_canvas : Ui.Canvas := Ui.mkCanvas 120 40 true.

(** The variables of the frame counter when the module is loaded at the
    time [now]. *)
Definition ui_start (now : float) : Ui.State := Ui.mkState 0 now now 60 [].

(* ===================================================================== *)
(** * The chunk store: reads after writes *)
(* ===================================================================== *)


(** The constants of [Block] are the entries of the [BLOCKS] object, and
    the values of the enumeration are exactly its entries. *)
Lemma BLOCKS_entries :
  BLOCKS "air" = Js.JsNum Block.air /\
  BLOCKS "stone" = Js.JsNum Block.stone /\
  BLOCKS "cobblestone" = Js.JsNum Block.cobblestone /\
  BLOCKS "dirt" = Js.JsNum Block.dirt /\
  BLOCKS "grass" = Js.JsNum Block.grass /\
  BLOCKS "logs" = Js.JsNum Block.logs /\
  BLOCKS "leaves" = Js.JsNum Block.leaves /\
  BLOCKS "planks" = Js.JsNum Block.planks /\
  BLOCKS "glass" = Js.JsNum Block.glass /\
  BLOCKS "bricks" = Js.JsNum Block.bricks.
Proof. repeat split. Qed.

Lemma is_block_type_entry (t : Z) :
  is_block_type t <-> t ∈ BLOCKS_table.*2.
Proof.
  unfold is_block_type, BLOCKS_table. cbn [fmap list_fmap snd].
  rewrite !elem_of_cons, elem_of_nil. lia.
Qed.

Section GenInvariant.
Import Gen.
Variable P : TypedArray.Uint8Array -> Prop.
Hypothesis P_set : stable P.

Lemma keeps_ret {A} (a : A) : keeps P (ret a).
Proof. intros s H. exact H. Qed.

Lemma keeps_bind {A B} (m : M A) (k : A -> M B) :
  keeps P m -> (forall a, keeps P (k a)) -> keeps P (bind m k).
Proof.
  intros Hm Hk s H. unfold bind. specialize (Hm s H).
  destruct (m s) as [a s'] eqn:E. simpl in Hm. apply Hk. exact Hm.
Qed.

Lemma keeps_random : keeps P random.
Proof. intros s H. exact H. Qed.

Lemma keeps_read i : keeps P (read i).
Proof. intros s H. exact H. Qed.

Lemma keeps_write i v : keeps P (write i v).
Proof. intros s H. unfold write. simpl. apply P_set. exact H. Qed.

Lemma keeps_when b m : keeps P m -> keeps P (when b m).
Proof. intros H. destruct b; [exact H | apply keeps_ret]. Qed.

Lemma keeps_for_each {A} (l : list A) body :
  (forall a, keeps P (body a)) -> keeps P (for_each l body).
Proof.
  intros H. induction l as [|a l IH]; simpl.
  - apply keeps_ret.
  - apply keeps_bind; [apply H | intros _; exact IH].
Qed.

Lemma keeps_for_to lo hi body :
  (forall a, keeps P (body a)) -> keeps P (for_to lo hi body).
Proof. apply keeps_for_each. Qed.

Ltac keeps known :=
  repeat lazymatch goal with
  | |- keeps _ (ret _) => apply keeps_ret
  | |- keeps _ random => apply keeps_random
  | |- keeps _ (read _) => apply keeps_read
  | |- keeps _ (write _ _) => apply keeps_write
  | |- keeps _ (when _ _) => apply keeps_when
  | |- keeps _ (for_to _ _ _) => apply keeps_for_to; intros ?
  | |- keeps _ (bind _ _) => apply keeps_bind; [| intros ?]
  | |- keeps _ (if ?b then _ else _) => destruct b
  | |- keeps _ (match ?x with _ => _ end) => destruct x
  | |- keeps _ (let _ := _ in _) => cbv zeta
  | |- _ => known
  end.

Lemma keeps_leaf i q : keeps P (leaf i q).
Proof. unfold leaf. keeps fail. Qed.

Lemma keeps_trunk x y z h : keeps P (trunk x y z h).
Proof. unfold trunk. keeps fail. Qed.

Lemma keeps_generateTree x y z : keeps P (generateTree x y z).
Proof.
  unfold generateTree, generateOakTree, generateTallTree, generateLargeTree.
  keeps ltac:(first [apply keeps_trunk | apply keeps_leaf]).
Qed.

Lemma keeps_fill p cx cz : keeps P (fill p cx cz).
Proof.
  unfold fill, column. keeps ltac:(apply keeps_generateTree).
Qed.

Hypothesis P_new : P (TypedArray.new grid_size).

(** The chunk at the generated coordinate is stored, with a grid built by
    writes of single cells into a new array. *)
Lemma generateChunk_lookup (w : World) (cx cz : Z) :
  grids P w ->
  exists c, chunks (generateChunk w cx cz) !! (cx, cz) = Some c /\ P (blocks c).
Proof.
  intros Hwf. unfold generateChunk.
  destruct (chunks w !! (cx, cz)) as [c|] eqn:E.
  - exists c. split; [exact E | eapply Hwf; exact E].
  - pose proof (keeps_fill (perm w) cx cz
      (Gen.mkState (TypedArray.new (CHUNK_SIZE * WORLD_HEIGHT * CHUNK_SIZE)) (rand w))
      P_new) as L.
    destruct (Gen.fill _ _ _ _) as [u s]. cbn [snd Gen.grid] in L.
    eexists. split; [apply lookup_insert_eq |]. cbn [blocks]. exact L.
Qed.

Lemma generateChunk_grids (w : World) (cx cz : Z) :
  grids P w -> grids P (generateChunk w cx cz).
Proof.
  intros Hwf k c Hk.
  destruct (decide (k = (cx, cz))) as [->|Hne].
  - destruct (generateChunk_lookup w cx cz Hwf) as (c' & Hc' & L). congruence.
  - unfold generateChunk in Hk.
    destruct (chunks w !! (cx, cz)); [eapply Hwf; exact Hk |].
    destruct (Gen.fill _ _ _ _) as [u s]. simpl in Hk.
    rewrite lookup_insert_ne in Hk by congruence. eapply Hwf; exact Hk.
Qed.

End GenInvariant.

Lemma sized_set : stable sized.
Proof.
  intros a i v H. unfold sized, TypedArray.set_u8 in *.
  destruct (TypedArray.in_range _ _); exact H.
Qed.

Lemma sized_new : sized (TypedArray.new grid_size).
Proof. reflexivity. Qed.

Lemma bytes_set : stable bytes.
Proof.
  intros a i v H k u Hk. unfold TypedArray.set_u8 in Hk.
  destruct (TypedArray.in_range a i); [| eapply H; exact Hk].
  cbn [TypedArray.cells] in Hk.
  apply lookup_insert_Some in Hk as [[_ <-] | [_ Hk]].
  - apply Z.mod_pos_bound. lia.
  - eapply H. exact Hk.
Qed.

Lemma bytes_new n : bytes (TypedArray.new n).
Proof. intros i v H. cbn in H. rewrite lookup_empty in H. discriminate. Qed.

Lemma generateChunk_wf (w : World) (cx cz : Z) :
  wf_world w -> wf_world (generateChunk w cx cz).
Proof. apply generateChunk_grids; [exact sized_set | exact sized_new]. Qed.

Lemma local_coord_range (x : Z) : 0 <= local_coord x < CHUNK_SIZE.
Proof.
  unfold local_coord, CHUNK_SIZE.
  pose proof (Z.rem_bound_abs x 16 ltac:(lia)) as H.
  assert (0 <= Z.rem x 16 + 16) by lia.
  rewrite Z.rem_mod_nonneg by lia.
  apply Z.mod_pos_bound. lia.
Qed.

Lemma block_index_range (x y z : Z) :
  0 <= x < CHUNK_SIZE -> 0 <= y < WORLD_HEIGHT -> 0 <= z < CHUNK_SIZE ->
  0 <= block_index x y z < grid_size.
Proof. unfold block_index, grid_size, CHUNK_SIZE, WORLD_HEIGHT. lia. Qed.

Lemma mark_blocks (k k' : Z * Z) (cs : gmap (Z * Z) Chunk) :
  blocks <$> (mark k cs !! k') = blocks <$> (cs !! k').
Proof.
  unfold mark. destruct (decide (k = k')) as [->|Hne].
  - rewrite lookup_alter_eq. destruct (cs !! k'); reflexivity.
  - rewrite lookup_alter_ne by exact Hne. reflexivity.
Qed.

(** The grid stored under the written cell's chunk after [setBlock]. *)
Lemma setBlock_chunk (w : World) (x y z t : Z) :
  wf_world w -> 0 <= y < WORLD_HEIGHT ->
  exists c0,
    TypedArray.len (blocks c0) = grid_size /\
    blocks <$> (chunks (setBlock w x y z t) !! (chunk_coord x, chunk_coord z))
    = Some (TypedArray.set_u8 (blocks c0)
              (block_index (local_coord x) y (local_coord z)) t).
Proof.
  intros Hwf Hy. unfold setBlock.
  replace ((y <? 0) || (WORLD_HEIGHT <=? y)) with false
    by (symmetry; apply orb_false_iff; split; [apply Z.ltb_ge | apply Z.leb_gt]; lia).
  set (w1 := match chunks w !! (chunk_coord x, chunk_coord z) with
             | Some _ => w
             | None => generateChunk w (chunk_coord x) (chunk_coord z)
             end).
  assert (exists c, chunks w1 !! (chunk_coord x, chunk_coord z) = Some c
                    /\ TypedArray.len (blocks c) = grid_size) as (c & Hc & L).
  { subst w1. destruct (chunks w !! (chunk_coord x, chunk_coord z)) as [c|] eqn:E.
    - exists c. split; [exact E | eapply Hwf; exact E].
    - apply (generateChunk_lookup sized sized_set sized_new). exact Hwf. }
  rewrite Hc. exists c. split; [exact L |]. cbn [chunks].
  repeat match goal with
  | |- context [if ?b then mark ?k ?m else ?m] =>
      replace (blocks <$> (if b then mark k m else m) !! (chunk_coord x, chunk_coord z))
        with (blocks <$> m !! (chunk_coord x, chunk_coord z))
        by (destruct b; [symmetry; apply mark_blocks | reflexivity])
  end.
  rewrite lookup_insert_eq. reflexivity.
Qed.

(** A read of the cell just written gives the stored byte. *)
Lemma getBlock_setBlock_byte (w : World) (x y z t : Z) :
  wf_world w -> 0 <= y < WORLD_HEIGHT ->
  getBlock (setBlock w x y z t) x y z = t mod 256.
Proof.
  intros Hwf Hy.
  destruct (setBlock_chunk w x y z t Hwf Hy) as (c0 & L & Hc).
  unfold getBlock.
  replace ((y <? 0) || (WORLD_HEIGHT <=? y)) with false
    by (symmetry; apply orb_false_iff; split; [apply Z.ltb_ge | apply Z.leb_gt]; lia).
  destruct (chunks (setBlock w x y z t) !! (chunk_coord x, chunk_coord z)) as [c|];
    [| discriminate].
  simpl in Hc. injection Hc as ->.
  pose proof (block_index_range _ y _ (local_coord_range x) Hy (local_coord_range z)) as Hi.
  set (i := block_index (local_coord x) y (local_coord z)) in *.
  assert (Hr : TypedArray.in_range (blocks c0) i = true).
  { unfold TypedArray.in_range. rewrite L. clearbody i. apply andb_true_iff.
    split; [apply Z.leb_le | apply Z.ltb_lt]; lia. }
  unfold TypedArray.get, TypedArray.set_u8. rewrite Hr.
  unfold TypedArray.in_range in *. cbn [TypedArray.len TypedArray.cells]. rewrite Hr.
  rewrite lookup_insert_eq. cbn [default from_option]. unfold id.
  unfold or_air, Block.air.
  destruct (t mod 256 =? 0) eqn:E; [apply Z.eqb_eq in E; lia | reflexivity].
Qed.

Section StoreInvariant.
Variable P : TypedArray.Uint8Array -> Prop.
Hypothesis P_set : stable P.
Hypothesis P_new : P (TypedArray.new grid_size).

(** [setBlock] changes grids by writes of single cells only, in chunks that
    are stored already or that it generates. *)
Lemma setBlock_grids (w : World) (x y z t : Z) : grids P w -> grids P (setBlock w x y z t).
Proof.
  intros Hwf. unfold setBlock.
  destruct ((y <? 0) || (WORLD_HEIGHT <=? y)); [exact Hwf |].
  set (w1 := match chunks w !! (chunk_coord x, chunk_coord z) with
             | Some _ => w
             | None => generateChunk w (chunk_coord x) (chunk_coord z)
             end).
  assert (Hw1 : grids P w1).
  { subst w1. destruct (chunks w !! _); [exact Hwf | apply generateChunk_grids; assumption]. }
  destruct (chunks w1 !! (chunk_coord x, chunk_coord z)) as [c|] eqn:Ec; [| exact Hw1].
  intros k c' Hk. cbn [chunks] in Hk.
  match type of Hk with
  | ?m !! k = _ =>
      assert (Hb : blocks <$> (m !! k) = Some (blocks c')) by (rewrite Hk; reflexivity)
  end.
  clear Hk. revert Hb.
  repeat match goal with
  | |- context [if ?b then mark ?k0 ?m else ?m] =>
      replace (blocks <$> (if b then mark k0 m else m) !! k)
        with (blocks <$> m !! k)
        by (destruct b; [symmetry; apply mark_blocks | reflexivity])
  end.
  destruct (decide (k = (chunk_coord x, chunk_coord z))) as [->|Hne].
  - rewrite lookup_insert_eq. cbn. intros [= <-].
    apply P_set. eapply Hw1. exact Ec.
  - rewrite lookup_insert_ne by congruence.
    destruct (chunks w1 !! k) as [c0|] eqn:E0; cbn; [| discriminate].
    intros [= <-]. eapply Hw1. exact E0.
Qed.

End StoreInvariant.

(** [setBlock] keeps the grids full. *)
Lemma setBlock_wf (w : World) (x y z t : Z) : wf_world w -> wf_world (setBlock w x y z t).
Proof. apply setBlock_grids; [exact sized_set | exact sized_new]. Qed.

(** Generation and edits store bytes only. *)
Lemma generateChunk_bytes (w : World) (cx cz : Z) :
  byte_world w -> byte_world (generateChunk w cx cz).
Proof. apply generateChunk_grids; [exact bytes_set | apply bytes_new]. Qed.

Lemma setBlock_bytes (w : World) (x y z t : Z) :
  byte_world w -> byte_world (setBlock w x y z t).
Proof. apply setBlock_grids; [exact bytes_set | apply bytes_new]. Qed.

(** The chunks of a byte world are the grids that the mesher's statements
    are about. *)
Lemma byte_world_chunk (w : World) (k : Z * Z) (c : Chunk) :
  byte_world w -> chunks w !! k = Some c -> byte_grid c.
Proof. intros H Hk. exact (H k c Hk). Qed.

Lemma setBlock_out_of_range (w : World) (x y z t : Z) :
  y < 0 \/ WORLD_HEIGHT <= y -> setBlock w x y z t = w.
Proof.
  intros Hy. unfold setBlock.
  replace ((y <? 0) || (WORLD_HEIGHT <=? y)) with true; [reflexivity |].
  symmetry. apply orb_true_iff. destruct Hy; [left; apply Z.ltb_lt | right; apply Z.leb_le]; lia.
Qed.

Lemma getBlock_out_of_range (w : World) (x y z : Z) :
  y < 0 \/ WORLD_HEIGHT <= y -> getBlock w x y z = Block.air.
Proof.
  intros Hy. unfold getBlock.
  replace ((y <? 0) || (WORLD_HEIGHT <=? y)) with true; [reflexivity |].
  symmetry. apply orb_true_iff. destruct Hy; [left; apply Z.ltb_lt | right; apply Z.leb_le]; lia.
Qed.


Lemma fresh_world_grids P seed r : grids P (fresh_world seed r).
Proof. intros k c H. unfold fresh_world in H. simpl in H. rewrite lookup_empty in H. discriminate. Qed.

Lemma fresh_world_wf seed r : wf_world (fresh_world seed r).
Proof. apply fresh_world_grids. Qed.

Lemma fresh_world_bytes seed r : byte_world (fresh_world seed r).
Proof. apply fresh_world_grids. Qed.

(** C1. For integer coordinates and a block type [t] of the enumeration,
    [getBlock] right after [setBlock x y z t] returns [t] when
    [0 <= y < WORLD_HEIGHT]; when [y] is out of range [setBlock] changes
    nothing (no grid of any chunk) and [getBlock] returns air. *)
Theorem getBlock_after_setBlock (w : World) (x y z t : Z) :
  wf_world w -> is_block_type t ->
  (0 <= y < WORLD_HEIGHT -> getBlock (setBlock w x y z t) x y z = t) /\
  (y < 0 \/ WORLD_HEIGHT <= y ->
     setBlock w x y z t = w /\
     getBlock (setBlock w x y z t) x y z = Block.air).
Proof.
  intros Hwf Ht. split.
  - intros Hy. rewrite getBlock_setBlock_byte by assumption.
    unfold is_block_type in Ht. apply Z.mod_small. lia.
  - intros Hy. split.
    + apply setBlock_out_of_range. exact Hy.
    + apply getBlock_out_of_range. exact Hy.
Qed.

Lemma getBlock_after_setBlock_witness :
  getBlock (setBlock (fresh_world 0 (fun _ => 0.5%float)) (-3) 40 21 Block.glass)
           (-3) 40 21 = Block.glass /\
  setBlock (fresh_world 0 (fun _ => 0.5%float)) (-3) 64 21 Block.glass
  = fresh_world 0 (fun _ => 0.5%float) /\
  getBlock (setBlock (fresh_world 0 (fun _ => 0.5%float)) (-3) 64 21 Block.glass)
           (-3) 64 21 = Block.air.
Proof.
  assert (Hb : is_block_type Block.glass) by (unfold is_block_type, Block.glass; lia).
  split.
  - apply (getBlock_after_setBlock (fresh_world 0 (fun _ => 0.5%float)) (-3) 40 21
             Block.glass (fresh_world_wf _ _) Hb).
    unfold WORLD_HEIGHT. lia.
  - apply (getBlock_after_setBlock (fresh_world 0 (fun _ => 0.5%float)) (-3) 64 21
             Block.glass (fresh_world_wf _ _) Hb).
    right. unfold WORLD_HEIGHT. lia.
Defined.

(** C9. The grid is a [Uint8Array]: for an in-range [y] and any integer
    [t], [getBlock] after [setBlock x y z t] returns [t mod 256], which is
    [t] exactly when [0 <= t <= 255]. *)
Theorem getBlock_after_setBlock_mod256 (w : World) (x y z t : Z) :
  wf_world w -> 0 <= y < WORLD_HEIGHT ->
  getBlock (setBlock w x y z t) x y z = t mod 256 /\
  (getBlock (setBlock w x y z t) x y z = t <-> 0 <= t <= 255).
Proof.
  intros Hwf Hy. rewrite getBlock_setBlock_byte by assumption.
  split; [reflexivity |].
  pose proof (Z.mod_pos_bound t 256 ltac:(lia)) as Hb.
  split.
  - intros H. lia.
  - intros H. apply Z.mod_small. lia.
Qed.

Lemma getBlock_after_setBlock_mod256_witness :
  getBlock (setBlock (fresh_world 0 (fun _ => 0.5%float)) 17 5 (-1) 300) 17 5 (-1)
  = 300 mod 256 /\
  (getBlock (setBlock (fresh_world 0 (fun _ => 0.5%float)) 17 5 (-1) 300) 17 5 (-1) = 300
   <-> 0 <= 300 <= 255).
Proof.
  apply (getBlock_after_setBlock_mod256 (fresh_world 0 (fun _ => 0.5%float)) 17 5 (-1) 300).
  - apply fresh_world_wf.
  - unfold WORLD_HEIGHT. lia.
Defined.

(* ===================================================================== *)
(** * The order of doubles *)
(* ===================================================================== *)

Lemma SFcompare_rank (f g : spec_float) :
  SFcompare f g =
  match rank f, rank g with
  | Some a, Some b => Some (lex a b)
  | _, _ => None
  end.
Proof.
  destruct f as [[]| [] | | [] m1 e1], g as [[] | [] | | [] m2 e2];
    try reflexivity; unfold rank, lex, SFcompare; cbn [fst snd].
  change (-1 ?= -1) with Eq. cbv iota.
  rewrite Z.compare_opp, (Z.compare_antisym e1 e2).
  destruct (e1 ?= e2); reflexivity.
Qed.

Lemma lex_spec (a b : Z * Z * Z) : CompareSpec (a = b) (lex_lt a b) (lex_lt b a) (lex a b).
Proof.
  destruct a as [[a1 a2] a3], b as [[b1 b2] b3]. unfold lex, lex_lt. cbn [fst snd].
  destruct (Z.compare_spec a1 b1); [| constructor; lia | constructor; lia].
  destruct (Z.compare_spec a2 b2); [| constructor; lia | constructor; lia].
  destruct (Z.compare_spec a3 b3); constructor; [congruence | lia | lia].
Qed.

Lemma lex_lt_irrefl a : ~ lex_lt a a.
Proof. unfold lex_lt. lia. Qed.

Lemma lex_lt_trans a b c : lex_lt a b -> lex_lt b c -> lex_lt a c.
Proof. unfold lex_lt. lia. Qed.

Lemma lex_lt_asym a b : lex_lt a b -> ~ lex_lt b a.
Proof. unfold lex_lt. lia. Qed.

Lemma lex_total a b : lex_lt a b \/ a = b \/ lex_lt b a.
Proof. destruct (lex_spec a b); auto. Qed.

Lemma ltb_key (a b : float) :
  PrimFloat.ltb a b = true <->
  exists ka kb, key a = Some ka /\ key b = Some kb /\ lex_lt ka kb.
Proof.
  rewrite FloatAxioms.ltb_spec. unfold SFltb, key. rewrite SFcompare_rank.
  destruct (rank (Prim2SF a)) as [ka|], (rank (Prim2SF b)) as [kb|];
    try (split; [discriminate | intros (? & ? & ? & ? & ?); discriminate]).
  destruct (lex_spec ka kb) as [E|L|G].
  - split; [discriminate |]. intros (? & ? & [= <-] & [= <-] & H).
    subst. exfalso. eapply lex_lt_irrefl; eauto.
  - split; [eauto 6 | reflexivity].
  - split; [discriminate |]. intros (? & ? & [= <-] & [= <-] & H).
    exfalso. eapply lex_lt_asym; eauto.
Qed.

Lemma leb_key (a b : float) :
  PrimFloat.leb a b = true <->
  exists ka kb, key a = Some ka /\ key b = Some kb /\ ~ lex_lt kb ka.
Proof.
  rewrite FloatAxioms.leb_spec. unfold SFleb, key. rewrite SFcompare_rank.
  destruct (rank (Prim2SF a)) as [ka|], (rank (Prim2SF b)) as [kb|];
    try (split; [discriminate | intros (? & ? & ? & ? & ?); discriminate]).
  destruct (lex_spec ka kb) as [E|L|G].
  - split; [| reflexivity]. intros _. exists ka, kb. subst.
    repeat split; auto using lex_lt_irrefl.
  - split; [| reflexivity]. intros _. exists ka, kb.
    repeat split; auto using lex_lt_asym.
  - split; [discriminate |]. intros (? & ? & [= <-] & [= <-] & H). contradiction.
Qed.

Lemma eqb_key (a b : float) :
  PrimFloat.eqb a b = true <-> exists k, key a = Some k /\ key b = Some k.
Proof.
  rewrite FloatAxioms.eqb_spec. unfold SFeqb, key. rewrite SFcompare_rank.
  destruct (rank (Prim2SF a)) as [ka|], (rank (Prim2SF b)) as [kb|];
    try (split; [discriminate | intros (? & ? & ?); discriminate]).
  destruct (lex_spec ka kb) as [E|L|G].
  - subst. split; eauto.
  - split; [discriminate |]. intros (? & [= <-] & [= <-]).
    exfalso. eapply lex_lt_irrefl; eauto.
  - split; [discriminate |]. intros (? & [= <-] & [= <-]).
    exfalso. eapply lex_lt_irrefl; eauto.
Qed.

Lemma is_nan_key (a : float) : Js.is_nan a = false <-> is_Some (key a).
Proof.
  unfold Js.is_nan. rewrite negb_false_iff, eqb_key. split.
  - intros (k & H & _). eauto.
  - intros [k H]. eauto.
Qed.

Lemma ltb_asym (a b : float) : PrimFloat.ltb a b = true -> PrimFloat.ltb b a = false.
Proof.
  intros H. apply not_true_iff_false. intros H'.
  apply ltb_key in H as (ka & kb & Ha & Hb & L).
  apply ltb_key in H' as (kb' & ka' & Hb' & Ha' & L').
  rewrite Ha in Ha'. rewrite Hb in Hb'. simplify_eq.
  eapply lex_lt_asym; eauto.
Qed.

Lemma ltb_not_leb (a b : float) : PrimFloat.ltb a b = true -> PrimFloat.leb b a = false.
Proof.
  intros H. apply not_true_iff_false. intros H'.
  apply ltb_key in H as (ka & kb & Ha & Hb & L).
  apply leb_key in H' as (kb' & ka' & Hb' & Ha' & L').
  rewrite Ha in Ha'. rewrite Hb in Hb'. simplify_eq. contradiction.
Qed.

Lemma ltb_not_nan_r (a b : float) : PrimFloat.ltb a b = true -> Js.is_nan b = false.
Proof.
  intros H. apply is_nan_key. apply ltb_key in H as (ka & kb & Ha & Hb & L). eauto.
Qed.

Lemma is_nan_eq (a : float) : Js.is_nan a = true -> a = nan.
Proof.
  intros H. apply Prim2SF_inj.
  destruct (key a) as [k|] eqn:E.
  - assert (Js.is_nan a = false) by (apply is_nan_key; eauto). congruence.
  - unfold key, rank in E.
    destruct (Prim2SF a) as [[]| [] | | [] m e]; try discriminate. reflexivity.
Qed.

(** The branch of [accelerate] on [accelSpeed > addSpeed] computes the
    minimum of the two speeds when [addSpeed] is a number. *)
Lemma clamp_is_min (a b : float) :
  Js.is_nan b = false ->
  (if PrimFloat.ltb b a then b else a) = Js.Math_min a b
  \/ (PrimFloat.eqb a 0 = true /\ PrimFloat.eqb b 0 = true).
Proof.
  intros Hb. unfold Js.Math_min. rewrite Hb, orb_false_r.
  destruct (Js.is_nan a) eqn:Ha.
  - left. apply is_nan_eq in Ha. subst a.
    replace (PrimFloat.ltb b nan) with false; [reflexivity |].
    symmetry. apply not_true_iff_false. intros H. apply ltb_not_nan_r in H. discriminate.
  - destruct (PrimFloat.ltb a b) eqn:Hab.
    + left. rewrite (ltb_asym _ _ Hab). reflexivity.
    + destruct (PrimFloat.ltb b a) eqn:Hba; [left; reflexivity |].
      destruct (PrimFloat.eqb a 0) eqn:Ha0; [| left; reflexivity].
      right. split; [reflexivity |].
      apply is_nan_key in Ha as [ka Hka]. apply is_nan_key in Hb as [kb Hkb].
      apply eqb_key in Ha0 as (k0 & Hk0 & Hz).
      apply eqb_key. exists k0. split; [| exact Hz].
      assert (ka = kb); [| congruence].
      destruct (lex_total ka kb) as [L | [E | G]]; [| exact E |].
      * assert (PrimFloat.ltb a b = true) by (apply ltb_key; eauto 6). congruence.
      * assert (PrimFloat.ltb b a = true) by (apply ltb_key; eauto 6). congruence.
Qed.

(* ===================================================================== *)
(** * The movement controller *)
(* ===================================================================== *)

Section Movement.
Import Js Three Player.
Local Open Scope float_scope.

Lemma water_undefined : BLOCKS "water" = JsUndefined.
Proof. reflexivity. Qed.

Lemma floor_hit_iff (b : Z) : floor_hit b = true <-> b <> Block.air.
Proof.
  unfold floor_hit. rewrite water_undefined.
  change (BLOCKS "air") with (JsNum 0). unfold strict_ne, Block.air.
  rewrite andb_true_r, negb_true_iff, Z.eqb_neq. reflexivity.
Qed.

(** A loop with [break] over an integer range stops at the least element
    for which its body finds something. *)
Lemma first_some_range {B} (body : Z -> option B) (n : nat) (s : Z) (b : B) :
  first_some body (seqZ s (Z.of_nat n)) = Some b <->
  exists a, (s <= a < s + Z.of_nat n)%Z /\ body a = Some b /\
            forall a', (s <= a' < a)%Z -> body a' = None.
Proof.
  revert s. induction n as [|n IH]; intros s.
  - simpl. split; [discriminate | intros (a & Ha & _); lia].
  - rewrite Nat2Z.inj_succ, seqZ_cons by lia. cbn [first_some].
    replace (Z.pred (Z.succ (Z.of_nat n))) with (Z.of_nat n) by lia.
    destruct (body s) as [b0|] eqn:E.
    + split.
      * intros [= ->]. exists s. split; [lia |]. split; [exact E |]. intros; lia.
      * intros (a & Ha & Hb & Hlt). destruct (decide (a = s)) as [->|Hne]; [congruence |].
        rewrite Hlt in E by lia. discriminate.
    + rewrite IH. split.
      * intros (a & Ha & Hb & Hlt). exists a. split; [lia |]. split; [exact Hb |].
        intros a' Ha'. destruct (decide (a' = s)) as [->|]; [exact E | apply Hlt; lia].
      * intros (a & Ha & Hb & Hlt). exists a.
        assert (a <> s) by congruence.
        split; [lia |]. split; [exact Hb |]. intros a' Ha'. apply Hlt. lia.
Qed.

Lemma first_some_range_None {B} (body : Z -> option B) (n : nat) (s : Z) :
  first_some body (seqZ s (Z.of_nat n)) = None <->
  forall a, (s <= a < s + Z.of_nat n)%Z -> body a = None.
Proof.
  revert s. induction n as [|n IH]; intros s.
  - simpl. split; [intros; lia | reflexivity].
  - rewrite Nat2Z.inj_succ, seqZ_cons by lia. cbn [first_some].
    replace (Z.pred (Z.succ (Z.of_nat n))) with (Z.of_nat n) by lia.
    destruct (body s) as [b0|] eqn:E.
    + split; [discriminate |]. intros H. rewrite H in E by lia. discriminate.
    + rewrite IH. split.
      * intros H a Ha. destruct (decide (a = s)) as [->|]; [exact E | apply H; lia].
      * intros H a Ha. apply H. lia.
Qed.

Lemma seqZ_of_nat (s len : Z) : seqZ s len = seqZ s (Z.of_nat (Z.to_nat len)).
Proof. unfold seqZ. rewrite Nat2Z.id. reflexivity. Qed.

(** The scan returns the first column, in the order of the loops, whose
    floor cell is not air. *)
Lemma scan_floor_first (w : World) (sx ex sz ez fy x z : Z) :
  scan_floor w sx ex sz ez fy = Some (x, z) <->
  (sx <= x <= ex)%Z /\ (sz <= z <= ez)%Z /\ getBlock w x fy z <> Block.air /\
  forall x' z', (sx <= x' <= ex)%Z -> (sz <= z' <= ez)%Z ->
    (x' < x \/ (x' = x /\ z' < z))%Z -> getBlock w x' fy z' = Block.air.
Proof.
  unfold scan_floor.
  rewrite (seqZ_of_nat sx), (seqZ_of_nat sz).
  rewrite first_some_range.
  assert (Hin : forall a c, (if floor_hit (getBlock w a fy c) then Some (a, c) else None)
                            = Some (x, z) <-> a = x /\ c = z /\ getBlock w a fy c <> Block.air).
  { intros a c. destruct (floor_hit _) eqn:E.
    - apply floor_hit_iff in E. split; [intros [= -> ->]; auto | intros (-> & -> & _); reflexivity].
    - split; [discriminate |]. intros (_ & _ & H). apply floor_hit_iff in H. congruence. }
  assert (Hout : forall a c, (if floor_hit (getBlock w a fy c) then Some (a, c) else None)
                             = None <-> getBlock w a fy c = Block.air).
  { intros a c. destruct (floor_hit _) eqn:E.
    - apply floor_hit_iff in E. split; [discriminate | congruence].
    - split; [| reflexivity]. intros _.
      destruct (decide (getBlock w a fy c = Block.air)) as [|N]; [assumption |].
      apply floor_hit_iff in N. congruence. }
  split.
  - intros (a & Ha & Hb & Hlt). apply first_some_range in Hb as (c & Hc & Hb & Hlt').
    apply Hin in Hb as (-> & -> & Hb).
    split; [lia |]. split; [lia |]. split; [exact Hb |].
    intros x' z' Hx' Hz' [Hl | [-> Hl]].
    + specialize (Hlt x' ltac:(lia)).
      rewrite first_some_range_None in Hlt. apply Hout, Hlt. lia.
    + apply Hout, Hlt'. lia.
  - intros (Hx & Hz & Hb & Hlt). exists x. split; [lia |]. split.
    + apply first_some_range. exists z. split; [lia |]. split.
      * apply Hin. auto.
      * intros c Hc. apply Hout, Hlt; lia.
    + intros a Ha. apply first_some_range_None. intros c Hc. apply Hout, Hlt; lia.
Qed.

Lemma scan_floor_None (w : World) (sx ex sz ez fy : Z) :
  scan_floor w sx ex sz ez fy = None <->
  forall x z, (sx <= x <= ex)%Z -> (sz <= z <= ez)%Z -> getBlock w x fy z = Block.air.
Proof.
  unfold scan_floor.
  rewrite (seqZ_of_nat sx), (seqZ_of_nat sz), first_some_range_None.
  split.
  - intros H x z Hx Hz. specialize (H x ltac:(lia)).
    rewrite first_some_range_None in H. specialize (H z ltac:(lia)).
    destruct (floor_hit _) eqn:E; [discriminate |].
    destruct (decide (getBlock w x fy z = Block.air)) as [|N]; [assumption |].
    apply floor_hit_iff in N. congruence.
  - intros H x Hx. apply first_some_range_None. intros z Hz.
    destruct (floor_hit _) eqn:E; [| reflexivity].
    apply floor_hit_iff in E. exfalso. apply E, H; lia.
Qed.

(** C10. In the Y pass every block that is not air is a floor, glass and
    leaves too: [BLOCKS] has no [water] entry, so the second comparison is
    against [undefined] and holds for every block, and the scan under the
    box finds nothing only when all the probed cells are air. *)
Theorem floor_is_every_non_air_block :
  BLOCKS "water" = JsUndefined /\
  (forall b : Z, strict_ne (JsNum b) (BLOCKS "water") = true) /\
  (forall b : Z, floor_hit b = true <-> b <> Block.air) /\
  floor_hit Block.glass = true /\
  floor_hit Block.leaves = true /\
  (forall w sx ex sz ez fy,
     scan_floor w sx ex sz ez fy = None <->
     forall x z, (sx <= x <= ex)%Z -> (sz <= z <= ez)%Z ->
                 getBlock w x fy z = Block.air).
Proof.
  split; [reflexivity |]. split; [reflexivity |].
  split; [exact floor_hit_iff |].
  split; [reflexivity |]. split; [reflexivity |].
  exact scan_floor_None.
Qed.

End Movement.

Section MovementTick.
Import Js Three Player.
Local Open Scope float_scope.

Lemma ltb_zero_not_eqb (b : float) : (0 <? b) = true -> (b =? 0) = false.
Proof.
  intros H. apply not_true_iff_false. intros E.
  apply ltb_key in H as (k0 & kb & H0 & Hb & L).
  apply eqb_key in E as (k & Hb' & H0').
  rewrite Hb in Hb'. rewrite H0 in H0'. simplify_eq.
  eapply lex_lt_irrefl; eauto.
Qed.

(** C2. With [currentSpeed = velocity . wishDir] and
    [addSpeed = wishSpeed - currentSpeed], [accelerate] changes nothing when
    [addSpeed <= 0] and otherwise adds [wishDir * min(accel * wishSpeed,
    addSpeed)] to the velocity; on the ground, from rest and with
    [wishDir = (1, 0, 0)], friction and acceleration leave the velocity at
    [(0.06, 0, 0)], and the tick ends with these horizontal components. *)
Theorem accelerate_exact (pl : State) (wishDir : Vector3) (wishSpeed accel : float) :
  let currentSpeed := dot (velocity pl) wishDir in
  let addSpeed := wishSpeed - currentSpeed in
  ((addSpeed <=? 0) = true -> accelerate pl wishDir wishSpeed accel = pl) /\
  ((0 <? addSpeed) = true ->
   accelerate pl wishDir wishSpeed accel =
   set_velocity pl
     (add (velocity pl)
          (multiplyScalar wishDir (Math_min (accel * wishSpeed) addSpeed)))) /\
  (forall position : Vector3,
     let rest := mkState position (vec3 0 0 0) true in
     velocity (accelerate (applyFriction rest) (vec3 1 0 0) MAX_SPEED_GROUND ACCEL_GROUND)
     = vec3 0.06 0 0 /\
     vx (velocity (move rest (vec3 1 0 0) false)) = 0.06 /\
     vz (velocity (move rest (vec3 1 0 0) false)) = 0).
Proof.
  intros currentSpeed addSpeed. split; [| split].
  - intros H. unfold accelerate. fold currentSpeed. fold addSpeed. rewrite H. reflexivity.
  - intros H. unfold accelerate. fold currentSpeed. fold addSpeed.
    rewrite (ltb_not_leb _ _ H).
    destruct (clamp_is_min (accel * wishSpeed) addSpeed) as [E | [_ E]].
    + eapply ltb_not_nan_r. exact H.
    + cbv zeta. rewrite E. reflexivity.
    + rewrite (ltb_zero_not_eqb _ H) in E. discriminate.
  - intros position rest. subst rest. repeat split; vm_compute; reflexivity.
Qed.

Lemma accelerate_exact_witness :
  accelerate (mkState (vec3 0 0 0) (vec3 0.5 0 0) true) (vec3 1 0 0) 0.3 0.2
  = mkState (vec3 0 0 0) (vec3 0.5 0 0) true
  /\ accelerate (mkState (vec3 0 0 0) (vec3 0.25 0 0) true) (vec3 1 0 0) 0.3 0.2
     = set_velocity (mkState (vec3 0 0 0) (vec3 0.25 0 0) true)
         (add (vec3 0.25 0 0)
              (multiplyScalar (vec3 1 0 0)
                 (Math_min (0.2 * 0.3) (0.3 - dot (vec3 0.25 0 0) (vec3 1 0 0))))).
Proof.
  split.
  - apply (accelerate_exact (mkState (vec3 0 0 0) (vec3 0.5 0 0) true) (vec3 1 0 0) 0.3 0.2).
    vm_compute. reflexivity.
  - apply (accelerate_exact (mkState (vec3 0 0 0) (vec3 0.25 0 0) true) (vec3 1 0 0) 0.3 0.2).
    vm_compute. reflexivity.
Defined.

(** The X and the Z pass leave [onGround] and the vertical components alone. *)
Lemma collideX_vertical (w : World) (pl : State) (np : Vector3) (r : State * Vector3) :
  collideX w pl np = Some r ->
  onGround r.1 = onGround pl /\ vy (velocity r.1) = vy (velocity pl) /\
  vy (position r.1) = vy (position pl).
Proof.
  unfold collideX. intros H.
  destruct (negb (vx (velocity pl) =? 0)).
  - destruct (setFromCenterAndSize _ _) as [bmin bmax].
    repeat match type of H with
    | context [match bound ?x with _ => _ end] => destruct (bound x); [| discriminate]
    end.
    destruct (scan_wall _ _ _ _); cbn in H; injection H as <-; auto.
  - cbn in H. injection H as <-. auto.
Qed.

Lemma collideZ_vertical (w : World) (pl : State) (np : Vector3) (r : State * Vector3) :
  collideZ w pl np = Some r ->
  onGround r.1 = onGround pl /\ vy (velocity r.1) = vy (velocity pl) /\
  vy (position r.1) = vy (position pl).
Proof.
  unfold collideZ. intros H.
  destruct (negb (vz (velocity pl) =? 0)).
  - destruct (setFromCenterAndSize _ _) as [bmin bmax].
    repeat match type of H with
    | context [match bound ?x with _ => _ end] => destruct (bound x); [| discriminate]
    end.
    destruct (scan_wall _ _ _ _); cbn in H; injection H as <-; auto.
  - cbn in H. injection H as <-. auto.
Qed.

(** What a tick that is not flying leaves in [onGround], [velocity.y] and
    [position.y] is what its Y pass computed. *)
Lemma updatePlayer_vertical (w : World) (pl pl' : State) (keys : Keys)
    (forward right : Vector3) :
  updatePlayer w pl false keys forward right = Some pl' ->
  let moved := move pl (getWishDirection keys forward right) (Space keys) in
  exists r,
    collideY w moved (add (position moved) (velocity moved)) = Some r /\
    onGround pl' = onGround r.1 /\
    vy (velocity pl') = vy (velocity r.1) /\
    vy (position pl') = vy (position r.1).
Proof.
  intros H. cbv zeta. unfold updatePlayer in H.
  destruct (collideY w _ _) as [[p1 n1]|] eqn:EY; [| discriminate].
  cbn [mbind option_bind] in H.
  destruct (collideX w p1 n1) as [[p2 n2]|] eqn:EX; [| discriminate].
  cbn [mbind option_bind] in H.
  destruct (collideZ w p2 n2) as [[p3 n3]|] eqn:EZ; [| discriminate].
  cbn [mbind option_bind] in H. injection H as <-.
  apply collideX_vertical in EX as (X1 & X2 & X3).
  apply collideZ_vertical in EZ as (Z1 & Z2 & Z3).
  cbn [fst] in *. exists (p1, n1). split; [reflexivity |]. cbn [fst].
  repeat split; congruence.
Qed.

(** The Y pass is defined whenever the five bounds are integers below 2^53. *)
Lemma collideY_defined (w : World) (pl : State) (np : Vector3) :
  let '(bmin, bmax) := floor_box pl np in
  is_Some (bound (Math_floor (vy bmin))) ->
  is_Some (bound (Math_floor (vx bmin))) ->
  is_Some (bound (Math_floor (vx bmax))) ->
  is_Some (bound (Math_floor (vz bmin))) ->
  is_Some (bound (Math_floor (vz bmax))) ->
  is_Some (collideY w pl np).
Proof.
  unfold floor_box, collideY. cbn [position velocity onGround].
  destruct (setFromCenterAndSize _ _) as [bmin bmax].
  intros [fy ->] [sx ->] [ex ->] [sz ->] [ez ->].
  destruct (vy (velocity pl) <=? 0); [| eauto].
  destruct (scan_floor w sx ex sz ez fy); eauto.
Qed.

(** C5. The Y pass of a tick that is not flying: it runs only when
    [velocity.y <= 0]; then the first floor cell under the tentative box
    that is not air zeroes [velocity.y], puts [position.y] on top of that
    cell and sets [onGround]; without a hit, and when the pass does not run,
    [onGround] is false after the pass, whatever it was before.  A player
    with feet at [y = 10] over a solid block in [y = 9], falling at [-0.01],
    ends the pass with [velocity.y = 0], [position.y = 10] and [onGround]. *)
Theorem collideY_pass (w : World) (pl : State) (np : Vector3) :
  let px := vx (position pl) in
  let pz := vz (position pl) in
  let v := velocity pl in
  let box := floor_box pl np in
  let feetY := Math_floor (vy box.1) in
  ((vy v <=? 0) = false ->
     collideY w pl np = Some (mkState (vec3 px (vy np) pz) v false, np)) /\
  ((vy v <=? 0) = true ->
     forall fy sx ex sz ez,
       bound feetY = Some fy ->
       bound (Math_floor (vx box.1)) = Some sx ->
       bound (Math_floor (vx box.2)) = Some ex ->
       bound (Math_floor (vz box.1)) = Some sz ->
       bound (Math_floor (vz box.2)) = Some ez ->
       (forall x z,
          scan_floor w sx ex sz ez fy = Some (x, z) ->
          getBlock w x fy z <> Block.air /\
          collideY w pl np =
          Some (mkState (vec3 px (feetY + 1) pz) (vec3 (vx v) 0 (vz v)) true,
                vec3 (vx np) (feetY + 1) (vz np))) /\
       ((forall x z, (sx <= x <= ex)%Z -> (sz <= z <= ez)%Z ->
                     getBlock w x fy z = Block.air) ->
        collideY w pl np = Some (mkState (vec3 px (vy np) pz) v false, np))) /\
  (forall w' og,
     getBlock w' 0 9 0 <> Block.air ->
     collideY w' (mkState (vec3 0.5 10 0.5) (vec3 0 (-0.01) 0) og)
                 (add (vec3 0.5 10 0.5) (vec3 0 (-0.01) 0))
     = Some (mkState (vec3 0.5 10 0.5) (vec3 0 0 0) true, vec3 0.5 10 0.5)) /\
  (forall before after keys forward right,
     updatePlayer w before false keys forward right = Some after ->
     let moved := move before (getWishDirection keys forward right) (Space keys) in
     exists r,
       collideY w moved (add (position moved) (velocity moved)) = Some r /\
       onGround after = onGround r.1 /\
       vy (velocity after) = vy (velocity r.1) /\
       vy (position after) = vy (position r.1)).
Proof.
  intros px pz v box feetY. subst px pz v box feetY.
  split; [| split; [| split]];
    [| | | intros before after keys forward right; apply updatePlayer_vertical].
  1, 2: unfold collideY, floor_box; cbn [position velocity onGround];
    destruct (setFromCenterAndSize _ _) as [bmin bmax] eqn:Ebox; cbn [fst snd].
  - intros Hv. rewrite Hv. reflexivity.
  - intros Hv fy sx ex sz ez -> -> -> -> ->. rewrite Hv. split.
    + intros x z Es. rewrite Es. split; [| reflexivity].
      apply scan_floor_first in Es. tauto.
    + intros Hair. apply scan_floor_None in Hair. rewrite Hair. reflexivity.
  - intros w' og Hb. unfold collideY. cbn [position velocity onGround vx vy vz add].
    replace (-0.01 <=? 0) with true by (vm_compute; reflexivity).
    replace (setFromCenterAndSize (vec3 0.5 (10 + -0.01 + height / 2) 0.5)
               (vec3 width height width))
      with (vec3 0.2 9.99 0.2, vec3 0.8 11.790000000000001 0.8)
      by (vm_compute; reflexivity).
    cbn [vx vy vz].
    replace (bound (Math_floor 9.99)) with (Some 9%Z) by (vm_compute; reflexivity).
    replace (bound (Math_floor 0.2)) with (Some 0%Z) by (vm_compute; reflexivity).
    replace (bound (Math_floor 0.8)) with (Some 0%Z) by (vm_compute; reflexivity).
    apply floor_hit_iff in Hb.
    unfold scan_floor.
    replace (seqZ 0 (0 - 0 + 1)) with [0%Z] by reflexivity.
    cbn [first_some]. rewrite Hb. cbn [mbind option_bind vx vy vz position velocity onGround].
    replace (Math_floor 9.99 + 1) with 10 by (vm_compute; reflexivity).
    replace (0.5 + 0) with 0.5 by (vm_compute; reflexivity).
    reflexivity.
Qed.

(** The scenario of C5 in a world of one stone block. *)
Example standing_player_lands :
  collideY one_block_world standing_player
           (add (position standing_player) (velocity standing_player))
  = Some (mkState (vec3 0.5 10 0.5) (vec3 0 0 0) true, vec3 0.5 10 0.5).
Proof. vm_compute. reflexivity. Qed.

End MovementTick.

(* ===================================================================== *)
(** * The noise and the generator *)
(* ===================================================================== *)

(** C7. The sample function is documented to stay in [-1, 1]; with the
    table of seed 0 the sample at (2.5, 0.5) is 1.5. *)
Theorem perlin2D_leaves_unit_interval :
  Perlin.perlin2D (Perlin.permutation 0) 2.5 0.5 = 1.5%float /\
  PrimFloat.leb (Perlin.perlin2D (Perlin.permutation 0) 2.5 0.5) 1 = false.
Proof. split; vm_compute; reflexivity. Qed.

(** C6, as stated, fails: with the same seed and the same chunk coordinate,
    two runs that see different values of [Math.random] build different
    grids (a tree stands on the first column in one of them). *)
Lemma generateChunk_not_a_function_of_seed :
  grid_of (generateChunk (fresh_world 0 (fun _ => 0%float)) 0 0) 0 0
  <> grid_of (generateChunk (fresh_world 0 (fun _ => 0.5%float)) 0 0) 0 0.
Proof.
  assert (E1 : grid_of (generateChunk (fresh_world 0 (fun _ => 0%float)) 0 0) 0 0
               ≫= (fun l => TypedArray.get l (block_index 0 33 0)) = Some Block.logs)
    by (vm_compute; reflexivity).
  assert (E2 : grid_of (generateChunk (fresh_world 0 (fun _ => 0.5%float)) 0 0) 0 0
               ≫= (fun l => TypedArray.get l (block_index 0 33 0)) = Some Block.air)
    by (vm_compute; reflexivity).
  intros H.
  pose proof (eq_trans (eq_sym E1)
    (eq_trans (f_equal (fun g : option TypedArray.Uint8Array =>
                          g ≫= (fun l => TypedArray.get l (block_index 0 33 0))) H) E2)) as C.
  clear -C.
  discriminate C.
Qed.

Section GenDraws.
Import Gen.

Lemma same_state_refl s : same_state s s.
Proof. split; reflexivity. Qed.

Lemma respects_ret {A} (a : A) : respects_draws (ret a).
Proof. intros s1 s2 H. split; [reflexivity | exact H]. Qed.

Lemma respects_bind {A B} (m : M A) (k : A -> M B) :
  respects_draws m -> (forall a, respects_draws (k a)) -> respects_draws (bind m k).
Proof.
  intros Hm Hk s1 s2 H. unfold bind. destruct (Hm s1 s2 H) as [Ea Es].
  destruct (m s1) as [a1 s1'], (m s2) as [a2 s2']. simpl in Ea, Es. subst a2.
  apply Hk. exact Es.
Qed.

Lemma respects_random : respects_draws random.
Proof.
  intros s1 s2 [Hg Hd]. unfold random, Js.Math_random. simpl.
  split; [apply Hd |]. split; [exact Hg |]. intros n. apply Hd.
Qed.

Lemma respects_read i : respects_draws (read i).
Proof.
  intros s1 s2 [Hg Hd]. unfold read. simpl. rewrite Hg.
  split; [reflexivity |]. split; assumption.
Qed.

Lemma respects_write i v : respects_draws (write i v).
Proof.
  intros s1 s2 [Hg Hd]. unfold write. simpl. rewrite Hg.
  split; [reflexivity |]. split; [reflexivity | exact Hd].
Qed.

Lemma respects_when b m : respects_draws m -> respects_draws (when b m).
Proof. intros H. destruct b; [exact H | apply respects_ret]. Qed.

Lemma respects_for_each {A} (l : list A) body :
  (forall a, respects_draws (body a)) -> respects_draws (for_each l body).
Proof.
  intros H. induction l as [|a l IH]; simpl.
  - apply respects_ret.
  - apply respects_bind; [apply H | intros _; exact IH].
Qed.

Lemma respects_for_to lo hi body :
  (forall a, respects_draws (body a)) -> respects_draws (for_to lo hi body).
Proof. apply respects_for_each. Qed.

Ltac respects known :=
  repeat lazymatch goal with
  | |- respects_draws (ret _) => apply respects_ret
  | |- respects_draws random => apply respects_random
  | |- respects_draws (read _) => apply respects_read
  | |- respects_draws (write _ _) => apply respects_write
  | |- respects_draws (when _ _) => apply respects_when
  | |- respects_draws (for_to _ _ _) => apply respects_for_to; intros ?
  | |- respects_draws (bind _ _) => apply respects_bind; [| intros ?]
  | |- respects_draws (if ?b then _ else _) => destruct b
  | |- respects_draws (match ?x with _ => _ end) => destruct x
  | |- respects_draws (let _ := _ in _) => cbv zeta
  | |- _ => known
  end.

Lemma respects_leaf i q : respects_draws (leaf i q).
Proof. unfold leaf. respects fail. Qed.

Lemma respects_trunk x y z h : respects_draws (trunk x y z h).
Proof. unfold trunk. respects fail. Qed.

Lemma respects_generateTree x y z : respects_draws (generateTree x y z).
Proof.
  unfold generateTree, generateOakTree, generateTallTree, generateLargeTree.
  respects ltac:(first [apply respects_trunk | apply respects_leaf]).
Qed.

Lemma respects_fill p cx cz : respects_draws (fill p cx cz).
Proof. unfold fill, column. respects ltac:(apply respects_generateTree). Qed.

End GenDraws.

Lemma generateChunk_stored (w : World) (cx cz : Z) (c : Chunk) :
  chunks w !! (cx, cz) = Some c -> generateChunk w cx cz = w.
Proof. intros H. unfold generateChunk. rewrite H. reflexivity. Qed.

(** C6, amended. The grid that [generateChunk] builds is a function of the
    permutation table (the seed), the chunk coordinate and the values that
    [Math.random] returns during the run: two runs with the same table,
    coordinate and draws build the same grid; and generating a coordinate
    that is already stored changes nothing. *)
Theorem generateChunk_function_of_draws
    (p : TypedArray.Uint8Array) (cs1 cs2 : gmap (Z * Z) Chunk) (r1 r2 : Js.Rand) (cx cz : Z) :
  cs1 !! (cx, cz) = None -> cs2 !! (cx, cz) = None ->
  (forall n, r1 n = r2 n) ->
  grid_of (generateChunk (mkWorld cs1 p r1) cx cz) cx cz
  = grid_of (generateChunk (mkWorld cs2 p r2) cx cz) cx cz
  /\ generateChunk (generateChunk (mkWorld cs1 p r1) cx cz) cx cz
     = generateChunk (mkWorld cs1 p r1) cx cz.
Proof.
  intros H1 H2 Hr. split.
  - unfold grid_of, generateChunk. cbn [chunks perm rand]. rewrite H1, H2.
    set (e := TypedArray.new _).
    destruct (respects_fill p cx cz (Gen.mkState e r1) (Gen.mkState e r2)) as [_ [Hg _]].
    { split; [reflexivity | exact Hr]. }
    destruct (Gen.fill p cx cz (Gen.mkState e r1)) as [u1 s1].
    destruct (Gen.fill p cx cz (Gen.mkState e r2)) as [u2 s2].
    cbn [chunks snd] in *. rewrite !lookup_insert_eq. cbn. rewrite Hg. reflexivity.
  - destruct (chunks (generateChunk (mkWorld cs1 p r1) cx cz) !! (cx, cz)) as [c|] eqn:E.
    + eapply generateChunk_stored. exact E.
    + exfalso. unfold generateChunk in E. cbn [chunks perm rand] in E. rewrite H1 in E.
      destruct (Gen.fill _ _ _ _) as [u s]. cbn [chunks] in E.
      rewrite lookup_insert_eq in E. discriminate.
Qed.

Lemma generateChunk_function_of_draws_witness :
  grid_of (generateChunk (mkWorld ∅ (Perlin.permutation 0) (fun _ => 0.5%float)) 0 0) 0 0
  = grid_of (generateChunk (mkWorld ∅ (Perlin.permutation 0) (fun n => Js.of_Z 1 / 2)%float) 0 0) 0 0
  /\ generateChunk (generateChunk (mkWorld ∅ (Perlin.permutation 0) (fun _ => 0.5%float)) 0 0) 0 0
     = generateChunk (mkWorld ∅ (Perlin.permutation 0) (fun _ => 0.5%float)) 0 0.
Proof.
  apply (generateChunk_function_of_draws (Perlin.permutation 0) ∅ ∅
           (fun _ => 0.5%float) (fun n => Js.of_Z 1 / 2)%float 0 0).
  - reflexivity.
  - reflexivity.
  - intros n. vm_compute. reflexivity.
Defined.

(* ===================================================================== *)
(** * The voxel pick *)
(* ===================================================================== *)

Section VoxelPick.
Import Js Three Pick.
Local Open Scope float_scope.

Lemma first_some_None {A B} (body : A -> option B) (l : list A) :
  first_some body l = None <-> forall a, a ∈ l -> body a = None.
Proof.
  induction l as [|a l IH]; simpl.
  - split; [intros _ a H; inversion H | reflexivity].
  - destruct (body a) eqn:E.
    + split; [discriminate |]. intros H. rewrite H in E by left. discriminate.
    + rewrite IH. split.
      * intros H a' Ha'. apply elem_of_cons in Ha' as [->|Ha']; auto.
      * intros H a' Ha'. apply H. right. exact Ha'.
Qed.

Lemma first_some_Some {A B} (body : A -> option B) (l : list A) (b : B) :
  first_some body l = Some b <->
  exists before a after,
    l = before ++ a :: after /\ (forall a', a' ∈ before -> body a' = None) /\
    body a = Some b.
Proof.
  induction l as [|a l IH]; simpl.
  - split; [discriminate |]. intros (before & a & after & H & _).
    destruct before; discriminate.
  - destruct (body a) as [b0|] eqn:E.
    + split.
      * intros [= ->]. exists [], a, l. split; [reflexivity |].
        split; [intros a' H; inversion H | exact E].
      * intros (before & a0 & after & Hl & Hb & Ha0).
        destruct before as [|a1 before]; simpl in Hl; injection Hl as -> ->.
        -- congruence.
        -- rewrite Hb in E by left. discriminate.
    + rewrite IH. split.
      * intros (before & a0 & after & -> & Hb & Ha0).
        exists (a :: before), a0, after. split; [reflexivity |]. split; [| exact Ha0].
        intros a' Ha'. apply elem_of_cons in Ha' as [->|Ha']; auto.
      * intros (before & a0 & after & Hl & Hb & Ha0).
        destruct before as [|a1 before]; simpl in Hl; injection Hl as -> ->.
        -- congruence.
        -- exists before, a0, after. split; [reflexivity |]. split; [| exact Ha0].
           intros a' Ha'. apply Hb. right. exact Ha'.
Qed.

(** While the counter stays below 10 for [n] rounds and is not below 10
    after them, the loop makes exactly these [n] rounds, whatever fuel is
    left over. *)
Lemma march_ticks (w : World) (ray : Ray) (n k : nat) (t : float) :
  forallb (fun t => t <? 10) (ticks n t) = true ->
  (tick_after n t <? 10) = false ->
  march (n + k) w ray t = first_some (probe w ray) (ticks n t).
Proof.
  revert t. induction n as [|n IH]; intros t Hin Hout; simpl in *.
  - destruct k; simpl; [reflexivity | rewrite Hout; reflexivity].
  - apply andb_true_iff in Hin as [Ht Hin]. rewrite Ht.
    destruct (probe w ray t); [reflexivity |]. apply IH; assumption.
Qed.

Lemma params_ticks (n k : nat) (t : float) :
  forallb (fun t => t <? 10) (ticks n t) = true ->
  (tick_after n t <? 10) = false ->
  params (n + k) t = ticks n t.
Proof.
  revert t. induction n as [|n IH]; intros t Hin Hout; simpl in *.
  - destruct k; simpl; [reflexivity | rewrite Hout; reflexivity].
  - apply andb_true_iff in Hin as [Ht Hin]. rewrite Ht. f_equal. apply IH; assumption.
Qed.

Lemma steps_in_range : forallb (fun t => t <? 10) (ticks steps 0) = true.
Proof. vm_compute. reflexivity. Qed.

Lemma steps_leave : (tick_after steps 0 <? 10) = false.
Proof. vm_compute. reflexivity. Qed.

Lemma probe_None (w : World) (ray : Ray) (t : float) :
  probe w ray t = None <-> sample_block w ray t = Block.air.
Proof.
  unfold probe, sample_block.
  destruct (Z.eqb_spec (block_at w (floor (at_ ray t))) Block.air) as [E|E]; simpl.
  - split; [intros _; exact E | reflexivity].
  - split; [discriminate | contradiction].
Qed.

Lemma probe_Some (w : World) (ray : Ray) (t : float) (hit : Hit) :
  probe w ray t = Some hit <->
  sample_block w ray t <> Block.air /\
  hit = mkHit (floor (at_ ray t)) (pick_normal (sample_diff ray t)).
Proof.
  unfold probe, sample_block, sample_diff.
  destruct (Z.eqb_spec (block_at w (floor (at_ ray t))) Block.air) as [E|E]; simpl.
  - split; [discriminate | intros [H _]; contradiction].
  - split; [intros [= <-]; auto | intros [_ ->]; reflexivity].
Qed.

Lemma ltb_trans (a b c : float) : (a <? b) = true -> (b <? c) = true -> (a <? c) = true.
Proof.
  intros H1 H2.
  apply ltb_key in H1 as (ka & kb & Ha & Hb & L1).
  apply ltb_key in H2 as (kb' & kc & Hb' & Hc & L2).
  rewrite Hb in Hb'. simplify_eq.
  apply ltb_key. exists ka, kc. eauto using lex_lt_trans.
Qed.

(** Among numbers, what is not below is at least. *)
Lemma ltb_false_le_trans (a b c : float) :
  is_nan b = false -> (b <? c) = false -> (a <? c) = true -> (a <? b) = true.
Proof.
  intros Hb Hbc Hac.
  apply is_nan_key in Hb as [kb Hb].
  apply ltb_key in Hac as (ka & kc & Ha & Hc & L).
  apply ltb_key. exists ka, kb. split; [exact Ha |]. split; [exact Hb |].
  destruct (lex_total kb kc) as [L' | [-> | L']].
  - assert ((b <? c) = true) by (apply ltb_key; eauto 6). congruence.
  - exact L.
  - eapply lex_lt_trans; eassumption.
Qed.

(** The normal lies along one axis, with the sign against the component of
    [diff] on that axis; the components on the later axes of the chain are
    strictly smaller in magnitude, and those on the earlier axes are not
    larger (when the [y] component is a number). *)
Lemma pick_normal_dominant (d : Vector3) :
  exists axis : nat,
    (axis < 3)%nat /\
    pick_normal d = along axis (if 0 <? component d axis then -1 else 1) /\
    (forall b, (axis < b < 3)%nat ->
       (abs (component d b) <? abs (component d axis)) = true) /\
    (is_nan (abs (vy d)) = false ->
     forall b, (b < axis)%nat ->
       (abs (component d axis) <? abs (component d b)) = false).
Proof.
  unfold pick_normal.
  destruct (abs (vy d) <? abs (vx d)) eqn:Hyx;
    [destruct (abs (vz d) <? abs (vx d)) eqn:Hzx |]; simpl.
  - exists 0%nat. split; [lia |]. split; [reflexivity |]. split.
    + intros b Hb. destruct b as [|[|[|b]]]; try lia; assumption.
    + intros _ b Hb. lia.
  - destruct (abs (vz d) <? abs (vy d)) eqn:Hzy.
    + exists 1%nat. split; [lia |]. split; [reflexivity |]. split.
      * intros b Hb. destruct b as [|[|[|b]]]; try lia; assumption.
      * intros _ b Hb. destruct b as [|b]; [| lia]. simpl.
        (* |dz| < |dy| < |dx| *)
        pose proof (ltb_trans _ _ _ Hzy Hyx) as C. congruence.
    + exists 2%nat. split; [lia |]. split; [reflexivity |]. split.
      * intros b Hb. lia.
      * intros _ b Hb. destruct b as [|[|b]]; [| | lia]; simpl; assumption.
  - destruct (abs (vz d) <? abs (vy d)) eqn:Hzy.
    + exists 1%nat. split; [lia |]. split; [reflexivity |]. split.
      * intros b Hb. destruct b as [|[|[|b]]]; try lia; assumption.
      * intros _ b Hb. destruct b as [|b]; [| lia]. simpl.
        exact Hyx.
    + exists 2%nat. split; [lia |]. split; [reflexivity |]. split.
      * intros b Hb. lia.
      * intros Hny b Hb. destruct b as [|[|b]]; [| | lia]; simpl; [| assumption].
        apply not_true_iff_false. intros H.
        pose proof (ltb_false_le_trans _ _ _ Hny Hyx H) as C. congruence.
Qed.

(** C8, as stated, fails: the chain of comparisons is strict, so a tie
    does not go to x before y before z.  For a level ray half way between
    x and z the components of the difference along x and z are equal and
    larger than the one along y, and the normal of the hit lies along z,
    not along x. *)
Lemma getVoxelIntersection_tie_goes_to_z :
  (abs (vx (sample_diff diagonal_ray 0)) =? abs (vz (sample_diff diagonal_ray 0))) = true /\
  (abs (vy (sample_diff diagonal_ray 0)) <? abs (vx (sample_diff diagonal_ray 0))) = true /\
  getVoxelIntersection one_block_world diagonal_ray
  = Some (mkHit (vec3 0 9 0) (vec3 0 0 (-1))) /\
  getVoxelIntersection one_block_world diagonal_ray
  <> Some (mkHit (vec3 0 9 0) (vec3 (-1) 0 0)).
Proof.
  assert (E : getVoxelIntersection one_block_world diagonal_ray
              = Some (mkHit (vec3 0 9 0) (vec3 0 0 (-1)))) by (vm_compute; reflexivity).
  split; [vm_compute; reflexivity |]. split; [vm_compute; reflexivity |].
  split; [exact E |]. rewrite E. intros H.
  apply (f_equal (fun o => match o with
                           | Some h => vx (hit_normal h) =? 0
                           | None => false
                           end)) in H.
  vm_compute in H. discriminate H.
Qed.

(** C8. The pick visits the samples of the ray at the parameters
    [0, 0.1, 0.1 + 0.1, ...], 101 of them, the last one just below 10.  It
    returns nothing exactly when every sample lies in an air block;
    otherwise it returns the floored coordinate of the first sample that
    does not, with a normal along one axis, with the sign against the
    component of the difference of the sample and the previous one on that
    axis.  The axis is the one of the dominant component, and a tie goes to
    the later axis of the chain of comparisons: x is taken only when its
    component is strictly larger in magnitude than those of y and z,
    otherwise y only when strictly larger than z, otherwise z. *)
Theorem getVoxelIntersection_first_hit (w : World) (ray : Ray) :
  let samples := ticks steps 0 in
  (forall k, params (steps + k) 0 = samples) /\
  (forall k, march (steps + k) w ray 0 = getVoxelIntersection w ray) /\
  (List.length samples = 101%nat /\ head samples = Some 0 /\
   last samples = Some 9.99999999999998 /\
   forall t, t ∈ samples -> (t <? 10) = true) /\
  (getVoxelIntersection w ray = None <->
   forall t, t ∈ samples -> sample_block w ray t = Block.air) /\
  (forall hit,
     getVoxelIntersection w ray = Some hit <->
     exists before t after,
       samples = before ++ t :: after /\
       (forall t', t' ∈ before -> sample_block w ray t' = Block.air) /\
       sample_block w ray t <> Block.air /\
       hit = mkHit (floor (at_ ray t)) (pick_normal (sample_diff ray t))) /\
  (forall d : Vector3,
     exists axis : nat,
       (axis < 3)%nat /\
       pick_normal d = along axis (if 0 <? component d axis then -1 else 1) /\
       (forall b, (axis < b < 3)%nat ->
          (abs (component d b) <? abs (component d axis)) = true) /\
       (is_nan (abs (vy d)) = false ->
        forall b, (b < axis)%nat ->
          (abs (component d axis) <? abs (component d b)) = false)).
Proof.
  intros samples. subst samples.
  assert (Hm : forall k, march (steps + k) w ray 0
                         = first_some (probe w ray) (ticks steps 0)).
  { intros k. apply march_ticks; [exact steps_in_range | exact steps_leave]. }
  assert (Hg : getVoxelIntersection w ray = first_some (probe w ray) (ticks steps 0)).
  { unfold getVoxelIntersection. rewrite <- (Hm 0%nat). f_equal. }
  split; [| split; [| split; [| split; [| split]]]].
  - intros k. apply params_ticks; [exact steps_in_range | exact steps_leave].
  - intros k. rewrite Hm, Hg. reflexivity.
  - split; [reflexivity |]. split; [reflexivity |]. split; [vm_compute; reflexivity |].
    intros t Ht. pose proof steps_in_range as H.
    rewrite forallb_forall in H. apply H. apply list_elem_of_In. exact Ht.
  - rewrite Hg, first_some_None. split; intros H t Ht; apply probe_None, H, Ht.
  - intros hit. rewrite Hg, first_some_Some. split.
    + intros (before & t & after & Hl & Hb & Ht). exists before, t, after.
      split; [exact Hl |]. apply probe_Some in Ht as [Hne ->].
      split; [| split; [exact Hne | reflexivity]].
      intros t' Ht'. apply probe_None, Hb, Ht'.
    + intros (before & t & after & Hl & Hb & Hne & ->). exists before, t, after.
      split; [exact Hl |]. split; [| apply probe_Some; auto].
      intros t' Ht'. apply probe_None, Hb, Ht'.
  - exact pick_normal_dominant.
Qed.

End VoxelPick.

(* ===================================================================== *)
(** * The greedy mesher: the scan of one plane *)
(* ===================================================================== *)

Section PlaneScan.
Import Mesher.

Lemma elem_of_rect (i j w h a b : nat) :
  (a, b) ∈ rect i j w h <-> (i <= a < i + w)%nat /\ (j <= b < j + h)%nat.
Proof.
  unfold rect. rewrite list_elem_of_bind. split.
  - intros (b' & H & Hb). apply list_elem_of_bind in H as (a' & H & Ha).
    apply list_elem_of_singleton in H. injection H as -> ->.
    apply elem_of_seq in Ha, Hb. lia.
  - intros [Ha Hb]. exists b. split; [| apply elem_of_seq; lia].
    apply list_elem_of_bind. exists a. split; [| apply elem_of_seq; lia].
    apply list_elem_of_singleton. reflexivity.
Qed.

Lemma NoDup_rect (i j w h : nat) : NoDup (rect i j w h).
Proof.
  unfold rect. apply NoDup_bind.
  - intros b1 b2 c _ _ H1 H2.
    apply list_elem_of_bind in H1 as (a1 & H1 & _), H2 as (a2 & H2 & _).
    apply list_elem_of_singleton in H1, H2. congruence.
  - intros b _. apply NoDup_bind.
    + intros a1 a2 c _ _ H1 H2. apply list_elem_of_singleton in H1, H2. congruence.
    + intros a _. apply NoDup_singleton.
    + apply NoDup_seq.
  - apply NoDup_seq.
Qed.

(** The width loop: the cells that it has accepted hold [cur], and it stays
    in the row. *)
Lemma grow_w_spec (fuel : nat) (mask : list Z) (cur : option Z) (du i n w : nat) :
  (forall k, (k < w)%nat -> mask !! (n + k)%nat = cur) -> (i + w <= du)%nat ->
  let w' := grow_w fuel mask cur du i n w in
  (w <= w')%nat /\ (i + w' <= du)%nat /\
  forall k, (k < w')%nat -> mask !! (n + k)%nat = cur.
Proof.
  revert w. induction fuel as [|fuel IH]; intros w Hc Hw; simpl.
  - auto.
  - destruct (Nat.ltb_spec (i + w) du) as [Hlt|Hge]; simpl; [| auto].
    destruct (bool_decide_reflect (mask !! (n + w)%nat = cur)) as [E|E]; [| auto].
    destruct (IH (S w)) as (H1 & H2 & H3).
    + intros k Hk. destruct (decide (k = w)) as [->|]; [exact E | apply Hc; lia].
    + lia.
    + split; [lia |]. auto.
Qed.

(** With enough fuel the width loop stops at the end of the row or at a
    cell that differs. *)
Lemma grow_w_maximal (fuel : nat) (mask : list Z) (cur : option Z) (du i n w : nat) :
  (du - (i + w) <= fuel)%nat ->
  let w' := grow_w fuel mask cur du i n w in
  (du <= i + w')%nat \/ mask !! (n + w')%nat <> cur.
Proof.
  revert w. induction fuel as [|fuel IH]; intros w Hf; simpl.
  - left. lia.
  - destruct (Nat.ltb_spec (i + w) du) as [Hlt|Hge]; simpl; [| left; lia].
    destruct (bool_decide_reflect (mask !! (n + w)%nat = cur)) as [E|E]; [| right; exact E].
    apply IH. lia.
Qed.

Lemma row_matches_spec (mask : list Z) (cur : option Z) (du n w h : nat) :
  row_matches mask cur du n w h = true <->
  forall k, (k < w)%nat -> mask !! (n + k + h * du)%nat = cur.
Proof.
  unfold row_matches. rewrite forallb_forall. split.
  - intros H k Hk. specialize (H k). rewrite bool_decide_eq_true in H.
    apply H. apply in_seq. lia.
  - intros H k Hk. apply bool_decide_eq_true. apply H. apply in_seq in Hk. lia.
Qed.

Lemma grow_h_spec (fuel : nat) (mask : list Z) (cur : option Z) (du dv j n w h : nat) :
  (forall l k, (l < h)%nat -> (k < w)%nat -> mask !! (n + k + l * du)%nat = cur) ->
  (j + h <= dv)%nat ->
  let h' := grow_h fuel mask cur du dv j n w h in
  (h <= h')%nat /\ (j + h' <= dv)%nat /\
  forall l k, (l < h')%nat -> (k < w)%nat -> mask !! (n + k + l * du)%nat = cur.
Proof.
  revert h. induction fuel as [|fuel IH]; intros h Hc Hh; simpl.
  - auto.
  - destruct (Nat.ltb_spec (j + h) dv) as [Hlt|Hge]; simpl; [| auto].
    destruct (row_matches mask cur du n w h) eqn:E; [| auto].
    rewrite row_matches_spec in E.
    destruct (IH (S h)) as (H1 & H2 & H3).
    + intros l k Hl Hk. destruct (decide (l = h)) as [->|]; [apply E; lia | apply Hc; lia].
    + lia.
    + split; [lia |]. auto.
Qed.

Lemma grow_h_maximal (fuel : nat) (mask : list Z) (cur : option Z) (du dv j n w h : nat) :
  (dv - (j + h) <= fuel)%nat ->
  let h' := grow_h fuel mask cur du dv j n w h in
  (dv <= j + h')%nat \/ row_matches mask cur du n w h' = false.
Proof.
  revert h. induction fuel as [|fuel IH]; intros h Hf; simpl.
  - left. lia.
  - destruct (Nat.ltb_spec (j + h) dv) as [Hlt|Hge]; simpl; [| left; lia].
    destruct (row_matches mask cur du n w h) eqn:E; [| right; exact E].
    apply IH. lia.
Qed.

(** Writes of 0 at a list of positions. *)
Lemma zero_all_length (ps : list nat) (m : list Z) :
  length (foldl (fun m p => <[p := 0]> m) m ps) = length m.
Proof.
  revert m. induction ps as [|p ps IH]; intros m; simpl; [reflexivity |].
  rewrite IH. apply length_insert.
Qed.

Lemma zero_all_in (ps : list nat) (m : list Z) (p : nat) :
  p ∈ ps -> (p < length m)%nat ->
  foldl (fun m p => <[p := 0]> m) m ps !! p = Some 0.
Proof.
  revert m. induction ps as [|p' ps IH]; intros m Hin Hlen; simpl.
  - inversion Hin.
  - destruct (decide (p ∈ ps)) as [Hps|Hps].
    + apply IH; [exact Hps | rewrite length_insert; exact Hlen].
    + apply elem_of_cons in Hin as [->|Hin]; [| contradiction].
      clear IH. revert m Hlen. induction ps as [|q ps IH]; intros m Hlen; simpl.
      * apply list_lookup_insert_eq. exact Hlen.
      * apply not_elem_of_cons in Hps as [Hne Hps].
        rewrite list_insert_insert_ne by congruence. (* commute *)
        apply IH; [exact Hps | rewrite length_insert; exact Hlen].
Qed.

Lemma zero_all_out (ps : list nat) (m : list Z) (p : nat) :
  p ∉ ps -> foldl (fun m p => <[p := 0]> m) m ps !! p = m !! p.
Proof.
  revert m. induction ps as [|p' ps IH]; intros m Hin; simpl; [reflexivity |].
  apply not_elem_of_cons in Hin as [Hne Hin].
  rewrite IH by exact Hin. apply list_lookup_insert_ne. congruence.
Qed.

Lemma foldl_bind {A B C} (f : A -> C -> A) (g : B -> list C) (l : list B) (a : A) :
  foldl f a (l ≫= g) = foldl (fun a x => foldl f a (g x)) a l.
Proof.
  revert a. induction l as [|x l IH]; intros a; [reflexivity |].
  csimpl. rewrite foldl_app. apply IH.
Qed.

Lemma foldl_fun_ext {A B} (f g : A -> B -> A) (l : list B) (a : A) :
  (forall a x, f a x = g a x) -> foldl f a l = foldl g a l.
Proof.
  intros H. revert a. induction l as [|x l IH]; intros a; simpl; [reflexivity |].
  rewrite H. apply IH.
Qed.

(** The positions that [clear_rect] writes. *)
Lemma clear_rect_positions (mask : list Z) (du n w h : nat) :
  clear_rect mask du n w h =
  foldl (fun m p => <[p := 0]> m) mask
        (l ← seq 0 h; k ← seq 0 w; [(n + k + l * du)%nat]).
Proof.
  unfold clear_rect. rewrite foldl_bind. apply foldl_fun_ext.
  intros m l. rewrite foldl_bind. reflexivity.
Qed.

Lemma elem_of_clear_positions (du n w h p : nat) :
  p ∈ (l ← seq 0 h; k ← seq 0 w; [(n + k + l * du)%nat])
  <-> exists l k, (l < h)%nat /\ (k < w)%nat /\ p = (n + k + l * du)%nat.
Proof.
  rewrite list_elem_of_bind. split.
  - intros (l & H & Hl). apply list_elem_of_bind in H as (k & H & Hk).
    apply list_elem_of_singleton in H. apply elem_of_seq in Hl, Hk.
    exists l, k. repeat split; [lia | lia | exact H].
  - intros (l & k & Hl & Hk & ->). exists l. split; [| apply elem_of_seq; lia].
    apply list_elem_of_bind. exists k. split; [| apply elem_of_seq; lia].
    apply list_elem_of_singleton. reflexivity.
Qed.

Lemma clear_rect_length (mask : list Z) (du n w h : nat) :
  length (clear_rect mask du n w h) = length mask.
Proof. rewrite clear_rect_positions. apply zero_all_length. Qed.

Lemma clear_rect_in (mask : list Z) (du n w h l k : nat) :
  (l < h)%nat -> (k < w)%nat -> (n + k + l * du < length mask)%nat ->
  clear_rect mask du n w h !! (n + k + l * du)%nat = Some 0.
Proof.
  intros Hl Hk Hlen. rewrite clear_rect_positions. apply zero_all_in; [| exact Hlen].
  apply elem_of_clear_positions. eauto.
Qed.

Lemma clear_rect_out (mask : list Z) (du n w h p : nat) :
  (forall l k, (l < h)%nat -> (k < w)%nat -> p <> (n + k + l * du)%nat) ->
  clear_rect mask du n w h !! p = mask !! p.
Proof.
  intros H. rewrite clear_rect_positions. apply zero_all_out.
  rewrite elem_of_clear_positions. intros (l & k & Hl & Hk & ->). eapply H; eauto.
Qed.

(** A cell that [clear_rect] leaves different from 0 was so before. *)
Lemma clear_rect_zero (mask : list Z) (du n w h p : nat) :
  mask !! p = Some 0 -> clear_rect mask du n w h !! p = Some 0.
Proof.
  intros H.
  destruct (decide (p ∈ (l ← seq 0 h; k ← seq 0 w; [(n + k + l * du)%nat]))) as [Hin|Hout].
  - rewrite clear_rect_positions. apply zero_all_in; [exact Hin |].
    apply lookup_lt_Some in H. exact H.
  - rewrite clear_rect_positions, zero_all_out by exact Hout. exact H.
Qed.

Lemma index_unique (du a b a' b' : nat) :
  (a < du)%nat -> (a' < du)%nat -> (a + b * du = a' + b' * du)%nat -> a = a' /\ b = b'.
Proof.
  intros Ha Ha' H.
  assert (b = b').
  { destruct (Nat.lt_trichotomy b b') as [L | [E | L]]; [| exact E |]; exfalso; nia. }
  subst b'. split; [lia | reflexivity].
Qed.

Lemma index_in_plane (du dv a b : nat) :
  (a < du)%nat -> (b < dv)%nat -> (a + b * du < du * dv)%nat.
Proof. intros Ha Hb. nia. Qed.

Lemma cells_snoc (qs : list Quad) (q : Quad) :
  (qs ++ [q]) ≫= quad_cells = (qs ≫= quad_cells) ++ quad_cells q.
Proof. rewrite bind_app. csimpl. rewrite app_nil_r. reflexivity. Qed.

Section Row.
Variables (axis : nat) (xa : Z) (du dv : nat) (m0 : list Z) (fs0 : list Face).

Lemma scan_inv_start : length m0 = (du * dv)%nat -> scan_inv du dv m0 m0 0 [].
Proof.
  intros L. split.
  - exact L.
  - intros p Hp. lia.
  - intros a b Ha Hb. csimpl. split; [intros [H|H]; [inversion H | exact H] | auto].
  - csimpl. constructor.
  - intros a b H. csimpl in H. inversion H.
Qed.

(** The step of the scan over a cell that holds 0. *)
Lemma scan_inv_skip (m : list Z) (n : nat) (qs : list Quad) :
  scan_inv du dv m0 m n qs -> m !! n = Some 0 -> scan_inv du dv m0 m (n + 1) qs.
Proof.
  intros [L B C N D] Hn. split; try assumption.
  intros p Hp Hp'. destruct (decide (p = n)) as [->|]; [exact Hn | apply B; lia].
Qed.

(** The step of the scan that emits the rectangle at [(i, j)]. *)
Lemma scan_inv_emit (m : list Z) (qs : list Quad) (i j w h : nat) (c : Z) :
  scan_inv du dv m0 m (i + j * du) qs ->
  c <> 0 -> (1 <= w)%nat -> (i + w <= du)%nat -> (1 <= h)%nat -> (j + h <= dv)%nat ->
  (forall l k, (l < h)%nat -> (k < w)%nat ->
     m !! (i + j * du + k + l * du)%nat = Some c) ->
  scan_inv du dv m0 (clear_rect m du (i + j * du) w h) (i + j * du + w)
           (qs ++ [mkQuad (Some c) i j w h]).
Proof.
  intros [L B C N D] Hc Hw Hiw Hh Hjh Hrect.
  set (n := (i + j * du)%nat) in *.
  assert (Hin : forall a b, (a, b) ∈ rect i j w h ->
            (a < du)%nat /\ (b < dv)%nat /\ m !! (a + b * du)%nat = Some c /\
            clear_rect m du n w h !! (a + b * du)%nat = Some 0).
  { intros a b Hab. apply elem_of_rect in Hab as [Ha Hb].
    assert (Ea : (a + b * du = n + (a - i) + (b - j) * du)%nat) by (subst n; nia).
    split; [lia |]. split; [lia |]. rewrite Ea. split.
    - apply Hrect; lia.
    - apply clear_rect_in; [lia | lia |]. rewrite <- Ea, L.
      apply index_in_plane; lia. }
  assert (Hout : forall a b, (a < du)%nat -> (a, b) ∉ rect i j w h ->
            clear_rect m du n w h !! (a + b * du)%nat = m !! (a + b * du)%nat).
  { intros a b Ha Hab. apply clear_rect_out. intros l k Hl Hk E.
    apply Hab. apply elem_of_rect.
    assert (E' : (a + b * du = (i + k) + (j + l) * du)%nat) by (subst n; nia).
    apply index_unique in E' as [-> ->]; lia. }
  split.
  - rewrite clear_rect_length. exact L.
  - intros p Hp Hp'. destruct (decide (p < n)%nat) as [Hlt|Hge].
    + apply clear_rect_zero. apply B; assumption.
    + replace p with (n + (p - n) + 0 * du)%nat by lia.
      apply clear_rect_in; [lia | lia |]. rewrite L. lia.
  - intros a b Ha Hb. rewrite cells_snoc, elem_of_app. cbn [quad_cells q_i q_j q_w q_h].
    rewrite <- (C a b Ha Hb). split.
    + intros [[Hq | Hr] | Hm].
      * left. exact Hq.
      * right. apply Hin in Hr as (_ & _ & Hr & _). rewrite Hr. congruence.
      * right. intros Hz. apply Hm. apply clear_rect_zero. exact Hz.
    + intros [Hq | Hm]; [left; left; exact Hq |].
      destruct (decide ((a, b) ∈ rect i j w h)) as [Hr|Hr]; [left; right; exact Hr |].
      right. rewrite (Hout a b Ha Hr). exact Hm.
  - rewrite cells_snoc. apply NoDup_app. split; [exact N |]. split; [| apply NoDup_rect].
    intros [a b] Hq Hr. cbn [quad_cells q_i q_j q_w q_h] in Hr.
    apply D in Hq as (_ & _ & Hq). apply Hin in Hr as (_ & _ & Hr & _).
    rewrite Hq in Hr. congruence.
  - intros a b Hab. rewrite cells_snoc, elem_of_app in Hab. destruct Hab as [Hq | Hr].
    + apply D in Hq as (Ha & Hb & Hq). split; [exact Ha |]. split; [exact Hb |].
      apply clear_rect_zero. exact Hq.
    + cbn [quad_cells q_i q_j q_w q_h] in Hr. apply Hin in Hr. tauto.
Qed.

(** The scan of the row [j] from the column [i]: it reaches the end of the
    row and keeps the invariant. *)
Lemma row_loop_inv (j fuel i : nat) (s : Scan) (qs : list Quad) :
  (du - i <= fuel)%nat -> (i <= du)%nat -> (j < dv)%nat ->
  s_n s = (i + j * du)%nat ->
  scan_inv du dv m0 (s_mask s) (s_n s) qs ->
  s_faces s = fs0 ++ map (quad_face axis xa) qs ->
  exists qs',
    let s' := row_loop fuel axis xa du dv j i s in
    s_n s' = (du + j * du)%nat /\
    scan_inv du dv m0 (s_mask s') (s_n s') qs' /\
    s_faces s' = fs0 ++ map (quad_face axis xa) qs'.
Proof.
  revert i s qs. induction fuel as [|fuel IH]; intros i s qs Hf Hi Hj Hn Hinv Hfs.
  - exists qs. simpl. split; [rewrite Hn; f_equal; lia |]. auto.
  - simpl. destruct (Nat.ltb_spec i du) as [Hlt|Hge].
    2:{ exists qs. split; [rewrite Hn; f_equal; lia |]. auto. }
    destruct s as [m n fs]. cbn [s_mask s_n s_faces] in *. subst n.
    assert (Hlen : (i + j * du < length m)%nat).
    { rewrite (inv_length _ _ _ _ _ _ Hinv). apply index_in_plane; assumption. }
    destruct (lookup_lt_is_Some_2 _ _ Hlen) as [c Hc].
    destruct (bool_decide_reflect (m !! (i + j * du)%nat = Some 0)) as [E|E]; simpl.
    + apply (IH (i + 1)%nat (mkScan m (i + j * du + 1) fs) qs); cbn [s_mask s_n s_faces];
        [lia | lia | exact Hj | lia | | exact Hfs].
      apply scan_inv_skip; assumption.
    + rewrite Hc in *. assert (c <> 0) by congruence.
      set (w := grow_w du m (Some c) du i (i + j * du) 1).
      set (h := grow_h dv m (Some c) du dv j (i + j * du) w 1).
      destruct (grow_w_spec du m (Some c) du i (i + j * du) 1) as (Hw1 & Hw2 & Hw3);
        [intros k Hk; replace k with 0%nat by lia; rewrite Nat.add_0_r; exact Hc | lia |].
      fold w in Hw1, Hw2, Hw3.
      destruct (grow_h_spec dv m (Some c) du dv j (i + j * du) w 1) as (Hh1 & Hh2 & Hh3);
        [intros l k Hl Hk; replace l with 0%nat by lia;
         rewrite Nat.mul_0_l, Nat.add_0_r; apply Hw3; exact Hk | lia |].
      fold h in Hh1, Hh2, Hh3.
      apply (IH (i + w)%nat _ (qs ++ [mkQuad (Some c) i j w h])); cbn [s_mask s_n s_faces];
        [lia | lia | exact Hj | lia | |].
      * apply scan_inv_emit; assumption.
      * rewrite Hfs, map_app, <- app_assoc. reflexivity.
Qed.

(** The scan of the rows from [j] on. *)
Lemma rows_inv (k j : nat) (s : Scan) (qs : list Quad) :
  (j + k <= dv)%nat ->
  s_n s = (j * du)%nat ->
  scan_inv du dv m0 (s_mask s) (s_n s) qs ->
  s_faces s = fs0 ++ map (quad_face axis xa) qs ->
  exists qs',
    let s' := foldl (fun s j => row_loop du axis xa du dv j 0 s) s (seq j k) in
    s_n s' = ((j + k) * du)%nat /\
    scan_inv du dv m0 (s_mask s') (s_n s') qs' /\
    s_faces s' = fs0 ++ map (quad_face axis xa) qs'.
Proof.
  revert j s qs. induction k as [|k IH]; intros j s qs Hjk Hn Hinv Hfs.
  - exists qs. simpl. split; [rewrite Hn; f_equal; lia |]. auto.
  - simpl.
    destruct (row_loop_inv j du 0 s qs) as (qs1 & Hn1 & Hinv1 & Hfs1);
      [lia | lia | lia | rewrite Hn; lia | assumption | assumption |].
    cbv zeta in Hn1, Hinv1, Hfs1.
    destruct (IH (S j) (row_loop du axis xa du dv j 0 s) qs1) as (qs2 & Hn2 & Hinv2 & Hfs2);
      [lia | rewrite Hn1; lia | exact Hinv1 | exact Hfs1 |].
    exists qs2. cbv zeta in *. split; [rewrite Hn2; f_equal; lia |]. auto.
Qed.

(** The scan of a plane emits rectangles that cover, once each, exactly the
    cells of the mask that are not 0. *)
Lemma plane_scan_cells :
  length m0 = (du * dv)%nat ->
  exists qs,
    s_faces (foldl (fun s j => row_loop du axis xa du dv j 0 s)
                   (mkScan m0 0 fs0) (seq 0 dv))
    = fs0 ++ map (quad_face axis xa) qs /\
    NoDup (qs ≫= quad_cells) /\
    forall a b, (a, b) ∈ qs ≫= quad_cells <->
                (a < du)%nat /\ (b < dv)%nat /\ m0 !! (a + b * du)%nat <> Some 0.
Proof.
  intros L.
  destruct (rows_inv dv 0 (mkScan m0 0 fs0) []) as (qs & Hn & Hinv & Hfs);
    cbn [s_mask s_n s_faces]; [lia | lia | apply scan_inv_start; exact L | |].
  { rewrite app_nil_r. reflexivity. }
  cbv zeta in *. exists qs. split; [exact Hfs |]. destruct Hinv as [L' B C N D].
  split; [exact N |]. intros a b. split.
  - intros Hab. destruct (D a b Hab) as (Ha & Hb & _).
    split; [exact Ha |]. split; [exact Hb |]. apply C; auto.
  - intros (Ha & Hb & Hm). apply C in Hm; [| exact Ha | exact Hb].
    destruct Hm as [Hq | Hm]; [exact Hq |]. exfalso. apply Hm. apply B.
    + rewrite Hn. nia.
    + apply index_in_plane; assumption.
Qed.

End Row.

End PlaneScan.

(* ===================================================================== *)
(** * The greedy mesher: faces and unit faces *)
(* ===================================================================== *)

Section Raster.
Import Mesher.

Lemma seqZ_nat (j h : nat) : seqZ (Z.of_nat j) (Z.of_nat h) = Z.of_nat <$> seq j h.
Proof.
  revert j. induction h as [|h IH]; intros j; [reflexivity |].
  rewrite seqZ_cons by lia. cbn [seq fmap list_fmap].
  replace (Z.succ (Z.of_nat j)) with (Z.of_nat (S j)) by lia.
  replace (Z.pred (Z.of_nat (S h))) with (Z.of_nat h) by lia.
  rewrite IH. reflexivity.
Qed.

Lemma bind_singleton_fmap {A B} (g : A -> B) (l : list A) :
  (x ← l; [g x]) = g <$> l.
Proof. induction l as [|x l IH]; csimpl; [reflexivity | rewrite IH; reflexivity]. Qed.

Lemma fmap_bind_list {A B C} (g : B -> C) (f : A -> list B) (l : list A) :
  g <$> (l ≫= f) = l ≫= (fun x => g <$> f x).
Proof.
  induction l as [|x l IH]; csimpl; [reflexivity |].
  rewrite fmap_app, IH. reflexivity.
Qed.

(** The unit faces of a rectangle, from its cells. *)
Lemma raster_rect {X} (F : Z -> Z -> X) (i j w h : nat) :
  (b ← seqZ (Z.of_nat j) (Z.of_nat h); a ← seqZ (Z.of_nat i) (Z.of_nat w); [F a b])
  = (fun c : nat * nat => F (Z.of_nat c.1) (Z.of_nat c.2)) <$> rect i j w h.
Proof.
  unfold rect. rewrite !seqZ_nat, list_fmap_bind, fmap_bind_list.
  apply list_bind_ext; [| reflexivity]. intros b. cbn [compose].
  rewrite list_fmap_bind, fmap_bind_list.
  apply list_bind_ext; [| reflexivity]. intros a. reflexivity.
Qed.

Lemma rasterize_quad_face (axis : nat) (xa : Z) (q : Quad) :
  (axis < 3)%nat ->
  rasterize (quad_face axis xa q)
  = (fun c : nat * nat => (axis, plane_pos axis xa c.1 c.2)) <$> quad_cells q.
Proof.
  intros Hax. destruct q as [cur i j w h]. unfold quad_face, quad_cells.
  cbn [q_cur q_i q_j q_w q_h].
  rewrite <- (raster_rect (fun a b => (axis, set3 (set3 (set3 zero3 axis xa) (axis_u axis) a)
                                                 (axis_v axis) b))).
  unfold rasterize, make_face.
  destruct axis as [|[|[|]]]; [| | | lia];
    [ change (axis_u 0) with 1%nat; change (axis_v 0) with 2%nat
    | change (axis_u 1) with 2%nat; change (axis_v 1) with 0%nat
    | change (axis_u 2) with 0%nat; change (axis_v 2) with 1%nat ];
    destruct (match cur with Some c => 0 <? c | None => false end);
    cbn [vertices normal face_axis get3 set3 zero3 add3 fst snd negb Z.eqb];
    [ change (axis_u 0) with 1%nat; change (axis_v 0) with 2%nat
    | change (axis_u 0) with 1%nat; change (axis_v 0) with 2%nat
    | change (axis_u 1) with 2%nat; change (axis_v 1) with 0%nat
    | change (axis_u 1) with 2%nat; change (axis_v 1) with 0%nat
    | change (axis_u 2) with 0%nat; change (axis_v 2) with 1%nat
    | change (axis_u 2) with 0%nat; change (axis_v 2) with 1%nat ];
    cbn [get3 set3 fst snd];
    unfold add3; cbn [fst snd];
    repeat match goal with
    | |- context [seqZ _ ?len] =>
        lazymatch len with
        | Z.of_nat _ => fail
        | _ =>
            let e := fresh in
            first [ assert (e : len = Z.of_nat h) by lia
                  | assert (e : len = Z.of_nat w) by lia ];
            rewrite e; clear e
        end
    end; reflexivity.
Qed.

End Raster.

(* ===================================================================== *)
(** * The greedy mesher: the mask of a plane *)
(* ===================================================================== *)

Section Mask.
Import Mesher.

(** A table written row by row, read at a column and a row. *)
Lemma table_length {A} (f : nat -> nat -> A) (du dv s : nat) :
  length (y ← seq s dv; x ← seq 0 du; [f x y]) = (du * dv)%nat.
Proof.
  revert s. induction dv as [|dv IH]; intros s; csimpl; [lia |].
  rewrite length_app, IH, bind_singleton_fmap, length_fmap, length_seq. lia.
Qed.

Lemma table_lookup {A} (f : nat -> nat -> A) (du dv s a b : nat) :
  (a < du)%nat -> (b < dv)%nat ->
  (y ← seq s dv; x ← seq 0 du; [f x y]) !! (a + b * du)%nat = Some (f a (s + b)%nat).
Proof.
  intros Ha. revert s b. induction dv as [|dv IH]; intros s b Hb; [lia |].
  csimpl. rewrite bind_singleton_fmap.
  destruct b as [|b].
  - rewrite lookup_app_l by (rewrite length_fmap, length_seq; lia).
    rewrite Nat.add_0_r, list_lookup_fmap, lookup_seq_lt by lia.
    rewrite Nat.add_0_r. reflexivity.
  - rewrite lookup_app_r by (rewrite length_fmap, length_seq; lia).
    rewrite length_fmap, length_seq.
    replace (a + S b * du - du)%nat with (a + b * du)%nat by lia.
    rewrite IH by lia. f_equal. f_equal. lia.
Qed.

Lemma plane_mask_length (chunk : Chunk) (axis : nat) (xa : Z) :
  length (plane_mask chunk axis xa) = (dim (axis_u axis) * dim (axis_v axis))%nat.
Proof. unfold plane_mask. apply table_length. Qed.

Lemma plane_mask_lookup (chunk : Chunk) (axis : nat) (xa : Z) (a b : nat) :
  (a < dim (axis_u axis))%nat -> (b < dim (axis_v axis))%nat ->
  plane_mask chunk axis xa !! (a + b * dim (axis_u axis))%nat
  = Some (mask_cell chunk axis
            (set3 (set3 (set3 zero3 axis xa) (axis_v axis) (Z.of_nat b))
                  (axis_u axis) (Z.of_nat a))).
Proof.
  intros Ha Hb. unfold plane_mask.
  rewrite (table_lookup
             (fun xu xv => mask_cell chunk axis
                (set3 (set3 (set3 zero3 axis xa) (axis_v axis) (Z.of_nat xv))
                      (axis_u axis) (Z.of_nat xu)))) by assumption.
  reflexivity.
Qed.

Lemma getBlockInChunk_byte (chunk : Chunk) (x y z : Z) :
  byte_grid chunk -> 0 <= getBlockInChunk chunk x y z < 256.
Proof.
  intros Hb. unfold getBlockInChunk, or_air, Block.air, TypedArray.get.
  destruct (_ || _); [lia |].
  destruct (TypedArray.in_range _ _); [| lia].
  destruct (TypedArray.cells (blocks chunk) !! block_index x y z) as [v|] eqn:E;
    cbn [default from_option]; unfold id.
  - apply Hb in E. destruct (v =? 0); lia.
  - simpl. lia.
Qed.

Lemma getBlockInChunk_outside (chunk : Chunk) (x y z : Z) :
  x < 0 \/ CHUNK_SIZE <= x \/ y < 0 \/ WORLD_HEIGHT <= y \/ z < 0 \/ CHUNK_SIZE <= z ->
  getBlockInChunk chunk x y z = 0.
Proof.
  intros H. unfold getBlockInChunk.
  replace (_ || _) with true; [reflexivity |]. symmetry.
  rewrite !orb_true_iff, !Z.ltb_lt, !Z.leb_le. tauto.
Qed.

Lemma int32_small (z : Z) : -256 < z < 256 -> int32 z = z.
Proof.
  intros H. unfold int32.
  rewrite Z.mod_small by lia. lia.
Qed.

(** A cell of the mask is not 0 exactly when one of the two cells across
    the plane is solid and the other is not. *)
Lemma mask_cell_nonzero (chunk : Chunk) (axis : nat) (x : Arr3) :
  byte_grid chunk -> (axis < 3)%nat ->
  mask_cell chunk axis x <> 0
  <-> solid chunk x <> solid chunk (add3 x (set3 zero3 axis 1)).
Proof.
  intros Hb Hax. unfold mask_cell, solid.
  set (q := set3 zero3 axis 1).
  set (A := getBlockInChunk chunk x.1.1 x.1.2 x.2).
  set (B := getBlockInChunk chunk (x.1.1 + q.1.1) (x.1.2 + q.1.2) (x.2 + q.2)).
  assert (HA : (if 0 <=? get3 x axis then A else 0) = A).
  { destruct (Z.leb_spec 0 (get3 x axis)) as [|Hneg]; [reflexivity |].
    symmetry. subst A. apply getBlockInChunk_outside.
    destruct x as [[x0 x1] x2]. destruct axis as [|[|[|]]]; cbn in Hneg |- *; lia. }
  assert (HB : (if get3 x axis <? get3 dims axis - 1 then B else 0) = B).
  { destruct (Z.ltb_spec (get3 x axis) (get3 dims axis - 1)) as [|Hge]; [reflexivity |].
    symmetry. subst B q. apply getBlockInChunk_outside.
    destruct x as [[x0 x1] x2].
    destruct axis as [|[|[|]]]; cbn in Hge |- *; unfold CHUNK_SIZE, WORLD_HEIGHT in *; lia. }
  rewrite HA, HB.
  pose proof (getBlockInChunk_byte chunk x.1.1 x.1.2 x.2 Hb) as RA.
  pose proof (getBlockInChunk_byte chunk (x.1.1 + q.1.1) (x.1.2 + q.1.2) (x.2 + q.2) Hb) as RB.
  fold A in RA. fold B in RB.
  change (add3 x q).1.1 with (x.1.1 + q.1.1).
  change (add3 x q).1.2 with (x.1.2 + q.1.2).
  change (add3 x q).2 with (x.2 + q.2).
  fold B.
  rewrite !int32_small by lia.
  destruct (Z.eqb_spec A 0) as [EA|EA], (Z.eqb_spec B 0) as [EB|EB]; simpl.
  - split; [intros H; lia | intros H; congruence].
  - split; [intros _; congruence | intros _; lia].
  - split; [intros _; congruence | intros _; lia].
  - split; [intros H; lia | intros H; congruence].
Qed.

End Mask.

(* ===================================================================== *)
(** * The greedy mesher: planes, axes and the whole chunk *)
(* ===================================================================== *)

Section Mesh.
Import Mesher.

Lemma dim_dims (k : nat) : Z.of_nat (dim k) = get3 dims k.
Proof. destruct k as [|[|k]]; reflexivity. Qed.

Lemma plane_pos_inj (axis : nat) (xa : Z) (a b a' b' : nat) :
  (axis < 3)%nat -> plane_pos axis xa a b = plane_pos axis xa a' b' -> a = a' /\ b = b'.
Proof.
  intros Hax H. unfold plane_pos in H.
  destruct axis as [|[|[|]]]; [| | | lia]; cbn in H; injection H; lia.
Qed.

Lemma plane_pos_get (axis : nat) (xa : Z) (a b : nat) :
  (axis < 3)%nat ->
  get3 (plane_pos axis xa a b) axis = xa /\
  get3 (plane_pos axis xa a b) (axis_u axis) = Z.of_nat a /\
  get3 (plane_pos axis xa a b) (axis_v axis) = Z.of_nat b.
Proof.
  intros Hax. unfold plane_pos.
  destruct axis as [|[|[|]]]; [| | | lia]; cbn; auto.
Qed.

Lemma plane_pos_of (axis : nat) (y : Arr3) :
  (axis < 3)%nat -> 0 <= get3 y (axis_u axis) -> 0 <= get3 y (axis_v axis) ->
  y = plane_pos axis (get3 y axis)
        (Z.to_nat (get3 y (axis_u axis))) (Z.to_nat (get3 y (axis_v axis))).
Proof.
  intros Hax Hu Hv. unfold plane_pos. destruct y as [[y0 y1] y2].
  destruct axis as [|[|[|]]]; [| | | lia]; cbn in *; rewrite !Z2Nat.id by lia; reflexivity.
Qed.

(** The two cells across the unit face at [(a, b)] of the plane after
    [x[axis] = xa]. *)
Lemma plane_pos_cells (axis : nat) (xa : Z) (a b : nat) :
  (axis < 3)%nat ->
  let x := set3 (set3 (set3 zero3 axis xa) (axis_v axis) (Z.of_nat b))
                (axis_u axis) (Z.of_nat a) in
  behind axis (plane_pos axis (xa + 1) a b) = x /\
  add3 x (set3 zero3 axis 1) = plane_pos axis (xa + 1) a b.
Proof.
  intros Hax. unfold plane_pos, behind.
  destruct axis as [|[|[|]]]; [| | | lia]; cbn;
    unfold add3; cbn [fst snd]; split; repeat first [lia | reflexivity | f_equal].
Qed.

(** The faces that the scan of one plane adds: cut back into unit faces,
    they are, once each, the unit faces of the plane that separate a solid
    cell from one that is not. *)
Lemma plane_loop_cells (chunk : Chunk) (axis : nat) (xa : Z) (fs : list Face) :
  byte_grid chunk -> (axis < 3)%nat ->
  exists new,
    plane_loop axis (xa + 1) (plane_mask chunk axis xa) fs = fs ++ new /\
    NoDup (cells_of new) /\
    forall ax y, (ax, y) ∈ cells_of new <->
                 ax = axis /\ get3 y axis = xa + 1 /\ crossing chunk axis y.
Proof.
  intros Hb Hax. unfold plane_loop.
  destruct (plane_scan_cells axis (xa + 1) (dim (axis_u axis)) (dim (axis_v axis))
              (plane_mask chunk axis xa) fs (plane_mask_length chunk axis xa))
    as (qs & Hf & N & M).
  exists (map (quad_face axis (xa + 1)) qs). split; [exact Hf |].
  set (F := fun c : nat * nat => (axis, plane_pos axis (xa + 1) c.1 c.2)).
  assert (HC : cells_of (map (quad_face axis (xa + 1)) qs) = F <$> (qs ≫= quad_cells)).
  { unfold cells_of. change (map ?f ?l) with (f <$> l).
    rewrite list_fmap_bind, fmap_bind_list. apply list_bind_ext; [| reflexivity].
    intros q. cbn [compose]. apply rasterize_quad_face. exact Hax. }
  rewrite HC. split.
  - apply NoDup_fmap_2; [| exact N].
    intros [a b] [a' b'] E. unfold F in E. cbn [fst snd] in E.
    injection E as E. apply plane_pos_inj in E as [-> ->]; [reflexivity | exact Hax].
  - intros ax y. rewrite list_elem_of_fmap. unfold crossing. split.
    + intros ([a b] & E & Hc). unfold F in E. cbn [fst snd] in E. injection E as -> ->.
      apply M in Hc as (Ha & Hb' & Hm).
      rewrite plane_mask_lookup in Hm by assumption.
      assert (Hm' : mask_cell chunk axis
                      (set3 (set3 (set3 zero3 axis xa) (axis_v axis) (Z.of_nat b))
                            (axis_u axis) (Z.of_nat a)) <> 0) by congruence.
      apply mask_cell_nonzero in Hm'; [| exact Hb | exact Hax].
      destruct (plane_pos_cells axis xa a b Hax) as [E1 E2]. cbv zeta in E1, E2.
      rewrite E2 in Hm'. rewrite E1.
      destruct (plane_pos_get axis (xa + 1) a b Hax) as (G0 & G1 & G2).
      rewrite G0, G1, G2, <- !dim_dims.
      split; [reflexivity |]. split; [reflexivity |].
      split; [lia |]. split; [lia |]. exact Hm'.
    + intros (-> & Hy & Hu & Hv & Hs).
      exists (Z.to_nat (get3 y (axis_u axis)), Z.to_nat (get3 y (axis_v axis))).
      rewrite <- !dim_dims in *.
      assert (Ey : y = plane_pos axis (xa + 1)
                         (Z.to_nat (get3 y (axis_u axis))) (Z.to_nat (get3 y (axis_v axis)))).
      { rewrite <- Hy. apply plane_pos_of; [exact Hax | lia | lia]. }
      split; [unfold F; cbn [fst snd]; f_equal; exact Ey |].
      apply M. split; [lia |]. split; [lia |].
      rewrite plane_mask_lookup by lia.
      assert (Hm' : mask_cell chunk axis
                      (set3 (set3 (set3 zero3 axis xa) (axis_v axis)
                               (Z.of_nat (Z.to_nat (get3 y (axis_v axis)))))
                            (axis_u axis) (Z.of_nat (Z.to_nat (get3 y (axis_u axis))))) <> 0).
      { apply mask_cell_nonzero; [exact Hb | exact Hax |].
        destruct (plane_pos_cells axis xa (Z.to_nat (get3 y (axis_u axis)))
                    (Z.to_nat (get3 y (axis_v axis))) Hax) as [E1 E2].
        cbv zeta in E1, E2. rewrite E2, <- E1, <- Ey. exact Hs. }
      congruence.
Qed.

Lemma cells_of_app (fs1 fs2 : list Face) : cells_of (fs1 ++ fs2) = cells_of fs1 ++ cells_of fs2.
Proof. unfold cells_of. apply bind_app. Qed.

(** The sweep of the planes [xs] along one axis. *)
Lemma planes_cells (chunk : Chunk) (axis : nat) (xs : list Z) (fs : list Face) :
  byte_grid chunk -> (axis < 3)%nat -> NoDup xs ->
  exists new,
    foldl (fun faces xa => plane_loop axis (xa + 1) (plane_mask chunk axis xa) faces) fs xs
    = fs ++ new /\
    NoDup (cells_of new) /\
    forall ax y, (ax, y) ∈ cells_of new <->
                 ax = axis /\ (get3 y axis - 1) ∈ xs /\ crossing chunk axis y.
Proof.
  intros Hb Hax. revert fs. induction xs as [|xa xs IH]; intros fs Hnd.
  - exists []. simpl. split; [rewrite app_nil_r; reflexivity |].
    split; [constructor |]. intros ax y. unfold cells_of. csimpl. split.
    + intros H. inversion H.
    + intros (_ & H & _). inversion H.
  - apply NoDup_cons in Hnd as [Hxa Hnd]. simpl.
    destruct (plane_loop_cells chunk axis xa fs Hb Hax) as (new1 & E1 & N1 & M1).
    rewrite E1.
    destruct (IH (fs ++ new1) Hnd) as (new2 & E2 & N2 & M2).
    exists (new1 ++ new2). split; [rewrite E2, app_assoc; reflexivity |].
    rewrite cells_of_app. split.
    + apply NoDup_app. split; [exact N1 |]. split; [| exact N2].
      intros [ax y] H1 H2. apply M1 in H1 as (_ & Hy & _). apply M2 in H2 as (_ & Hin & _).
      apply Hxa. replace xa with (get3 y axis - 1) by lia. exact Hin.
    + intros ax y. rewrite elem_of_app, M1, M2, elem_of_cons. split.
      * intros [(-> & Hy & Hc) | (-> & Hy & Hc)].
        -- split; [reflexivity |]. split; [left; lia | exact Hc].
        -- split; [reflexivity |]. split; [right; exact Hy | exact Hc].
      * intros (-> & [Hy | Hy] & Hc).
        -- left. split; [reflexivity |]. split; [lia | exact Hc].
        -- right. auto.
Qed.

Lemma axis_loop_cells (chunk : Chunk) (axis : nat) (fs : list Face) :
  byte_grid chunk -> (axis < 3)%nat ->
  exists new,
    axis_loop chunk axis fs = fs ++ new /\
    NoDup (cells_of new) /\
    forall ax y, (ax, y) ∈ cells_of new <-> ax = axis /\ is_boundary chunk axis y.
Proof.
  intros Hb Hax. unfold axis_loop.
  destruct (planes_cells chunk axis (seqZ (-1) (get3 dims axis + 1)) fs Hb Hax
              (NoDup_seqZ _ _)) as (new & E & N & M).
  exists new. split; [exact E |]. split; [exact N |].
  intros ax y. rewrite M, elem_of_seqZ. unfold is_boundary, crossing.
  split.
  - intros (-> & Hy & Hc). split; [reflexivity |]. split; [exact Hax |].
    split; [lia | exact Hc].
  - intros (-> & _ & Hy & Hc). split; [reflexivity |]. split; [lia | exact Hc].
Qed.

(** The loop over the axes [axs]. *)
Lemma axes_cells (chunk : Chunk) (axs : list nat) (fs : list Face) :
  byte_grid chunk -> (forall axis, axis ∈ axs -> (axis < 3)%nat) -> NoDup axs ->
  exists new,
    foldl (fun faces axis => axis_loop chunk axis faces) fs axs = fs ++ new /\
    NoDup (cells_of new) /\
    forall ax y, (ax, y) ∈ cells_of new <-> ax ∈ axs /\ is_boundary chunk ax y.
Proof.
  intros Hb. revert fs. induction axs as [|axis axs IH]; intros fs Hlt Hnd.
  - exists []. simpl. split; [rewrite app_nil_r; reflexivity |].
    split; [constructor |]. intros ax y. unfold cells_of. csimpl. split.
    + intros H. inversion H.
    + intros (H & _). inversion H.
  - apply NoDup_cons in Hnd as [Hax Hnd]. simpl.
    destruct (axis_loop_cells chunk axis fs Hb (Hlt axis ltac:(left))) as (new1 & E1 & N1 & M1).
    rewrite E1.
    destruct (IH (fs ++ new1) (fun a Ha => Hlt a ltac:(right; exact Ha)) Hnd)
      as (new2 & E2 & N2 & M2).
    exists (new1 ++ new2). split; [rewrite E2, app_assoc; reflexivity |].
    rewrite cells_of_app. split.
    + apply NoDup_app. split; [exact N1 |]. split; [| exact N2].
      intros [ax y] H1 H2. apply M1 in H1 as (-> & _). apply M2 in H2 as (Hin & _).
      contradiction.
    + intros ax y. rewrite elem_of_app, M1, M2, elem_of_cons. split.
      * intros [(-> & Hc) | (Hin & Hc)]; auto.
      * intros ([-> | Hin] & Hc); auto.
Qed.

(** C3. For every chunk grid (of bytes), the faces of the greedy mesher,
    cut back into unit faces, are, once each, exactly the unit faces on the
    planes of the three sweeps (the planes that bound the chunk included,
    with nothing solid outside) that separate a solid cell from a cell that
    is not solid; in particular there is no face between two solid cells,
    whatever their types. *)
Theorem greedy_mesh_is_the_boundary (chunk : Chunk) :
  byte_grid chunk ->
  NoDup (cells_of (greedyMeshChunk chunk)) /\
  (forall axis x,
     (axis, x) ∈ cells_of (greedyMeshChunk chunk) <-> is_boundary chunk axis x) /\
  (forall axis x,
     solid chunk (behind axis x) = true -> solid chunk x = true ->
     (axis, x) ∉ cells_of (greedyMeshChunk chunk)).
Proof.
  intros Hb. unfold greedyMeshChunk.
  destruct (axes_cells chunk (seq 0 3) [] Hb) as (new & E & N & M).
  { intros axis Hin. apply elem_of_seq in Hin. lia. }
  { apply NoDup_seq. }
  rewrite E. cbn [app].
  assert (Hiff : forall axis x, (axis, x) ∈ cells_of new <-> is_boundary chunk axis x).
  { intros axis x. rewrite M, elem_of_seq. unfold is_boundary. split.
    - intros [_ H]. exact H.
    - intros H. split; [lia | exact H]. }
  split; [exact N |]. split; [exact Hiff |].
  intros axis x H1 H2 Hin. apply Hiff in Hin.
  destruct Hin as (_ & _ & _ & _ & Hne). congruence.
Qed.

Lemma greedy_mesh_is_the_boundary_witness :
  NoDup (cells_of (greedyMeshChunk
           (mkChunk 0 0 (TypedArray.set_u8 (TypedArray.new grid_size)
                           (block_index 0 9 0) Block.stone) true))) /\
  (forall axis x,
     (axis, x) ∈ cells_of (greedyMeshChunk
           (mkChunk 0 0 (TypedArray.set_u8 (TypedArray.new grid_size)
                           (block_index 0 9 0) Block.stone) true))
     <-> is_boundary
           (mkChunk 0 0 (TypedArray.set_u8 (TypedArray.new grid_size)
                           (block_index 0 9 0) Block.stone) true) axis x) /\
  (forall axis x,
     solid (mkChunk 0 0 (TypedArray.set_u8 (TypedArray.new grid_size)
                           (block_index 0 9 0) Block.stone) true) (behind axis x) = true ->
     solid (mkChunk 0 0 (TypedArray.set_u8 (TypedArray.new grid_size)
                           (block_index 0 9 0) Block.stone) true) x = true ->
     (axis, x) ∉ cells_of (greedyMeshChunk
           (mkChunk 0 0 (TypedArray.set_u8 (TypedArray.new grid_size)
                           (block_index 0 9 0) Block.stone) true))).
Proof.
  apply (greedy_mesh_is_the_boundary
           (mkChunk 0 0 (TypedArray.set_u8 (TypedArray.new grid_size)
                           (block_index 0 9 0) Block.stone) true)).
  intros i v H. vm_compute in H.
  destruct i as [|i|i]; try discriminate.
  repeat (destruct i as [i|i|]; try discriminate).
  injection H as <-. lia.
Defined.

End Mesh.

(* ===================================================================== *)
(** * The greedy mesher on a chunk of one block type *)
(* ===================================================================== *)

Section Uniform.
Import Mesher.

Lemma table_const {A} (f : nat -> nat -> A) (du dv : nat) (c : A) :
  (forall a b, (a < du)%nat -> (b < dv)%nat -> f a b = c) ->
  (y ← seq 0 dv; x ← seq 0 du; [f x y]) = replicate (du * dv) c.
Proof.
  intros H. apply (list_eq_same_length _ _ (du * dv)%nat).
  - apply length_replicate.
  - apply table_length.
  - intros i x y Hi Hx Hy.
    assert (Hdu : (0 < du)%nat) by (destruct du; [lia | lia]).
    assert (Hb : (i / du < dv)%nat) by (apply Nat.Div0.div_lt_upper_bound; lia).
    assert (Ha : (i mod du < du)%nat) by (apply Nat.mod_upper_bound; lia).
    assert (Ei : i = (i mod du + i / du * du)%nat).
    { pose proof (Nat.div_mod_eq i du). lia. }
    rewrite Ei in Hx. rewrite table_lookup in Hx by assumption.
    rewrite lookup_replicate_2 in Hy by exact Hi.
    rewrite H in Hx by assumption. congruence.
Qed.

Section Rows.
Variables (axis : nat) (xa : Z) (du dv : nat).

Lemma row_loop_done (fuel j i : nat) (s : Scan) :
  (du <= i)%nat -> row_loop fuel axis xa du dv j i s = s.
Proof.
  intros H. destruct fuel; simpl; [reflexivity |].
  destruct (Nat.ltb_spec i du); [lia | reflexivity].
Qed.

Lemma row_loop_step (fuel j i : nat) (s : Scan) :
  (0 < fuel)%nat -> (i < du)%nat ->
  row_loop fuel axis xa du dv j i s =
  let mask := s_mask s in
  let n := s_n s in
  if negb (bool_decide (mask !! n = Some 0)) then
    let currentMask := mask !! n in
    let w := grow_w du mask currentMask du i n 1 in
    let h := grow_h dv mask currentMask du dv j n w 1 in
    let face := make_face axis xa currentMask i j w h in
    row_loop (fuel - 1) axis xa du dv j (i + w)
             (mkScan (clear_rect mask du n w h) (n + w) (s_faces s ++ [face]))
  else
    row_loop (fuel - 1) axis xa du dv j (i + 1) (mkScan mask (n + 1) (s_faces s)).
Proof.
  intros Hf Hi. destruct fuel as [|fuel]; [lia |]. cbn [row_loop].
  replace (i <? du)%nat with true by (symmetry; apply Nat.ltb_lt; exact Hi).
  rewrite Nat.sub_1_r. reflexivity.
Qed.

(** Over cells that hold 0 the scan of a row only advances. *)
Lemma row_loop_zero (j fuel i n : nat) (m : list Z) (fs : list Face) :
  (forall p, (n <= p < n + (du - i))%nat -> m !! p = Some 0) ->
  (du - i <= fuel)%nat ->
  row_loop fuel axis xa du dv j i (mkScan m n fs) = mkScan m (n + (du - i)) fs.
Proof.
  revert i n. induction fuel as [|fuel IH]; intros i n Hz Hf; simpl.
  - replace (du - i)%nat with 0%nat by lia. rewrite Nat.add_0_r. reflexivity.
  - destruct (Nat.ltb_spec i du) as [Hlt|Hge].
    + rewrite (Hz n) by lia. rewrite bool_decide_eq_true_2 by reflexivity. simpl.
      rewrite IH; [f_equal; lia | intros p Hp; apply Hz; lia | lia].
    + replace (du - i)%nat with 0%nat by lia. rewrite Nat.add_0_r. reflexivity.
Qed.

Lemma rows_zero (k j n : nat) (m : list Z) (fs : list Face) :
  (forall p, (n <= p < n + k * du)%nat -> m !! p = Some 0) ->
  foldl (fun s j => row_loop du axis xa du dv j 0 s) (mkScan m n fs) (seq j k)
  = mkScan m (n + k * du) fs.
Proof.
  revert j n. induction k as [|k IH]; intros j n Hz; simpl.
  - rewrite Nat.add_0_r. reflexivity.
  - rewrite row_loop_zero; [| intros p Hp; apply Hz; lia | lia].
    rewrite Nat.sub_0_r, IH; [f_equal; lia |]. intros p Hp. apply Hz. lia.
Qed.

(** A plane whose mask is 0 everywhere gives no face. *)
Lemma plane_zero (fs : list Face) :
  s_faces (foldl (fun s j => row_loop du axis xa du dv j 0 s)
                 (mkScan (replicate (du * dv) 0) 0 fs) (seq 0 dv)) = fs.
Proof.
  rewrite rows_zero; [reflexivity |].
  intros p Hp. apply lookup_replicate_2. lia.
Qed.

(** A plane whose mask holds one value that is not 0 gives one face, the
    whole plane. *)
Lemma plane_const (c : Z) (fs : list Face) :
  c <> 0 -> (0 < du)%nat -> (0 < dv)%nat ->
  s_faces (foldl (fun s j => row_loop du axis xa du dv j 0 s)
                 (mkScan (replicate (du * dv) c) 0 fs) (seq 0 dv))
  = fs ++ [make_face axis xa (Some c) 0 0 du dv].
Proof.
  intros Hc Hdu Hdv.
  set (m := replicate (du * dv) c).
  assert (Hm : forall p, (p < du * dv)%nat -> m !! p = Some c).
  { intros p Hp. apply lookup_replicate_2. exact Hp. }
  assert (Hw : grow_w du m (Some c) du 0 0 1 = du).
  { destruct (grow_w_spec du m (Some c) du 0 0 1) as (H1 & H2 & _);
      [intros k Hk; apply Hm; nia | lia |].
    destruct (grow_w_maximal du m (Some c) du 0 0 1) as [H3 | H3]; [lia | lia |].
    destruct (decide (grow_w du m (Some c) du 0 0 1 < du)%nat) as [Hlt|]; [| lia].
    exfalso. apply H3. apply Hm. simpl. nia. }
  assert (Hh : grow_h dv m (Some c) du dv 0 0 du 1 = dv).
  { destruct (grow_h_spec dv m (Some c) du dv 0 0 du 1) as (H1 & H2 & _);
      [intros l k Hl Hk; apply Hm; nia | lia |].
    destruct (grow_h_maximal dv m (Some c) du dv 0 0 du 1) as [H3 | H3]; [lia | lia |].
    destruct (decide (grow_h dv m (Some c) du dv 0 0 du 1 < dv)%nat) as [Hlt|]; [| lia].
    exfalso. apply not_true_iff_false in H3. apply H3.
    apply row_matches_spec. intros k Hk. apply Hm. simpl. nia. }
  assert (Hclear : clear_rect m du 0 du dv = replicate (du * dv) 0).
  { apply (list_eq_same_length _ _ (du * dv)%nat).
    - apply length_replicate.
    - rewrite clear_rect_length. apply length_replicate.
    - intros p x y Hp Hx Hy. rewrite lookup_replicate_2 in Hy by exact Hp.
      assert (Ep : p = (0 + p mod du + p / du * du)%nat).
      { pose proof (Nat.div_mod_eq p du). lia. }
      rewrite Ep, clear_rect_in in Hx; [congruence | | |].
      + apply Nat.Div0.div_lt_upper_bound. lia.
      + apply Nat.mod_upper_bound. lia.
      + rewrite <- Ep. unfold m. rewrite length_replicate. exact Hp. }
  assert (Hrow : row_loop du axis xa du dv 0 0 (mkScan m 0 fs)
                 = mkScan (replicate (du * dv) 0) du
                          (fs ++ [make_face axis xa (Some c) 0 0 du dv])).
  { rewrite row_loop_step by lia. cbn [s_mask s_n s_faces]. cbv zeta.
    rewrite (Hm 0%nat) by nia.
    rewrite bool_decide_eq_false_2 by congruence. cbn [negb].
    rewrite Hw, Hh, Hclear. rewrite row_loop_done by lia. reflexivity. }
  replace (seq 0 dv) with (0%nat :: seq 1 (dv - 1))
    by (destruct dv as [|dv']; [lia |]; cbn [seq]; repeat f_equal; lia).
  cbn [foldl]. rewrite Hrow, rows_zero; [reflexivity |].
  intros p Hp. apply lookup_replicate_2. nia.
Qed.

End Rows.

Lemma getBlockInChunk_filled (chunk : Chunk) (t x y z : Z) :
  filled_with chunk t -> t <> 0 ->
  0 <= x < CHUNK_SIZE -> 0 <= y < WORLD_HEIGHT -> 0 <= z < CHUNK_SIZE ->
  getBlockInChunk chunk x y z = t.
Proof.
  intros [Hl Hc] Ht Hx Hy Hz. unfold getBlockInChunk.
  replace (_ || _) with false.
  2:{ symmetry. rewrite !orb_false_iff, !Z.ltb_ge, !Z.leb_gt. lia. }
  pose proof (block_index_range x y z Hx Hy Hz) as Hi.
  unfold TypedArray.get, TypedArray.in_range. rewrite Hl.
  replace ((0 <=? block_index x y z) && (block_index x y z <? grid_size)) with true.
  2:{ symmetry. apply andb_true_iff. split; [apply Z.leb_le | apply Z.ltb_lt]; lia. }
  rewrite Hc by exact Hi. cbn [default from_option]. unfold id, or_air.
  destruct (Z.eqb_spec t 0); [contradiction | reflexivity].
Qed.

(** The masks of the sweep along [axis] over a chunk full of [t]. *)
Lemma uniform_mask (chunk : Chunk) (t : Z) (axis : nat) (xa : Z) :
  filled_with chunk t -> 1 <= t <= 255 -> (axis < 3)%nat ->
  -1 <= xa <= get3 dims axis - 1 ->
  plane_mask chunk axis xa
  = replicate (dim (axis_u axis) * dim (axis_v axis))
      (if xa =? -1 then - t else if xa =? get3 dims axis - 1 then t else 0).
Proof.
  intros Hf Ht Hax Hxa. unfold plane_mask. apply table_const.
  intros a b Ha Hb. unfold mask_cell.
  assert (Hin : forall x y z, 0 <= x < CHUNK_SIZE -> 0 <= y < WORLD_HEIGHT ->
                  0 <= z < CHUNK_SIZE -> getBlockInChunk chunk x y z = t).
  { intros. apply getBlockInChunk_filled; auto. lia. }
  pose proof (dim_dims (axis_u axis)) as Du. pose proof (dim_dims (axis_v axis)) as Dv.
  destruct axis as [|[|[|]]]; [| | | lia];
    repeat match goal with
    | H : context [axis_u ?k] |- _ =>
        let u := eval vm_compute in (axis_u k) in change (axis_u k) with u in H
    | H : context [axis_v ?k] |- _ =>
        let u := eval vm_compute in (axis_v k) in change (axis_v k) with u in H
    end;
    cbn in Du, Dv, Hxa |- *; unfold CHUNK_SIZE, WORLD_HEIGHT in *;
    rewrite ?Z.add_0_r;
    destruct (Z.leb_spec 0 xa);
    match goal with
    | |- context [xa <? ?d] => destruct (Z.ltb_spec xa d)
    end;
    rewrite ?Hin by (unfold CHUNK_SIZE, WORLD_HEIGHT; lia);
    replace (t =? 0) with false by (symmetry; apply Z.eqb_neq; lia);
    cbn [negb Bool.eqb Z.eqb];
    destruct (Z.eqb_spec xa (-1));
    match goal with
    | |- context [xa =? ?d] => destruct (Z.eqb_spec xa d)
    | _ => idtac
    end;
    try lia; apply int32_small; lia.
Qed.

Lemma dim_pos (k : nat) : (0 < dim k)%nat.
Proof.
  unfold dim. destruct k as [|[|k]]; cbn [get3 dims fst snd];
    unfold CHUNK_SIZE, WORLD_HEIGHT; lia.
Qed.

(** The sweep along one axis over a chunk full of [t]: the face on the
    plane at 0 and the face on the far plane. *)
Lemma axis_uniform (chunk : Chunk) (t : Z) (axis : nat) (fs : list Face) :
  filled_with chunk t -> 1 <= t <= 255 -> (axis < 3)%nat ->
  axis_loop chunk axis fs
  = fs ++ [ make_face axis 0 (Some (- t)) 0 0 (dim (axis_u axis)) (dim (axis_v axis));
            make_face axis (get3 dims axis) (Some t) 0 0
                      (dim (axis_u axis)) (dim (axis_v axis)) ].
Proof.
  intros Hf Ht Hax. unfold axis_loop.
  set (d := get3 dims axis).
  assert (Hd : 2 <= d).
  { subst d. destruct axis as [|[|[|]]]; cbn [get3 dims fst snd];
      unfold CHUNK_SIZE, WORLD_HEIGHT; lia. }
  set (step := fun faces xa => plane_loop axis (xa + 1) (plane_mask chunk axis xa) faces).
  assert (Hmid : forall xs fs', (forall xa, xa ∈ xs -> 0 <= xa < d - 1) ->
                   foldl step fs' xs = fs').
  { induction xs as [|xa xs IH]; intros fs' Hxs; [reflexivity |]. simpl.
    assert (Hxa : 0 <= xa < d - 1) by (apply Hxs; left).
    unfold step at 2. unfold plane_loop.
    rewrite (uniform_mask chunk t axis xa Hf Ht Hax) by (fold d; lia). fold d.
    replace (xa =? -1) with false by (symmetry; apply Z.eqb_neq; lia).
    replace (xa =? d - 1) with false by (symmetry; apply Z.eqb_neq; lia).
    rewrite plane_zero. apply IH. intros xa' Hin. apply Hxs. right. exact Hin. }
  replace (d + 1) with (1 + ((d - 1) + 1)) by lia.
  rewrite seqZ_app by lia. rewrite (seqZ_app _ (d - 1) 1) by lia.
  rewrite !foldl_app.
  change (seqZ (-1) 1) with [-1]. change (seqZ (-1 + 1 + (d - 1)) 1) with [-1 + 1 + (d - 1)].
  cbn [foldl].
  rewrite (Hmid (seqZ (-1 + 1) (d - 1))).
  2:{ intros xa Hin. apply elem_of_seqZ in Hin. lia. }
  unfold step, plane_loop.
  rewrite (uniform_mask chunk t axis (-1) Hf Ht Hax) by (fold d; lia).
  rewrite (uniform_mask chunk t axis (-1 + 1 + (d - 1)) Hf Ht Hax) by (fold d; lia).
  fold d.
  replace (-1 =? -1) with true by reflexivity.
  replace (-1 + 1 + (d - 1) =? -1) with false by (symmetry; apply Z.eqb_neq; lia).
  replace (-1 + 1 + (d - 1) =? d - 1) with true by (symmetry; apply Z.eqb_eq; lia).
  rewrite !plane_const by (first [lia | apply dim_pos]).
  replace (-1 + 1 + (d - 1) + 1) with d by lia.
  rewrite <- app_assoc. reflexivity.
Qed.

Lemma make_face_down (axis : nat) (xa t : Z) (i j w h : nat) :
  0 < t ->
  make_face axis xa (Some (- t)) i j w h
  = let x := set3 (set3 (set3 zero3 axis xa) (axis_u axis) (Z.of_nat i))
                  (axis_v axis) (Z.of_nat j) in
    let du := set3 zero3 (axis_u axis) (Z.of_nat w) in
    let dv := set3 zero3 (axis_v axis) (Z.of_nat h) in
    mkFace [x; add3 x dv; add3 (add3 x du) dv; add3 x du]
           (set3 zero3 axis (-1)) (Some t).
Proof.
  intros Ht. unfold make_face.
  replace (0 <? - t) with false by (symmetry; apply Z.ltb_ge; lia).
  cbn [fmap option_fmap option_map]. rewrite Z.abs_opp, Z.abs_eq by lia. reflexivity.
Qed.

Lemma make_face_up (axis : nat) (xa t : Z) (i j w h : nat) :
  0 < t ->
  make_face axis xa (Some t) i j w h
  = let x := set3 (set3 (set3 zero3 axis xa) (axis_u axis) (Z.of_nat i))
                  (axis_v axis) (Z.of_nat j) in
    let du := set3 zero3 (axis_u axis) (Z.of_nat w) in
    let dv := set3 zero3 (axis_v axis) (Z.of_nat h) in
    mkFace [x; add3 x du; add3 (add3 x du) dv; add3 x dv]
           (set3 zero3 axis 1) (Some t).
Proof.
  intros Ht. unfold make_face.
  replace (0 <? t) with true by (symmetry; apply Z.ltb_lt; lia).
  cbn [fmap option_fmap option_map]. rewrite Z.abs_eq by lia. reflexivity.
Qed.

Lemma solid_chunk_filled (t : Z) : filled_with (solid_chunk t) t.
Proof.
  split; [reflexivity |]. intros i Hi. unfold solid_chunk. cbn [blocks TypedArray.cells].
  rewrite lookup_map_seqZ_0 by lia. apply lookup_replicate_2. lia.
Qed.

(** C4. For a chunk whose grid is full of one block type that is not
    air, the greedy mesher returns exactly six faces, one on each plane that
    bounds the chunk, each one rectangle over the whole extent of its
    plane: 64 by 16 on the two planes across [x], 16 by 16 across [y] and
    16 by 64 across [z]. *)
Theorem greedy_mesh_of_solid_chunk (chunk : Chunk) (t : Z) :
  filled_with chunk t -> 1 <= t <= 255 ->
  greedyMeshChunk chunk = six_faces t /\ length (greedyMeshChunk chunk) = 6%nat.
Proof.
  intros Hf Ht.
  assert (E : greedyMeshChunk chunk = six_faces t).
  { unfold greedyMeshChunk. cbn [seq foldl].
    rewrite !(axis_uniform chunk t) by (first [assumption | lia]).
    rewrite !make_face_down, !make_face_up by lia.
    vm_compute. reflexivity. }
  split; [exact E | rewrite E; reflexivity].
Qed.

Lemma greedy_mesh_of_solid_chunk_witness :
  greedyMeshChunk (solid_chunk Block.dirt) = six_faces Block.dirt /\
  length (greedyMeshChunk (solid_chunk Block.dirt)) = 6%nat.
Proof.
  apply (greedy_mesh_of_solid_chunk (solid_chunk Block.dirt) Block.dirt).
  - apply solid_chunk_filled.
  - unfold Block.dirt. lia.
Defined.

End Uniform.
(* ===================================================================== *)
(** * The chunk store: addresses, frames and flags *)
(* ===================================================================== *)

Lemma local_coord_mod (x : Z) : local_coord x = x mod CHUNK_SIZE.
Proof.
  unfold local_coord, CHUNK_SIZE.
  pose proof (Z.rem_bound_abs x 16 ltac:(lia)) as H.
  rewrite Z.rem_mod_nonneg by lia.
  pose proof (Z.quot_rem' x 16) as E.
  replace (Z.rem x 16 + 16) with (x + (1 - Z.quot x 16) * 16) by lia.
  apply Z.mod_add. lia.
Qed.

Lemma block_index_inj (x y z x' y' z' : Z) :
  0 <= x < CHUNK_SIZE -> 0 <= z < CHUNK_SIZE ->
  0 <= x' < CHUNK_SIZE -> 0 <= z' < CHUNK_SIZE ->
  block_index x y z = block_index x' y' z' -> x = x' /\ y = y' /\ z = z'.
Proof. unfold block_index, CHUNK_SIZE. lia. Qed.

Lemma chunk_local_inj (x x' : Z) :
  chunk_coord x = chunk_coord x' -> local_coord x = local_coord x' -> x = x'.
Proof.
  rewrite !local_coord_mod. unfold chunk_coord, CHUNK_SIZE. intros Hq Hr.
  rewrite (Z.div_mod x 16), (Z.div_mod x' 16) by lia. congruence.
Qed.

Lemma address_inj (x y z x' y' z' : Z) :
  chunk_key x z = chunk_key x' z' -> cell_index x y z = cell_index x' y' z' ->
  (x, y, z) = (x', y', z').
Proof.
  intros Hk Hi. unfold chunk_key in Hk. injection Hk as Hx Hz.
  apply block_index_inj in Hi as (Hlx & -> & Hlz); try apply local_coord_range.
  rewrite (chunk_local_inj x x' Hx Hlx), (chunk_local_inj z z' Hz Hlz). reflexivity.
Qed.

(** X1. A world coordinate splits in one way into the coordinate of a chunk
    and a local coordinate between 0 and 15, also when it is negative; so
    two blocks that [getBlock] and [setBlock] look up under the same chunk
    key and the same index of the grid are the same block. *)
Theorem coordinate_split (x : Z) :
  0 <= local_coord x < CHUNK_SIZE /\
  x = chunk_coord x * CHUNK_SIZE + local_coord x /\
  (forall c l, 0 <= l < CHUNK_SIZE -> x = c * CHUNK_SIZE + l ->
               c = chunk_coord x /\ l = local_coord x) /\
  (forall y z x' y' z',
     chunk_key x z = chunk_key x' z' -> cell_index x y z = cell_index x' y' z' ->
     (x, y, z) = (x', y', z')).
Proof.
  split; [apply local_coord_range |]. split; [| split].
  - rewrite local_coord_mod. unfold chunk_coord, CHUNK_SIZE.
    pose proof (Z.div_mod x 16 ltac:(lia)). lia.
  - intros c l Hl E. rewrite local_coord_mod. unfold chunk_coord, CHUNK_SIZE in *.
    subst x. split.
    + rewrite Z.div_add_l by lia. rewrite Z.div_small by lia. lia.
    + rewrite Z.add_comm, Z.mod_add by lia. rewrite Z.mod_small by lia. reflexivity.
  - intros y z x' y' z'. apply address_inj.
Qed.

Lemma generateChunk_lookup_ne (w : World) (cx cz : Z) (k : Z * Z) :
  k <> (cx, cz) -> chunks (generateChunk w cx cz) !! k = chunks w !! k.
Proof.
  intros Hne. unfold generateChunk.
  destruct (chunks w !! (cx, cz)); [reflexivity |].
  destruct (Gen.fill _ _ _ _) as [u s]. cbn [chunks].
  apply lookup_insert_ne. congruence.
Qed.

Lemma generateChunk_is_Some (w : World) (cx cz : Z) :
  is_Some (chunks (generateChunk w cx cz) !! (cx, cz)).
Proof.
  unfold generateChunk.
  destruct (chunks w !! (cx, cz)) eqn:E; [rewrite E; eauto |].
  destruct (Gen.fill _ _ _ _) as [u s]. cbn [chunks].
  rewrite lookup_insert_eq. eauto.
Qed.

Lemma mark_lookup (k0 k : Z * Z) (cs : gmap (Z * Z) Chunk) :
  mark k0 cs !! k = flag_if (bool_decide (k = k0)) <$> cs !! k.
Proof.
  unfold mark. destruct (decide (k = k0)) as [->|Hne].
  - rewrite lookup_alter_eq, bool_decide_true by reflexivity.
    destruct (cs !! k0) as [c|]; [| reflexivity]. cbn. unfold flag_if.
    rewrite orb_true_r. reflexivity.
  - rewrite lookup_alter_ne, bool_decide_false by congruence.
    destruct (cs !! k) as [[] |]; [| reflexivity]. cbn. unfold flag_if. cbn.
    rewrite orb_false_r. reflexivity.
Qed.

Lemma mark_if_lookup (b : bool) (k0 k : Z * Z) (cs : gmap (Z * Z) Chunk) :
  (if b then mark k0 cs else cs) !! k = flag_if (b && bool_decide (k = k0)) <$> cs !! k.
Proof.
  destruct b; [apply mark_lookup |]. cbn.
  destruct (cs !! k) as [[] |]; [| reflexivity]. cbn. unfold flag_if. cbn.
  rewrite orb_false_r. reflexivity.
Qed.

Lemma flag_if_flag_if (a b : bool) (c : Chunk) :
  flag_if b (flag_if a c) = flag_if (a || b) c.
Proof. unfold flag_if. cbn. rewrite orb_assoc. reflexivity. Qed.

(** Every chunk of the store after an in-range [setBlock]: the chunk of the
    written column holds the new grid and is flagged; the others keep their
    grids and are flagged when the column lies on their border. *)
Lemma setBlock_lookup (w : World) (x y z t : Z) (k : Z * Z) :
  0 <= y < WORLD_HEIGHT ->
  chunks (setBlock w x y z t) !! k =
  if decide (k = chunk_key x z)
  then (fun c => mkChunk (chunk_x c) (chunk_z c)
                   (TypedArray.set_u8 (blocks c) (cell_index x y z) t) true)
       <$> chunks (generateChunk w (chunk_coord x) (chunk_coord z)) !! k
  else flag_if (flagged x z k) <$> chunks w !! k.
Proof.
  intros Hy. unfold setBlock, chunk_key, cell_index.
  replace ((y <? 0) || (WORLD_HEIGHT <=? y)) with false
    by (symmetry; apply orb_false_iff; split; [apply Z.ltb_ge | apply Z.leb_gt]; lia).
  set (cx := chunk_coord x). set (cz := chunk_coord z).
  replace (match chunks w !! (cx, cz) with
           | Some _ => w
           | None => generateChunk w cx cz
           end) with (generateChunk w cx cz)
    by (unfold generateChunk; destruct (chunks w !! (cx, cz)); reflexivity).
  destruct (generateChunk_is_Some w cx cz) as [c Hc]. rewrite Hc. cbn [chunks].
  rewrite !mark_if_lookup. rewrite <- !option_fmap_compose.
  destruct (decide (k = (cx, cz))) as [->|Hne].
  - rewrite lookup_insert_eq, Hc. cbn. unfold flag_if. cbn. reflexivity.
  - rewrite lookup_insert_ne by congruence.
    rewrite generateChunk_lookup_ne by exact Hne.
    destruct (chunks w !! k) as [c0|]; [| reflexivity]. cbn.
    rewrite !flag_if_flag_if. unfold flagged. fold cx cz.
    rewrite !orb_assoc. reflexivity.
Qed.

Lemma get_set_u8_ne (a : TypedArray.Uint8Array) (i j v : Z) :
  i <> j -> TypedArray.get (TypedArray.set_u8 a i v) j = TypedArray.get a j.
Proof.
  intros Hne. unfold TypedArray.get, TypedArray.set_u8.
  destruct (TypedArray.in_range a i) eqn:E; [| reflexivity].
  unfold TypedArray.in_range. cbn. rewrite lookup_insert_ne by exact Hne. reflexivity.
Qed.

Lemma getBlock_eq (w : World) (x y z : Z) :
  getBlock w x y z =
  if (y <? 0) || (WORLD_HEIGHT <=? y) then Block.air
  else match chunks w !! chunk_key x z with
       | None => Block.air
       | Some c => or_air (TypedArray.get (blocks c) (cell_index x y z))
       end.
Proof. reflexivity. Qed.

(** A write leaves every other cell as it was, when it does not bring a
    new chunk into the store. *)
Lemma setBlock_other (w : World) (x y z t x' y' z' : Z) :
  is_Some (chunks w !! chunk_key x z) \/ chunk_key x' z' <> chunk_key x z ->
  (x', y', z') <> (x, y, z) ->
  getBlock (setBlock w x y z t) x' y' z' = getBlock w x' y' z'.
Proof.
  intros Hst Hne.
  destruct (decide (0 <= y < WORLD_HEIGHT)) as [Hy | Hy];
    [| rewrite setBlock_out_of_range by lia; reflexivity].
  rewrite !getBlock_eq.
  destruct ((y' <? 0) || (WORLD_HEIGHT <=? y')) eqn:Ey'; [reflexivity |].
  rewrite setBlock_lookup by exact Hy.
  destruct (decide (chunk_key x' z' = chunk_key x z)) as [Ek | Ek].
  - destruct Hst as [[c Hc] | ?]; [| contradiction].
    rewrite Ek. unfold chunk_key at 1.
    rewrite (generateChunk_stored w _ _ c Hc). fold (chunk_key x z). rewrite Hc. cbn.
    rewrite get_set_u8_ne; [reflexivity |].
    intros Ei. apply Hne. symmetry. apply address_inj; [symmetry; exact Ek | exact Ei].
  - destruct (chunks w !! chunk_key x' z') as [c|]; reflexivity.
Qed.

(** X2. [setBlock] changes one block: any other block reads as before,
    when the chunk of the written block was there or the other block lies
    in another chunk.  (A chunk that [setBlock] has to generate brings its
    own terrain.) *)
Theorem setBlock_frame (w : World) (x y z t x' y' z' : Z) :
  is_Some (chunks w !! chunk_key x z) \/ chunk_key x' z' <> chunk_key x z ->
  (x', y', z') <> (x, y, z) ->
  getBlock (setBlock w x y z t) x' y' z' = getBlock w x' y' z'.
Proof. apply setBlock_other. Qed.

Lemma air_world_stored :
  chunks air_world !! (0, 0) = Some (mkChunk 0 0 (TypedArray.new grid_size) false).
Proof. apply lookup_singleton_eq. Qed.

Lemma setBlock_frame_witness :
  getBlock (setBlock air_world 1 2 3 Block.stone) 1 2 4 = getBlock air_world 1 2 4.
Proof.
  apply (setBlock_frame air_world 1 2 3 Block.stone 1 2 4).
  - left. exists (mkChunk 0 0 (TypedArray.new grid_size) false). exact air_world_stored.
  - intros H. discriminate H.
Defined.

(** X3. [setBlock] at a height inside the world adds at most the chunk of
    the block to the stored chunks and removes none; outside this height it
    leaves the stored chunks as they are. *)
Theorem setBlock_stores_one_chunk (w : World) (x y z t : Z) :
  (0 <= y < WORLD_HEIGHT ->
     dom (chunks (setBlock w x y z t)) = {[ chunk_key x z ]} ∪ dom (chunks w)) /\
  (y < 0 \/ WORLD_HEIGHT <= y ->
     dom (chunks (setBlock w x y z t)) = dom (chunks w)).
Proof.
  split.
  - intros Hy. apply set_eq. intros k.
    rewrite elem_of_union, elem_of_singleton, !elem_of_dom.
    rewrite setBlock_lookup by exact Hy.
    destruct (decide (k = chunk_key x z)) as [-> | Hne].
    + rewrite fmap_is_Some. split; [auto |]. intros _. apply generateChunk_is_Some.
    + rewrite fmap_is_Some. tauto.
  - intros Hy. rewrite setBlock_out_of_range by exact Hy. reflexivity.
Qed.

(** X4. After [setBlock] at a height inside the world the chunk of the
    block is flagged for a new mesh, and so are the stored neighbours
    across a border of the chunk on which the block lies.  Every other
    stored chunk is unchanged, the neighbours keep their blocks, and no
    other chunk appears. *)
Theorem setBlock_flags (w : World) (x y z t : Z) :
  0 <= y < WORLD_HEIGHT ->
  (exists c, chunks (setBlock w x y z t) !! chunk_key x z = Some c /\ needsUpdate c = true) /\
  (forall k c, k <> chunk_key x z -> chunks w !! k = Some c ->
     chunks (setBlock w x y z t) !! k = Some (flag_if (flagged x z k) c)) /\
  (forall k, k <> chunk_key x z -> chunks w !! k = None ->
     chunks (setBlock w x y z t) !! k = None).
Proof.
  intros Hy. split; [| split].
  - rewrite setBlock_lookup by exact Hy. rewrite decide_True by reflexivity.
    destruct (generateChunk_is_Some w (chunk_coord x) (chunk_coord z)) as [c Hc].
    unfold chunk_key. rewrite Hc. cbn. eauto.
  - intros k c Hne Hk. rewrite setBlock_lookup by exact Hy.
    rewrite decide_False by exact Hne. rewrite Hk. reflexivity.
  - intros k Hne Hk. rewrite setBlock_lookup by exact Hy.
    rewrite decide_False by exact Hne. rewrite Hk. reflexivity.
Qed.

Lemma setBlock_flags_witness :
  (exists c, chunks (setBlock air_world 16 2 3 Block.stone) !! chunk_key 16 3 = Some c
             /\ needsUpdate c = true) /\
  chunks (setBlock air_world 16 2 3 Block.stone) !! (0, 0)
  = Some (mkChunk 0 0 (TypedArray.new grid_size) true).
Proof.
  assert (Hy : 0 <= 2 < WORLD_HEIGHT) by (unfold WORLD_HEIGHT; lia).
  split.
  - apply (setBlock_flags air_world 16 2 3 Block.stone Hy).
  - apply (proj1 (proj2 (setBlock_flags air_world 16 2 3 Block.stone Hy)) (0, 0)
             (mkChunk 0 0 (TypedArray.new grid_size) false)).
    + intros H. discriminate H.
    + exact air_world_stored.
Defined.
(* ===================================================================== *)
(** * The terrain generator: what it writes *)
(* ===================================================================== *)

Section GenTerrain.
Import Gen.

Lemma terrain_write (i v : Z) : terrain_block v -> keeps terrain (write i v).
Proof.
  intros Hv s H k u Hk. unfold write, TypedArray.set_u8 in Hk. cbn in Hk.
  destruct (TypedArray.in_range _ _); [| eapply H; exact Hk].
  cbn [TypedArray.cells] in Hk.
  apply lookup_insert_Some in Hk as [[_ <-] | [_ Hk]].
  - unfold terrain_block in *. rewrite Z.mod_small by lia. exact Hv.
  - eapply H. exact Hk.
Qed.

Ltac terrain known :=
  repeat lazymatch goal with
  | |- keeps _ (ret _) => apply keeps_ret
  | |- keeps _ random => apply keeps_random
  | |- keeps _ (read _) => apply keeps_read
  | |- keeps _ (write _ _) =>
      apply terrain_write; unfold terrain_block, Block.grass, Block.dirt, Block.stone,
        Block.cobblestone, Block.logs, Block.leaves;
      repeat match goal with |- context [if ?b then _ else _] => destruct b end; lia
  | |- keeps _ (when _ _) => apply keeps_when
  | |- keeps _ (for_to _ _ _) => apply keeps_for_to; intros ?
  | |- keeps _ (bind _ _) => apply keeps_bind; [| intros ?]
  | |- keeps _ (if ?b then _ else _) => destruct b
  | |- keeps _ (match ?x with _ => _ end) => destruct x
  | |- keeps _ (let _ := _ in _) => cbv zeta
  | |- _ => known
  end.

Lemma terrain_leaf i q : keeps terrain (leaf i q).
Proof. unfold leaf. terrain fail. Qed.

Lemma terrain_trunk x y z h : keeps terrain (trunk x y z h).
Proof. unfold trunk. terrain fail. Qed.

Lemma terrain_generateTree x y z : keeps terrain (generateTree x y z).
Proof.
  unfold generateTree, generateOakTree, generateTallTree, generateLargeTree.
  terrain ltac:(first [apply terrain_trunk | apply terrain_leaf]).
Qed.

Lemma terrain_fill p cx cz : keeps terrain (fill p cx cz).
Proof.
  unfold fill, column. terrain ltac:(apply terrain_generateTree).
Qed.

End GenTerrain.

Lemma terrain_new n : terrain (TypedArray.new n).
Proof. intros i v H. cbn in H. rewrite lookup_empty in H. discriminate. Qed.

Lemma terrain_read (a : TypedArray.Uint8Array) (i : Z) :
  terrain a -> 0 <= or_air (TypedArray.get a i) <= 6.
Proof.
  intros H. unfold TypedArray.get, or_air, Block.air.
  destruct (TypedArray.in_range a i); [| lia].
  destruct (TypedArray.cells a !! i) as [v|] eqn:E; cbn [default from_option];
    unfold id; [| cbn; lia].
  apply H in E. unfold terrain_block in E.
  destruct (v =? 0); lia.
Qed.

(** X5. [generateChunk] on coordinates that have no chunk stores a chunk
    under these coordinates, with these coordinates in it, flagged for a new
    mesh and with a grid of the full size; every block of it is air or one
    of the six block types from stone to leaves, never planks, glass or
    bricks, whatever the random numbers are. *)
Theorem generateChunk_terrain (w : World) (cx cz : Z) :
  chunks w !! (cx, cz) = None ->
  exists c,
    chunks (generateChunk w cx cz) !! (cx, cz) = Some c /\
    chunk_x c = cx /\ chunk_z c = cz /\ needsUpdate c = true /\
    TypedArray.len (blocks c) = grid_size /\
    (forall x y z, 0 <= getBlockInChunk c x y z <= Block.leaves) /\
    (forall x y z,
       chunk_key x z = (cx, cz) ->
       0 <= getBlock (generateChunk w cx cz) x y z <= Block.leaves).
Proof.
  intros Hnone. unfold generateChunk. rewrite Hnone.
  set (s0 := Gen.mkState (TypedArray.new (CHUNK_SIZE * WORLD_HEIGHT * CHUNK_SIZE)) (rand w)).
  pose proof (terrain_fill (perm w) cx cz s0 (terrain_new _)) as Ht.
  pose proof (keeps_fill sized sized_set (perm w) cx cz s0 sized_new) as Hs.
  destruct (Gen.fill (perm w) cx cz s0) as [u s]. cbn [snd] in Ht, Hs.
  eexists. split; [cbn [chunks]; apply lookup_insert_eq |].
  cbn [chunk_x chunk_z needsUpdate blocks]. repeat split; try reflexivity.
  - exact Hs.
  - unfold getBlockInChunk. cbn [blocks].
    destruct (_ || _); [unfold Block.air, Block.leaves; lia |].
    apply terrain_read, Ht.
  - unfold getBlockInChunk. cbn [blocks].
    destruct (_ || _); [unfold Block.air, Block.leaves; lia |].
    apply terrain_read, Ht.
  - rewrite getBlock_eq. destruct (_ || _); [unfold Block.air, Block.leaves; lia |].
    rewrite H. cbn [chunks]. rewrite lookup_insert_eq. cbn [blocks].
    apply (terrain_read _ _ Ht).
  - rewrite getBlock_eq. destruct (_ || _); [unfold Block.air, Block.leaves; lia |].
    rewrite H. cbn [chunks]. rewrite lookup_insert_eq. cbn [blocks].
    apply (terrain_read _ _ Ht).
Qed.
(* ===================================================================== *)
(** * The movement controller: walls and jumps *)
(* ===================================================================== *)

Section Walls.
Import Js Three Player.
Local Open Scope float_scope.

Lemma scan_wall_true (w : World) (sy ey : Z) (cell : Z -> Z * Z * Z) :
  scan_wall w sy ey cell = true <->
  exists y, (sy <= y <= ey)%Z /\
            getBlock w (cell y).1.1 (cell y).1.2 (cell y).2 <> Block.air.
Proof.
  unfold scan_wall. rewrite existsb_exists. split.
  - intros (y & Hin & Hb). apply list_elem_of_In, elem_of_seqZ in Hin.
    exists y. split; [lia |]. apply negb_true_iff, Z.eqb_neq in Hb. exact Hb.
  - intros (y & Hy & Hb). exists y. split.
    + apply list_elem_of_In, elem_of_seqZ. lia.
    + apply negb_true_iff, Z.eqb_neq. exact Hb.
Qed.

Lemma scan_wall_false (w : World) (sy ey : Z) (cell : Z -> Z * Z * Z) :
  scan_wall w sy ey cell = false <->
  forall y, (sy <= y <= ey)%Z ->
            getBlock w (cell y).1.1 (cell y).1.2 (cell y).2 = Block.air.
Proof.
  rewrite <- not_true_iff_false, scan_wall_true. split.
  - intros H y Hy.
    destruct (decide (getBlock w (cell y).1.1 (cell y).1.2 (cell y).2 = Block.air)) as [|N];
      [assumption |].
    exfalso. apply H. eauto.
  - intros H (y & Hy & Hb). apply Hb, H, Hy.
Qed.

(** X6. The pass of [updatePlayer] along x: without velocity along x the
    player takes the new x; otherwise the column of blocks in front of the
    leading side of the box decides: when one of its blocks between the
    feet and the head is not air the player keeps its x and loses the
    velocity along x, and when all are air the player takes the new x. *)
Theorem collideX_pass (w : World) (pl : State) (np : Vector3) :
  let p := position pl in
  let v := velocity pl in
  let box := wall_box_x pl np in
  ((vx v =? 0) = true ->
     collideX w pl np = Some (mkState (vec3 (vx np) (vy p) (vz p)) v (onGround pl), np)) /\
  ((vx v =? 0) = false ->
     forall cx sy ey pz,
       bound (leading (vx v) (vx box.1) (vx box.2)) = Some cx ->
       bound (Math_floor (vy box.1)) = Some sy ->
       bound (Math_floor (vy box.2)) = Some ey ->
       bound (Math_floor (vz p)) = Some pz ->
       ((exists y, (sy <= y <= ey)%Z /\ getBlock w cx y pz <> Block.air) ->
        collideX w pl np =
        Some (mkState p (vec3 0 (vy v) (vz v)) (onGround pl),
              vec3 (vx p) (vy np) (vz np))) /\
       ((forall y, (sy <= y <= ey)%Z -> getBlock w cx y pz = Block.air) ->
        collideX w pl np =
        Some (mkState (vec3 (vx np) (vy p) (vz p)) v (onGround pl), np))).
Proof.
  intros p v box. subst p v box. unfold collideX, wall_box_x, leading.
  destruct (setFromCenterAndSize _ _) as [bmin bmax]. cbn [fst snd].
  split.
  - intros ->. destruct pl as [[] [] ?]. reflexivity.
  - intros -> cx sy ey pz. cbn [negb].
    destruct (0 <? vx (velocity pl)); intros -> -> -> ->; split; intros H.
    all: first [ apply (scan_wall_true w sy ey (fun y => (cx, y, pz))) in H
               | apply (scan_wall_false w sy ey (fun y => (cx, y, pz))) in H ];
      rewrite H; destruct pl as [[] [] ?]; reflexivity.
Qed.

(** X7. The pass of [updatePlayer] along z, as the one along x: a block
    that is not air in front of the leading side of the box stops the player
    along z and clears the velocity along z; otherwise the player takes the
    new z. *)
Theorem collideZ_pass (w : World) (pl : State) (np : Vector3) :
  let p := position pl in
  let v := velocity pl in
  let box := wall_box_z pl np in
  ((vz v =? 0) = true ->
     collideZ w pl np = Some (mkState (vec3 (vx p) (vy p) (vz np)) v (onGround pl), np)) /\
  ((vz v =? 0) = false ->
     forall cz sy ey px,
       bound (leading (vz v) (vz box.1) (vz box.2)) = Some cz ->
       bound (Math_floor (vy box.1)) = Some sy ->
       bound (Math_floor (vy box.2)) = Some ey ->
       bound (Math_floor (vx p)) = Some px ->
       ((exists y, (sy <= y <= ey)%Z /\ getBlock w px y cz <> Block.air) ->
        collideZ w pl np =
        Some (mkState p (vec3 (vx v) (vy v) 0) (onGround pl),
              vec3 (vx np) (vy np) (vz p))) /\
       ((forall y, (sy <= y <= ey)%Z -> getBlock w px y cz = Block.air) ->
        collideZ w pl np =
        Some (mkState (vec3 (vx p) (vy p) (vz np)) v (onGround pl), np))).
Proof.
  intros p v box. subst p v box. unfold collideZ, wall_box_z, leading.
  destruct (setFromCenterAndSize _ _) as [bmin bmax]. cbn [fst snd].
  split.
  - intros ->. destruct pl as [[] [] ?]. reflexivity.
  - intros -> cz sy ey px. cbn [negb].
    destruct (0 <? vz (velocity pl)); intros -> -> -> ->; split; intros H.
    all: first [ apply (scan_wall_true w sy ey (fun y => (px, y, cz))) in H
               | apply (scan_wall_false w sy ey (fun y => (px, y, cz))) in H ];
      rewrite H; destruct pl as [[] [] ?]; reflexivity.
Qed.

End Walls.

Section Jump.
Import Js Three Player.
Local Open Scope float_scope.

Lemma applyFriction_position (pl : State) :
  position (applyFriction pl) = position pl /\ onGround (applyFriction pl) = onGround pl.
Proof.
  unfold applyFriction.
  repeat match goal with |- context [if ?b then _ else _] => destruct b end; auto.
Qed.

Lemma accelerate_position (pl : State) (d : Vector3) (s a : float) :
  position (accelerate pl d s a) = position pl /\
  onGround (accelerate pl d s a) = onGround pl.
Proof.
  unfold accelerate.
  repeat match goal with |- context [if ?b then _ else _] => destruct b end; auto.
Qed.

Lemma move_jump (pl : State) (d : Vector3) :
  onGround pl = true ->
  position (move pl d true) = position pl /\
  vy (velocity (move pl d true)) = JUMP_IMPULSE - GRAVITY /\
  onGround (move pl d true) = false.
Proof.
  intros Hg. unfold move. rewrite Hg. cbn.
  destruct (accelerate_position (applyFriction pl) d MAX_SPEED_GROUND ACCEL_GROUND) as [-> _].
  destruct (applyFriction_position pl) as [-> _]. auto.
Qed.

Lemma collideY_rising (w : World) (pl : State) (np : Vector3) :
  (vy (velocity pl) <=? 0) = false ->
  collideY w pl np =
  Some (mkState (vec3 (vx (position pl)) (vy np) (vz (position pl))) (velocity pl) false, np).
Proof. intros H. unfold collideY. cbn [position velocity onGround]. rewrite H. reflexivity. Qed.

(** X8. Jumping, when the player is not flying: with Space held on the
    ground the player leaves the ground in this tick with the upward
    velocity 0.19 and rises by 0.19, whatever blocks are above; from rest
    this is the whole movement.  In the air Space has no effect. *)
Theorem jump_tick (w : World) :
  (forall pl keys forward right pl',
     onGround pl = true -> Space keys = true ->
     updatePlayer w pl false keys forward right = Some pl' ->
     onGround pl' = false /\
     vy (velocity pl') = 0.19 /\
     vy (position pl') = vy (position pl) + 0.19) /\
  (forall p forward right,
     updatePlayer w (mkState p (vec3 0 0 0) true) false only_space forward right
     = Some (mkState (vec3 (vx p + 0) (vy p + 0.19) (vz p + 0)) (vec3 0 0.19 0) false)) /\
  (forall pl keys forward right,
     onGround pl = false ->
     updatePlayer w pl false keys forward right
     = updatePlayer w pl false (release_space keys) forward right).
Proof.
  split; [| split].
  - intros pl keys forward right pl' Hg Hs H.
    apply updatePlayer_vertical in H. cbv zeta in H. rewrite Hs in H.
    destruct H as (r & Hr & H1 & H2 & H3).
    set (wish := getWishDirection keys forward right) in *.
    destruct (move_jump pl wish Hg) as (Hp & Hv & Ho).
    remember (move pl wish true) as moved eqn:Em.
    rewrite collideY_rising in Hr
      by (rewrite Hv; vm_compute; reflexivity).
    injection Hr as <-. cbn [fst position velocity onGround vx vy vz add] in H1, H2, H3.
    rewrite H1, H2, H3, Hv, Hp. repeat split; vm_compute; reflexivity.
  - intros p forward right. unfold updatePlayer, only_space.
    cbn [Space]. 
    replace (getWishDirection _ forward right) with (vec3 0 0 0)
      by (vm_compute; reflexivity).
    replace (move (mkState p (vec3 0 0 0) true) (vec3 0 0 0) true)
      with (mkState p (vec3 0 0.19 0) false) by (vm_compute; reflexivity).
    cbn [position velocity]. unfold collideY, collideX, collideZ.
    cbn [position velocity onGround vx vy vz add].
    replace (0.19 <=? 0) with false by (vm_compute; reflexivity).
    replace (0 =? 0) with true by (vm_compute; reflexivity).
    reflexivity.
  - intros pl keys forward right Hg. unfold updatePlayer.
    replace (getWishDirection (release_space keys) forward right)
      with (getWishDirection keys forward right) by reflexivity.
    unfold move. rewrite Hg. reflexivity.
Qed.

End Jump.
(* ===================================================================== *)
(** * The input handlers *)
(* ===================================================================== *)

Section InputKeys.
Import Js Three Input.

Lemma indexOf_from_notin (l : list string) (x : string) (i : Z) :
  x ∉ l -> indexOf_from l x i = -1.
Proof.
  revert i. induction l as [|a l IH]; intros i Hx; [reflexivity |].
  cbn. apply not_elem_of_cons in Hx as [Hne Hx].
  destruct (String.eqb_spec a x) as [E | _]; [congruence |]. apply IH, Hx.
Qed.

Lemma block_value_range (name : option string) : 0 <= block_value name <= 9.
Proof.
  unfold block_value, BLOCKS, BLOCKS_table.
  cbn [prop_get].
  repeat (destruct (String.eqb _ _); [lia |]). lia.
Qed.

(** X9. The digit keys select the blocks: the key of each entry of
    [blockTypes] selects that block, whose number in [BLOCKS] is its place
    in the list; every other key leaves the selection alone, and no key
    changes the pointer lock. *)
Theorem digit_keys_select (s : State) :
  (forall i name,
     blockTypes !! i = Some name ->
     exists code,
       blockKeys !! i = Some code /\
       selectedBlock (keydown s code) = Some name /\
       BLOCKS name = JsNum (Z.of_nat i + 1) /\
       block_value (selectedBlock (keydown s code)) = Z.of_nat i + 1) /\
  (forall code, code ∉ blockKeys -> selectedBlock (keydown s code) = selectedBlock s) /\
  (forall code, mouseLocked (keydown s code) = mouseLocked s).
Proof.
  split; [| split].
  - intros i name Hi.
    do 9 (destruct i as [|i];
          [injection Hi as <-; eexists; split; [reflexivity |]; repeat split |]).
    discriminate Hi.
  - intros code Hc. unfold keydown, indexOf. cbn [selectedBlock].
    rewrite (indexOf_from_notin _ _ _ Hc). reflexivity.
  - reflexivity.
Qed.

Lemma set_key_other (ks : gmap string bool) (code other : string) (b : bool) :
  other <> code ->
  set_key ks code b !! other = ks !! other.
Proof.
  intros Hne. unfold set_key. destruct (String.eqb code "__proto__"); [reflexivity |].
  apply lookup_insert_ne. congruence.
Qed.

(** X10. The table of held keys follows the events: a key is held after
    its [keydown] and, unless its code is [__proto__], released after its
    [keyup]; other keys are untouched.  At the start exactly the codes that
    name a property of [Object.prototype] read as held, and the code
    [__proto__] reads as held whatever the events were.  KeyF toggles flying
    on [keydown] only; [keyup] changes neither flying nor the selected
    block. *)
Theorem keys_follow_events (s : State) (code : string) :
  pressed (keydown s code) code = true /\
  (code <> "__proto__"%string ->
     pressed (keyup s code) code = false /\
     pressed (keyup (keydown s code) code) code = false) /\
  (forall other, other <> code ->
     pressed (keydown s code) other = pressed s other /\
     pressed (keyup s code) other = pressed s other) /\
  (forall other, pressed initial other = bool_decide (other ∈ Object_prototype)) /\
  (forall other, other ∉ Object_prototype -> pressed initial other = false) /\
  pressed s "__proto__" = true /\
  isFlying (keydown s "KeyF") = negb (isFlying s) /\
  isFlying (keydown (keydown s "KeyF") "KeyF") = isFlying s /\
  (code <> "KeyF"%string -> isFlying (keydown s code) = isFlying s) /\
  isFlying (keyup s code) = isFlying s /\
  selectedBlock (keyup s code) = selectedBlock s.
Proof.
  assert (Hinit : forall other, pressed initial other = bool_decide (other ∈ Object_prototype)).
  { intros other. unfold pressed, initial. cbn [keys]. rewrite lookup_empty.
    destruct (String.eqb_spec other "__proto__") as [-> | _]; [| reflexivity].
    symmetry. apply bool_decide_eq_true. unfold Object_prototype.
    do 10 apply list_elem_of_further. apply list_elem_of_here. }
  split; [| split; [| split; [| split; [| split; [| split]]]]].
  - unfold pressed, keydown, set_key. cbn [keys].
    destruct (String.eqb code "__proto__"); [reflexivity |].
    rewrite lookup_insert_eq. reflexivity.
  - intros Hne. unfold pressed, keyup, keydown, set_key. cbn [keys].
    destruct (String.eqb_spec code "__proto__") as [E | _]; [congruence |].
    rewrite !lookup_insert_eq. split; reflexivity.
  - intros other Hne. unfold pressed, keydown, keyup. cbn [keys].
    rewrite !set_key_other by exact Hne. split; reflexivity.
  - exact Hinit.
  - intros other Hn. rewrite Hinit. apply bool_decide_eq_false. exact Hn.
  - reflexivity.
  - unfold keydown, keyup. cbn [isFlying selectedBlock]. repeat split.
    + cbn. apply negb_involutive.
    + intros Hne. destruct (String.eqb_spec code "KeyF") as [E | _]; [congruence | reflexivity].
Qed.

End InputKeys.

Section InputMouse.
Import Js Three Input Pick.
Local Open Scope float_scope.

Lemma march_hit (fuel : nat) (w : World) (ray : Ray) (t : float) (hit : Hit) :
  march fuel w ray t = Some hit -> exists t', probe w ray t' = Some hit.
Proof.
  revert t. induction fuel as [|fuel IH]; intros t H; [discriminate |].
  cbn [march] in H. destruct (t <? 10); [| discriminate].
  destruct (probe w ray t) as [h|] eqn:E.
  - injection H as <-. eauto.
  - eapply IH. exact H.
Qed.

Lemma getBlock_solid (w : World) (x y z : Z) :
  getBlock w x y z <> Block.air ->
  (0 <= y < WORLD_HEIGHT)%Z /\ is_Some (chunks w !! chunk_key x z).
Proof.
  rewrite getBlock_eq. intros H.
  destruct ((y <? 0)%Z || (WORLD_HEIGHT <=? y)%Z) eqn:E; [congruence |].
  apply orb_false_iff in E as [E1 E2]. apply Z.ltb_ge in E1. apply Z.leb_gt in E2.
  split; [lia |]. destruct (chunks w !! chunk_key x z); [eauto | congruence].
Qed.

(** The position of a hit is a cell of a stored chunk, within the height
    of the world, that is not air. *)
Lemma hit_cell (w : World) (ray : Ray) (hit : Hit) :
  getVoxelIntersection w ray = Some hit ->
  exists x y z,
    cell_of (hit_position hit) = Some (x, y, z) /\
    getBlock w x y z <> Block.air /\
    (0 <= y < WORLD_HEIGHT)%Z /\ is_Some (chunks w !! chunk_key x z).
Proof.
  intros H. apply march_hit in H as [t H]. apply probe_Some in H as [Hb ->].
  cbn [hit_position]. unfold sample_block, block_at in Hb. unfold cell_of.
  destruct (finite_int (vx _)) as [x|]; [| congruence].
  destruct (finite_int (vy _)) as [y|]; [| congruence].
  destruct (finite_int (vz _)) as [z|]; [| congruence].
  exists x, y, z. split; [reflexivity |]. split; [exact Hb |].
  apply getBlock_solid, Hb.
Qed.

Lemma setBlock_at_cell (w : World) (v : Vector3) (t x y z : Z) :
  cell_of v = Some (x, y, z) -> setBlock_at w v t = Some (setBlock w x y z t).
Proof.
  unfold cell_of, setBlock_at. intros H.
  destruct (finite_int (vx v)); [| discriminate].
  destruct (finite_int (vy v)); [| discriminate].
  destruct (finite_int (vz v)); [| discriminate].
  injection H as -> -> ->. reflexivity.
Qed.

(** X11. A left click, with the pointer locked, on a ray that hits a block
    removes this block: the hit cell held a block and is air afterwards,
    every other block is unchanged, and no chunk is generated. *)
Theorem left_click_removes_the_picked_block
    (s : State) (w : World) (playerPosition : Vector3) (ray : Ray) (hit : Hit) :
  wf_world w -> mouseLocked s = true ->
  getVoxelIntersection w ray = Some hit ->
  exists x y z w',
    cell_of (hit_position hit) = Some (x, y, z) /\
    getBlock w x y z <> Block.air /\
    mousedown s w playerPosition ray 0 = Some w' /\
    getBlock w' x y z = Block.air /\
    (forall x' y' z', (x', y', z') <> (x, y, z) ->
                      getBlock w' x' y' z' = getBlock w x' y' z') /\
    dom (chunks w') = dom (chunks w).
Proof.
  intros Hwf Hl Hh.
  destruct (hit_cell w ray hit Hh) as (x & y & z & Hc & Hb & Hy & Hst).
  exists x, y, z, (setBlock w x y z Block.air).
  split; [exact Hc |]. split; [exact Hb |]. split; [| split; [| split]].
  - unfold mousedown. rewrite Hl, Hh. cbn. unfold breakBlock.
    apply setBlock_at_cell, Hc.
  - rewrite getBlock_setBlock_byte by assumption. reflexivity.
  - intros x' y' z' Hne. apply setBlock_other; [left; exact Hst | exact Hne].
  - apply set_eq. intros k. rewrite !elem_of_dom, setBlock_lookup by exact Hy.
    destruct (decide (k = chunk_key x z)) as [-> | Hne].
    + destruct Hst as [c Hc']. unfold chunk_key at 1.
      rewrite (generateChunk_stored w _ _ c Hc'). fold (chunk_key x z).
      rewrite fmap_is_Some. tauto.
    + rewrite fmap_is_Some. tauto.
Qed.

Lemma one_block_world_wf : wf_world one_block_world.
Proof.
  intros k c H. unfold one_block_world in H. cbn [chunks] in H.
  apply lookup_singleton_Some in H as [_ <-]. reflexivity.
Qed.

Lemma left_click_removes_the_picked_block_witness :
  exists x y z w',
    cell_of (hit_position (mkHit (vec3 0 9 0) (vec3 0 1 0))) = Some (x, y, z) /\
    getBlock one_block_world x y z <> Block.air /\
    mousedown locked one_block_world (vec3 0.5 10 0.5) ray_in_block 0 = Some w' /\
    getBlock w' x y z = Block.air /\
    (forall x' y' z', (x', y', z') <> (x, y, z) ->
                      getBlock w' x' y' z' = getBlock one_block_world x' y' z') /\
    dom (chunks w') = dom (chunks one_block_world).
Proof.
  apply (left_click_removes_the_picked_block locked one_block_world (vec3 0.5 10 0.5)
           ray_in_block (mkHit (vec3 0 9 0) (vec3 0 1 0))).
  - exact one_block_world_wf.
  - reflexivity.
  - vm_compute. reflexivity.
Defined.

Lemma getBlock_setBlock_value (w : World) (x y z : Z) (name : option string) :
  wf_world w -> (0 <= y < WORLD_HEIGHT)%Z ->
  getBlock (setBlock w x y z (block_value name)) x y z = block_value name.
Proof.
  intros Hwf Hy. rewrite getBlock_setBlock_byte by assumption.
  pose proof (block_value_range name). apply Z.mod_small. lia.
Qed.

(** X12. [placeBlock] never places a block into the cell of the player's
    feet or into the cell above it: the world is then unchanged.  Anywhere
    else it sets the cell next to the hit face to the selected block, which
    reads back when the cell is inside the height of the world.  A selection
    that names no block places air. *)
Theorem placeBlock_spares_the_player
    (w : World) (s : State) (playerPosition position normal : Vector3) :
  let newPos := add position normal in
  let feet := floor playerPosition in
  (equals newPos feet = true \/ equals newPos (add feet (vec3 0 1 0)) = true ->
     placeBlock w s playerPosition position normal = Some w) /\
  (equals newPos feet = false -> equals newPos (add feet (vec3 0 1 0)) = false ->
     forall x y z,
       cell_of newPos = Some (x, y, z) ->
       placeBlock w s playerPosition position normal
       = Some (setBlock w x y z (block_value (selectedBlock s))) /\
       (wf_world w -> (0 <= y < WORLD_HEIGHT)%Z ->
        getBlock (setBlock w x y z (block_value (selectedBlock s))) x y z
        = block_value (selectedBlock s))) /\
  (forall name : string, name ∉ BLOCKS_table.*1 -> block_value (Some name) = Block.air) /\
  block_value None = Block.air.
Proof.
  intros newPos feet. subst newPos feet. unfold placeBlock. split; [| split; [| split]].
  - intros [-> | ->]; [reflexivity | rewrite orb_true_r; reflexivity].
  - intros -> -> x y z Hc. cbn [orb]. split.
    + apply setBlock_at_cell, Hc.
    + apply getBlock_setBlock_value.
  - intros name Hn. unfold block_value, BLOCKS. cbn [default from_option id].
    unfold id. revert Hn. generalize BLOCKS_table.
    induction l as [|[k v] l IH]; intros Hn; [reflexivity |].
    cbn in Hn. apply not_elem_of_cons in Hn as [Hne Hn]. cbn [prop_get].
    destruct (String.eqb_spec k name) as [E | _]; [congruence |]. apply IH, Hn.
  - reflexivity.
Qed.

End InputMouse.

Section InputLook.
Import Js Three Input.
Local Open Scope float_scope.

Lemma ltb_leb (a b : float) : (a <? b) = true -> (a <=? b) = true.
Proof.
  intros H. apply ltb_key in H as (ka & kb & Ha & Hb & L).
  apply leb_key. exists ka, kb. split; [exact Ha |]. split; [exact Hb |].
  apply lex_lt_asym, L.
Qed.

(** The clamp of the pitch, on a value that is a number. *)
Lemma clamp_pitch (t : float) :
  is_nan t = false ->
  let y := Math_max (- Math_PI / 2) (Math_min (Math_PI / 2) t) in
  (- Math_PI / 2 <=? y) = true /\ (y <=? Math_PI / 2) = true.
Proof.
  intros Ht. cbv zeta.
  set (lo := - Math_PI / 2). set (hi := Math_PI / 2).
  assert (Hlo : is_nan lo = false) by (vm_compute; reflexivity).
  assert (Hhi : is_nan hi = false) by (vm_compute; reflexivity).
  assert (Hll : (lo <=? lo) = true) by (vm_compute; reflexivity).
  assert (Hlh : (lo <=? hi) = true) by (vm_compute; reflexivity).
  assert (Hhh : (hi <=? hi) = true) by (vm_compute; reflexivity).
  assert (Hm : exists m, Math_min hi t = m /\ is_nan m = false /\ (m <=? hi) = true).
  { unfold Math_min. rewrite Hhi, Ht. cbn [orb].
    replace (hi =? 0) with false by (vm_compute; reflexivity).
    destruct (hi <? t); [eauto |].
    destruct (t <? hi) eqn:E; [| eauto].
    exists t. split; [reflexivity |]. split; [exact Ht | apply ltb_leb, E]. }
  destruct Hm as (m & -> & Hm & Hmh).
  unfold Math_max. rewrite Hlo, Hm. cbn [orb].
  replace (lo =? 0) with false by (vm_compute; reflexivity).
  destruct (lo <? m) eqn:E; [split; [apply ltb_leb, E | exact Hmh] |].
  destruct (m <? lo); auto.
Qed.

(** X13. [mousemove] does nothing while the pointer is not locked.
    While it is locked the yaw moves by 0.002 per pixel without bound, and
    the pitch moves by 0.002 per pixel and is clamped between -PI/2 and
    PI/2: it stays within these bounds, is the moved value itself when that
    lies within them, and is not a number only when the moved value is. *)
Theorem mousemove_clamps_the_pitch (s : State) (movementX movementY : float) :
  (mouseLocked s = false -> mousemove s movementX movementY = s) /\
  (mouseLocked s = true ->
     let t := mouseY s + movementY * 0.002 in
     let s' := mousemove s movementX movementY in
     mouseX s' = mouseX s + movementX * 0.002 /\
     (is_nan t = true -> mouseY s' = nan) /\
     (is_nan t = false ->
        (- Math_PI / 2 <=? mouseY s') = true /\ (mouseY s' <=? Math_PI / 2) = true) /\
     ((- Math_PI / 2 <=? t) = true -> (t <=? Math_PI / 2) = true ->
        (mouseY s' =? t) = true)).
Proof.
  unfold mousemove. split; [intros ->; reflexivity |].
  intros ->. cbv zeta. cbn [mouseX mouseY]. split; [reflexivity |]. split; [| split].
  - intros Ht. unfold Math_min at 1. rewrite Ht, orb_true_r.
    unfold Math_max. replace (is_nan nan) with true by reflexivity.
    rewrite orb_true_r. reflexivity.
  - apply clamp_pitch.
  - intros H1 H2.
    set (t := mouseY s + movementY * 0.002) in *.
    set (lo := - Math_PI / 2) in *. set (hi := Math_PI / 2) in *.
    assert (Hlo : is_nan lo = false) by (vm_compute; reflexivity).
    assert (Hhi : is_nan hi = false) by (vm_compute; reflexivity).
    apply leb_key in H1 as (kl & kt & Kl & Kt & L1).
    apply leb_key in H2 as (kt' & kh & Kt' & Kh & L2).
    rewrite Kt in Kt'. injection Kt' as <-.
    assert (Ht : is_nan t = false) by (apply is_nan_key; rewrite Kt; eauto).
    assert (Eh : (hi <? t) = false).
    { apply not_true_iff_false. intros C. apply ltb_key in C as (a & b & A & B & L).
      rewrite Kh in A. rewrite Kt in B. simplify_eq. contradiction. }
    assert (El : (t <? lo) = false).
    { apply not_true_iff_false. intros C. apply ltb_key in C as (a & b & A & B & L).
      rewrite Kt in A. rewrite Kl in B. simplify_eq. contradiction. }
    assert (Hm : (Math_min hi t =? t) = true /\ is_nan (Math_min hi t) = false
                 /\ (Math_min hi t <? lo) = false).
    { unfold Math_min. rewrite Hhi, Ht, Eh. cbn [orb].
      replace (hi =? 0) with false by (vm_compute; reflexivity).
      destruct (t <? hi) eqn:E.
      - split; [apply eqb_key; eauto |]. split; [exact Ht | exact El].
      - split; [| split; [exact Hhi | vm_compute; reflexivity]].
        apply eqb_key. destruct (lex_total kt kh) as [L | [-> | L]]; [| eauto | contradiction].
        exfalso. apply not_true_iff_false in E. apply E. apply ltb_key. eauto. }
    destruct Hm as (Em & Nm & Lm).
    unfold Math_max. rewrite Hlo, Nm, Lm. cbn [orb].
    replace (lo =? 0) with false by (vm_compute; reflexivity).
    destruct (lo <? Math_min hi t) eqn:E; [exact Em |].
    apply eqb_key in Em as (k & K1 & K2). rewrite Kt in K2. injection K2 as <-.
    apply eqb_key. exists kt. split; [| exact Kt].
    destruct (lex_total kl kt) as [L | [-> | L]]; [| exact Kl | contradiction].
    exfalso. apply not_true_iff_false in E. apply E. apply ltb_key. eauto.
Qed.

End InputLook.
(* ===================================================================== *)
(** * The greedy mesher: what a face is *)
(* ===================================================================== *)

Section Typed.
Import Mesher.
Variables (axis : nat) (xa : Z) (du dv : nat) (m0 : list Z) (fs0 : list Face).

Lemma fades_start : fades m0 m0.
Proof. intros p v H _. exact H. Qed.

Lemma clear_rect_lookup (m : list Z) (n w h p : nat) (v : Z) :
  clear_rect m du n w h !! p = Some v -> v = 0 \/ m !! p = Some v.
Proof.
  intros H.
  destruct (decide (p ∈ (l ← seq 0 h; k ← seq 0 w; [(n + k + l * du)%nat]))) as [Hin | Hn].
  - left. apply elem_of_clear_positions in Hin as (l & k & Hl & Hk & ->).
    assert (Hlt : (n + k + l * du < length m)%nat).
    { apply lookup_lt_Some in H. rewrite clear_rect_length in H. exact H. }
    rewrite clear_rect_in in H by assumption. congruence.
  - right. rewrite clear_rect_out in H; [exact H |].
    intros l k Hl Hk E. apply Hn. apply elem_of_clear_positions. eauto.
Qed.

Lemma fades_clear (m : list Z) (n w h : nat) :
  fades m0 m -> fades m0 (clear_rect m du n w h).
Proof.
  intros F p v H Hv. apply clear_rect_lookup in H as [-> | H]; [congruence |].
  apply F; assumption.
Qed.

Lemma row_loop_typed (j fuel i : nat) (s : Scan) (qs : list Quad) :
  (du - i <= fuel)%nat -> (i <= du)%nat -> (j < dv)%nat ->
  s_n s = (i + j * du)%nat ->
  length (s_mask s) = (du * dv)%nat ->
  fades m0 (s_mask s) ->
  Forall (quad_ok du dv m0) qs ->
  s_faces s = fs0 ++ map (quad_face axis xa) qs ->
  exists qs',
    let s' := row_loop fuel axis xa du dv j i s in
    s_n s' = (du + j * du)%nat /\
    length (s_mask s') = (du * dv)%nat /\
    fades m0 (s_mask s') /\
    Forall (quad_ok du dv m0) qs' /\
    s_faces s' = fs0 ++ map (quad_face axis xa) qs'.
Proof.
  revert i s qs. induction fuel as [|fuel IH]; intros i s qs Hf Hi Hj Hn HL HF HQ Hfs.
  - exists qs. simpl. split; [rewrite Hn; f_equal; lia |]. auto.
  - simpl. destruct (Nat.ltb_spec i du) as [Hlt|Hge].
    2:{ exists qs. split; [rewrite Hn; f_equal; lia |]. auto. }
    destruct s as [m n fs]. cbn [s_mask s_n s_faces] in *. subst n.
    assert (Hlen : (i + j * du < length m)%nat).
    { rewrite HL. apply index_in_plane; assumption. }
    destruct (lookup_lt_is_Some_2 _ _ Hlen) as [c Hc].
    destruct (bool_decide_reflect (m !! (i + j * du)%nat = Some 0)) as [E|E]; simpl.
    + apply (IH (i + 1)%nat (mkScan m (i + j * du + 1) fs) qs); cbn [s_mask s_n s_faces];
        auto; lia.
    + rewrite Hc in *. assert (c <> 0) by congruence.
      set (w := grow_w du m (Some c) du i (i + j * du) 1).
      set (h := grow_h dv m (Some c) du dv j (i + j * du) w 1).
      destruct (grow_w_spec du m (Some c) du i (i + j * du) 1) as (Hw1 & Hw2 & Hw3);
        [intros k Hk; replace k with 0%nat by lia; rewrite Nat.add_0_r; exact Hc | lia |].
      fold w in Hw1, Hw2, Hw3.
      destruct (grow_h_spec dv m (Some c) du dv j (i + j * du) w 1) as (Hh1 & Hh2 & Hh3);
        [intros l k Hl Hk; replace l with 0%nat by lia;
         rewrite Nat.mul_0_l, Nat.add_0_r; apply Hw3; exact Hk | lia |].
      fold h in Hh1, Hh2, Hh3.
      apply (IH (i + w)%nat _ (qs ++ [mkQuad (Some c) i j w h])); cbn [s_mask s_n s_faces];
        [lia | lia | exact Hj | lia | | | |].
      * rewrite clear_rect_length. exact HL.
      * apply fades_clear, HF.
      * apply Forall_app. split; [exact HQ |]. apply Forall_singleton.
        exists c. cbn [q_cur q_i q_j q_w q_h quad_cells].
        repeat (split; [first [reflexivity | assumption | lia] |]).
        intros a b Hab. unfold quad_cells in Hab. cbn [q_i q_j q_w q_h] in Hab.
        apply elem_of_rect in Hab as [Ha Hb].
        apply HF; [| assumption].
        assert (Ek : exists k l, a = (i + k)%nat /\ b = (j + l)%nat /\ (k < w)%nat /\ (l < h)%nat).
        { exists (a - i)%nat, (b - j)%nat. lia. }
        destruct Ek as (k & l & -> & -> & Hk & Hl).
        replace (i + k + (j + l) * du)%nat with (i + j * du + k + l * du)%nat by (rewrite Nat.mul_add_distr_r; lia).
        apply Hh3; assumption.
      * rewrite Hfs, map_app, <- app_assoc. reflexivity.
Qed.

Lemma rows_typed (k j : nat) (s : Scan) (qs : list Quad) :
  (j + k <= dv)%nat ->
  s_n s = (j * du)%nat ->
  length (s_mask s) = (du * dv)%nat ->
  fades m0 (s_mask s) ->
  Forall (quad_ok du dv m0) qs ->
  s_faces s = fs0 ++ map (quad_face axis xa) qs ->
  exists qs',
    let s' := foldl (fun s j => row_loop du axis xa du dv j 0 s) s (seq j k) in
    s_n s' = ((j + k) * du)%nat /\
    length (s_mask s') = (du * dv)%nat /\
    fades m0 (s_mask s') /\
    Forall (quad_ok du dv m0) qs' /\
    s_faces s' = fs0 ++ map (quad_face axis xa) qs'.
Proof.
  revert j s qs. induction k as [|k IH]; intros j s qs Hjk Hn HL HF HQ Hfs.
  - exists qs. simpl. split; [rewrite Hn; f_equal; lia |]. auto.
  - simpl.
    destruct (row_loop_typed j du 0 s qs) as (qs1 & Hn1 & HL1 & HF1 & HQ1 & Hfs1);
      [lia | lia | lia | rewrite Hn; lia | assumption | assumption | assumption
       | assumption |].
    cbv zeta in Hn1, HL1, HF1, HQ1, Hfs1.
    destruct (IH (S j) (row_loop du axis xa du dv j 0 s) qs1)
      as (qs2 & Hn2 & HL2 & HF2 & HQ2 & Hfs2);
      [lia | rewrite Hn1; lia | assumption | assumption | assumption | assumption |].
    exists qs2. cbv zeta in *. split; [rewrite Hn2; f_equal; lia |]. auto.
Qed.

(** The faces that the scan of a plane adds are faces of rectangles of
    one value of the mask. *)
Lemma plane_scan_typed :
  length m0 = (du * dv)%nat ->
  exists qs,
    s_faces (foldl (fun s j => row_loop du axis xa du dv j 0 s)
                   (mkScan m0 0 fs0) (seq 0 dv))
    = fs0 ++ map (quad_face axis xa) qs /\
    Forall (quad_ok du dv m0) qs.
Proof.
  intros L.
  destruct (rows_typed dv 0 (mkScan m0 0 fs0) []) as (qs & _ & _ & _ & HQ & Hfs);
    cbn [s_mask s_n s_faces];
    [lia | lia | exact L | apply fades_start | constructor
     | rewrite app_nil_r; reflexivity |].
  exists qs. auto.
Qed.

End Typed.

Section Faces.
Import Mesher.

Lemma plane_loop_ok (chunk : Chunk) (axis : nat) (xa : Z) (fs : list Face) :
  (axis < 3)%nat -> -1 <= xa < get3 dims axis ->
  Forall (face_ok chunk) fs ->
  Forall (face_ok chunk) (plane_loop axis (xa + 1) (plane_mask chunk axis xa) fs).
Proof.
  intros Hax Hxa Hfs. unfold plane_loop.
  destruct (plane_scan_typed axis (xa + 1) (dim (axis_u axis)) (dim (axis_v axis))
              (plane_mask chunk axis xa) fs (plane_mask_length chunk axis xa))
    as (qs & -> & HQ).
  apply Forall_app. split; [exact Hfs |].
  apply Forall_forall. intros f Hf. change (map ?g ?l) with (g <$> l) in Hf.
  apply list_elem_of_fmap in Hf as (q & -> & Hq).
  exists axis, xa, q. split; [exact Hax |]. split; [exact Hxa |].
  split; [reflexivity |]. rewrite Forall_forall in HQ. apply HQ, Hq.
Qed.

Lemma planes_ok (chunk : Chunk) (axis : nat) (xs : list Z) (fs : list Face) :
  (axis < 3)%nat -> (forall xa, xa ∈ xs -> -1 <= xa < get3 dims axis) ->
  Forall (face_ok chunk) fs ->
  Forall (face_ok chunk)
    (foldl (fun faces xa => plane_loop axis (xa + 1) (plane_mask chunk axis xa) faces)
           fs xs).
Proof.
  intros Hax. revert fs. induction xs as [|xa xs IH]; intros fs Hxs Hfs; [exact Hfs |].
  simpl. apply IH.
  - intros x Hx. apply Hxs. right. exact Hx.
  - apply plane_loop_ok; [exact Hax | apply Hxs; left | exact Hfs].
Qed.

Lemma axes_ok (chunk : Chunk) (axs : list nat) (fs : list Face) :
  (forall axis, axis ∈ axs -> (axis < 3)%nat) ->
  Forall (face_ok chunk) fs ->
  Forall (face_ok chunk) (foldl (fun faces axis => axis_loop chunk axis faces) fs axs).
Proof.
  revert fs. induction axs as [|axis axs IH]; intros fs Hlt Hfs; [exact Hfs |].
  simpl. apply IH; [intros a Ha; apply Hlt; right; exact Ha |].
  unfold axis_loop. apply planes_ok; [apply Hlt; left | | exact Hfs].
  intros xa Hxa. apply elem_of_seqZ in Hxa. lia.
Qed.

(** Every face of the mesh is the face of a rectangle of one value of the
    mask of a plane. *)
Lemma greedy_faces_ok (chunk : Chunk) : Forall (face_ok chunk) (greedyMeshChunk chunk).
Proof.
  unfold greedyMeshChunk. apply axes_ok; [| constructor].
  intros axis Hin. apply elem_of_seq in Hin. lia.
Qed.

End Faces.

Section FaceFacts.
Import Mesher.

(** The value of a cell of the mask that is not 0: the type of the solid
    cell, negated when that cell is the one after the plane. *)
Lemma mask_cell_value (chunk : Chunk) (axis : nat) (x : Arr3) (c : Z) :
  byte_grid chunk -> (axis < 3)%nat ->
  mask_cell chunk axis x = c -> c <> 0 ->
  (0 < c < 256 /\ block_in chunk x = c /\ block_in chunk (add3 x (set3 zero3 axis 1)) = 0)
  \/ (-256 < c < 0 /\ block_in chunk (add3 x (set3 zero3 axis 1)) = - c
      /\ block_in chunk x = 0).
Proof.
  intros Hb Hax Hm Hc. unfold mask_cell, block_in in *.
  set (q := set3 zero3 axis 1) in *.
  set (A := getBlockInChunk chunk x.1.1 x.1.2 x.2) in *.
  set (B := getBlockInChunk chunk (x.1.1 + q.1.1) (x.1.2 + q.1.2) (x.2 + q.2)) in *.
  assert (HA : (if 0 <=? get3 x axis then A else 0) = A).
  { destruct (Z.leb_spec 0 (get3 x axis)) as [|Hneg]; [reflexivity |].
    symmetry. subst A. apply getBlockInChunk_outside.
    destruct x as [[x0 x1] x2]. destruct axis as [|[|[|]]]; cbn in Hneg |- *; lia. }
  assert (HB : (if get3 x axis <? get3 dims axis - 1 then B else 0) = B).
  { destruct (Z.ltb_spec (get3 x axis) (get3 dims axis - 1)) as [|Hge]; [reflexivity |].
    symmetry. subst B q. apply getBlockInChunk_outside.
    destruct x as [[x0 x1] x2].
    destruct axis as [|[|[|]]]; cbn in Hge |- *; unfold CHUNK_SIZE, WORLD_HEIGHT in *; lia. }
  rewrite HA, HB in Hm.
  pose proof (getBlockInChunk_byte chunk x.1.1 x.1.2 x.2 Hb) as RA.
  pose proof (getBlockInChunk_byte chunk (x.1.1 + q.1.1) (x.1.2 + q.1.2) (x.2 + q.2) Hb) as RB.
  fold A in RA. fold B in RB.
  change (add3 x q).1.1 with (x.1.1 + q.1.1).
  change (add3 x q).1.2 with (x.1.2 + q.1.2).
  change (add3 x q).2 with (x.2 + q.2).
  fold B.
  rewrite !int32_small in Hm by lia.
  destruct (Z.eqb_spec A 0) as [EA|EA], (Z.eqb_spec B 0) as [EB|EB]; simpl in Hm; lia.
Qed.

Ltac norm3 :=
  change (axis_u 0) with 1%nat in *; change (axis_u 1) with 2%nat in *;
  change (axis_u 2) with 0%nat in *; change (axis_v 0) with 2%nat in *;
  change (axis_v 1) with 0%nat in *; change (axis_v 2) with 1%nat in *;
  change (dim 0) with 16%nat in *; change (dim 1) with 64%nat in *;
  change (dim 2) with 16%nat in *;
  unfold add3, zero3, dims, CHUNK_SIZE, WORLD_HEIGHT in *;
  cbn [get3 set3 fst snd] in *.

Lemma face_axis_make (axis : nat) (xa : Z) (cur : option Z) (i j w h : nat) :
  (axis < 3)%nat -> face_axis (make_face axis xa cur i j w h) = axis.
Proof.
  intros Hax. unfold face_axis, make_face. cbn [normal].
  destruct (match cur with Some c => 0 <? c | None => false end);
    destruct axis as [|[|[|]]]; try lia; reflexivity.
Qed.

(** The shape of a face of a rectangle of the mask. *)
Lemma face_ok_shape (chunk : Chunk) (f : Face) :
  face_ok chunk f ->
  exists axis : nat,
    (axis < 3)%nat /\ face_axis f = axis /\
    length (vertices f) = 4%nat /\
    (normal f = set3 zero3 axis 1 \/ normal f = set3 zero3 axis (-1)) /\
    (exists xa, 0 <= xa <= get3 dims axis /\ forall v, v ∈ vertices f -> get3 v axis = xa) /\
    (forall v k, v ∈ vertices f -> (k < 3)%nat -> 0 <= get3 v k <= get3 dims k) /\
    rasterize f <> [].
Proof.
  intros (axis & xa & q & Hax & Hxa & -> & Hq).
  destruct Hq as (c & Hc & Hc0 & Hw & Hh & Hiw & Hjh & _).
  exists axis. split; [exact Hax |]. split; [apply face_axis_make, Hax |].
  destruct q as [cur i j w h]. cbn [q_cur q_i q_j q_w q_h] in *. subst cur.
  split; [| split; [| split; [| split]]].
  - unfold quad_face, make_face. cbn. destruct (0 <? c); reflexivity.
  - unfold quad_face, make_face. cbn. destruct (0 <? c); auto.
  - exists (xa + 1). split; [lia |].
    unfold quad_face, make_face. cbn [q_cur q_i q_j q_w q_h vertices].
    intros v Hv.
    destruct (0 <? c); repeat (apply elem_of_cons in Hv as [-> | Hv]);
      try (apply elem_of_nil in Hv; contradiction);
      destruct axis as [|[|[|]]]; try lia; norm3; lia.
  - unfold quad_face, make_face. cbn [q_cur q_i q_j q_w q_h vertices].
    intros v k Hv Hk.
    destruct (0 <? c); repeat (apply elem_of_cons in Hv as [-> | Hv]);
      try (apply elem_of_nil in Hv; contradiction);
      destruct axis as [|[|[|]]]; try lia;
      destruct k as [|[|[|]]]; try lia;
      norm3; lia.
  - rewrite rasterize_quad_face by exact Hax.
    unfold quad_cells. cbn [q_i q_j q_w q_h].
    intros E. apply fmap_nil_inv in E.
    assert (Hin : (i, j) ∈ rect i j w h) by (apply elem_of_rect; lia).
    rewrite E in Hin. apply elem_of_nil in Hin. exact Hin.
Qed.

(** X14. Every face of [greedyMeshChunk] is a rectangle of the grid: it
    has four vertices in one plane perpendicular to an axis, its normal is
    the unit vector of this axis or its opposite, the vertices lie inside
    the box of the chunk, and the rectangle covers at least one unit
    face. *)
Theorem faces_are_rectangles (chunk : Chunk) (f : Face) :
  f ∈ greedyMeshChunk chunk ->
  exists axis : nat,
    (axis < 3)%nat /\ face_axis f = axis /\
    length (vertices f) = 4%nat /\
    (normal f = set3 zero3 axis 1 \/ normal f = set3 zero3 axis (-1)) /\
    (exists xa, 0 <= xa <= get3 dims axis /\ forall v, v ∈ vertices f -> get3 v axis = xa) /\
    (forall v k, v ∈ vertices f -> (k < 3)%nat -> 0 <= get3 v k <= get3 dims k) /\
    rasterize f <> [].
Proof.
  intros Hf. apply (face_ok_shape chunk).
  pose proof (greedy_faces_ok chunk) as Hok. rewrite Forall_forall in Hok. apply Hok, Hf.
Qed.

(** X15. Every face of [greedyMeshChunk] carries the type of a block and
    covers only unit faces of this type: at each of them the cell on the
    side opposite to the normal holds a block of the type of the face, and
    the cell on the side of the normal is air. *)
Theorem faces_carry_the_block_type (chunk : Chunk) (f : Face) :
  byte_grid chunk -> f ∈ greedyMeshChunk chunk ->
  exists t,
    1 <= t <= 255 /\ blockType f = Some t /\
    forall ax x, (ax, x) ∈ rasterize f ->
      ax = face_axis f /\
      ((get3 (normal f) ax = 1 /\
        block_in chunk (behind ax x) = t /\ block_in chunk x = Block.air)
       \/ (get3 (normal f) ax = -1 /\
           block_in chunk x = t /\ block_in chunk (behind ax x) = Block.air)).
Proof.
  intros Hb Hf. pose proof (greedy_faces_ok chunk) as Hok.
  rewrite Forall_forall in Hok. apply Hok in Hf as (axis & xa & q & Hax & Hxa & -> & Hq).
  destruct Hq as (c & Hc & Hc0 & Hw & Hh & Hiw & Hjh & Hcells).
  assert (Hval : forall a b, (a, b) ∈ quad_cells q ->
            mask_cell chunk axis
              (set3 (set3 (set3 zero3 axis xa) (axis_v axis) (Z.of_nat b))
                    (axis_u axis) (Z.of_nat a)) = c).
  { intros a b Hab. pose proof (Hcells a b Hab) as Hm.
    unfold quad_cells in Hab. apply elem_of_rect in Hab as [Ha Hb'].
    rewrite plane_mask_lookup in Hm by lia. congruence. }
  assert (Hrange : -256 < c < 256).
  { assert (Hin : (q_i q, q_j q) ∈ quad_cells q) by (apply elem_of_rect; lia).
    apply Hval in Hin.
    destruct (mask_cell_value chunk axis _ c Hb Hax Hin Hc0) as [H | H]; lia. }
  exists (Z.abs c). split; [lia |]. split.
  { unfold quad_face, make_face. cbn [blockType]. rewrite Hc. reflexivity. }
  intros ax x Hx. rewrite rasterize_quad_face in Hx by exact Hax.
  apply list_elem_of_fmap in Hx as ([a b] & E & Hab). cbn [fst snd] in E.
  injection E as -> ->.
  unfold quad_face at 1. rewrite face_axis_make by exact Hax. split; [reflexivity |].
  apply Hval in Hab.
  destruct (plane_pos_cells axis xa a b Hax) as [E1 E2]. cbv zeta in E1, E2.
  rewrite E1.
  destruct (mask_cell_value chunk axis _ c Hb Hax Hab Hc0) as [(Hr & HA & HB) | (Hr & HB & HA)];
    rewrite E2 in HB.
  - left. unfold quad_face, make_face. cbn [normal]. rewrite Hc.
    replace (0 <? c) with true by (symmetry; apply Z.ltb_lt; lia).
    split; [destruct axis as [|[|[|]]]; try lia; reflexivity |].
    split; [rewrite HA; lia | exact HB].
  - right. unfold quad_face, make_face. cbn [normal]. rewrite Hc.
    replace (0 <? c) with false by (symmetry; apply Z.ltb_ge; lia).
    split; [destruct axis as [|[|[|]]]; try lia; reflexivity |].
    split; [rewrite HB; lia | exact HA].
Qed.

End FaceFacts.
(* ===================================================================== *)
(** * The greedy mesher: the empty mesh *)
(* ===================================================================== *)

Section EmptyMesh.
Import Mesher.

Lemma air_mask (chunk : Chunk) (axis : nat) (xa : Z) :
  (forall x y z, getBlockInChunk chunk x y z = Block.air) ->
  plane_mask chunk axis xa = replicate (dim (axis_u axis) * dim (axis_v axis)) 0.
Proof.
  intros Hair. unfold plane_mask. apply table_const. intros a b _ _.
  unfold mask_cell. rewrite !Hair. unfold Block.air.
  destruct (0 <=? _), (_ <? _); reflexivity.
Qed.

Lemma air_axis (chunk : Chunk) (axis : nat) (fs : list Face) :
  (forall x y z, getBlockInChunk chunk x y z = Block.air) ->
  axis_loop chunk axis fs = fs.
Proof.
  intros Hair. unfold axis_loop. generalize (seqZ (-1) (get3 dims axis + 1)).
  intros xs. revert fs. induction xs as [|xa xs IH]; intros fs; [reflexivity |].
  cbn [foldl]. rewrite IH. unfold plane_loop. rewrite air_mask by exact Hair.
  apply plane_zero.
Qed.

(** A solid cell has a face on its plane or on a plane before it along x. *)
Lemma solid_has_boundary (chunk : Chunk) (n : nat) (y z : Z) :
  solid chunk (Z.of_nat n, y, z) = true ->
  exists x, 0 <= x <= Z.of_nat n /\
            solid chunk (behind 0 (x, y, z)) <> solid chunk (x, y, z).
Proof.
  induction n as [|n IH]; intros Hs.
  - exists 0. split; [lia |]. change (Z.of_nat 0) with 0 in Hs. rewrite Hs.
    unfold behind, solid. cbn [get3 set3 fst snd].
    rewrite getBlockInChunk_outside by lia. cbn. congruence.
  - destruct (solid chunk (Z.of_nat n, y, z)) eqn:E.
    + destruct (IH eq_refl) as (x & Hx & Hb). exists x. split; [lia | exact Hb].
    + exists (Z.of_nat (S n)). split; [lia |]. rewrite Hs.
      unfold behind. cbn [get3 set3 fst snd].
      replace (Z.of_nat (S n) - 1) with (Z.of_nat n) by lia. rewrite E. congruence.
Qed.

(** The unit faces of the mesh are the boundary faces of the chunk. *)
Lemma greedy_cells_iff (chunk : Chunk) (axis : nat) (x : Arr3) :
  byte_grid chunk ->
  ((axis, x) ∈ cells_of (greedyMeshChunk chunk) <-> is_boundary chunk axis x).
Proof.
  intros Hb. unfold greedyMeshChunk.
  destruct (axes_cells chunk (seq 0 3) [] Hb) as (new & E & N & M).
  { intros a Hin. apply elem_of_seq in Hin. lia. }
  { apply NoDup_seq. }
  rewrite E. cbn [app]. rewrite M, elem_of_seq. unfold is_boundary. split.
  - intros [_ H]. exact H.
  - intros H. split; [lia | exact H].
Qed.

(** X16. The mesh of a chunk is empty exactly when every block of the
    chunk is air. *)
Theorem mesh_is_empty_iff_air (chunk : Chunk) :
  byte_grid chunk ->
  (greedyMeshChunk chunk = [] <->
   forall x y z, getBlockInChunk chunk x y z = Block.air).
Proof.
  intros Hb. split.
  - intros He x y z.
    destruct (Z.eq_dec (getBlockInChunk chunk x y z) Block.air) as [|Hne]; [assumption |].
    exfalso.
    assert (Hin : 0 <= x < CHUNK_SIZE /\ 0 <= y < WORLD_HEIGHT /\ 0 <= z < CHUNK_SIZE).
    { destruct (decide (0 <= x < CHUNK_SIZE /\ 0 <= y < WORLD_HEIGHT /\ 0 <= z < CHUNK_SIZE))
        as [|Hout]; [assumption |].
      exfalso. apply Hne. apply getBlockInChunk_outside. lia. }
    destruct (solid_has_boundary chunk (Z.to_nat x) y z) as (x' & Hx' & Hs).
    { unfold solid. cbn [fst snd]. rewrite Z2Nat.id by lia.
      apply negb_true_iff, Z.eqb_neq. exact Hne. }
    rewrite Z2Nat.id in Hx' by lia.
    assert (Hc : (0%nat, (x', y, z)) ∈ cells_of (greedyMeshChunk chunk)).
    { apply greedy_cells_iff; [exact Hb |].
      unfold is_boundary. split; [lia |].
      change (axis_u 0) with 1%nat. change (axis_v 0) with 2%nat.
      cbn [get3 dims fst snd].
      split; [unfold CHUNK_SIZE in *; lia |]. split; [lia |]. split; [lia |]. exact Hs. }
    rewrite He in Hc. unfold cells_of in Hc. csimpl in Hc.
    apply elem_of_nil in Hc. exact Hc.
  - intros Hair. unfold greedyMeshChunk. cbn [seq foldl].
    rewrite (air_axis chunk 0), (air_axis chunk 1), (air_axis chunk 2) by exact Hair.
    reflexivity.
Qed.

Lemma mesh_is_empty_iff_air_witness :
  greedyMeshChunk air_chunk = [] <->
  forall x y z, getBlockInChunk air_chunk x y z = Block.air.
Proof.
  apply (mesh_is_empty_iff_air air_chunk).
  unfold byte_grid, air_chunk. cbn [blocks]. apply bytes_new.
Defined.

(** The mesh of a chunk that is full of one block type. *)
Lemma solid_chunk_faces (t : Z) : 1 <= t <= 255 -> greedyMeshChunk (solid_chunk t) = six_faces t.
Proof.
  intros Ht. unfold greedyMeshChunk. cbn [seq foldl].
  rewrite !(axis_uniform (solid_chunk t) t) by (first [apply solid_chunk_filled | lia]).
  rewrite !make_face_down, !make_face_up by lia.
  vm_compute. reflexivity.
Qed.

Lemma solid_chunk_bytes (t : Z) : 0 <= t < 256 -> byte_grid (solid_chunk t).
Proof.
  intros Ht i v. unfold byte_grid, bytes, solid_chunk. cbn [blocks TypedArray.cells].
  intros H. apply lookup_map_seqZ_Some in H as [_ H].
  apply lookup_replicate in H as [-> _]. exact Ht.
Qed.

Lemma faces_are_rectangles_witness :
  exists axis : nat,
    (axis < 3)%nat /\
    face_axis (mkFace [(16, 0, 0); (16, 64, 0); (16, 64, 16); (16, 0, 16)] (1, 0, 0)
                      (Some Block.dirt)) = axis /\
    length [(16, 0, 0); (16, 64, 0); (16, 64, 16); (16, 0, 16)] = 4%nat /\
    ((1, 0, 0) = set3 zero3 axis 1 \/ (1, 0, 0) = set3 zero3 axis (-1)) /\
    (exists xa, 0 <= xa <= get3 dims axis /\
       forall v, v ∈ [(16, 0, 0); (16, 64, 0); (16, 64, 16); (16, 0, 16)] ->
                 get3 v axis = xa) /\
    (forall v k, v ∈ [(16, 0, 0); (16, 64, 0); (16, 64, 16); (16, 0, 16)] ->
                 (k < 3)%nat -> 0 <= get3 v k <= get3 dims k) /\
    rasterize (mkFace [(16, 0, 0); (16, 64, 0); (16, 64, 16); (16, 0, 16)] (1, 0, 0)
                      (Some Block.dirt)) <> [].
Proof.
  apply (faces_are_rectangles (solid_chunk Block.dirt)
           (mkFace [(16, 0, 0); (16, 64, 0); (16, 64, 16); (16, 0, 16)] (1, 0, 0)
                   (Some Block.dirt))).
  rewrite solid_chunk_faces by (unfold Block.dirt; lia).
  unfold six_faces. apply list_elem_of_further, list_elem_of_here.
Defined.

Lemma faces_carry_the_block_type_witness :
  exists t,
    1 <= t <= 255 /\ Some Block.dirt = Some t /\
    forall ax x,
      (ax, x) ∈ rasterize (mkFace [(16, 0, 0); (16, 64, 0); (16, 64, 16); (16, 0, 16)]
                                  (1, 0, 0) (Some Block.dirt)) ->
      ax = face_axis (mkFace [(16, 0, 0); (16, 64, 0); (16, 64, 16); (16, 0, 16)]
                             (1, 0, 0) (Some Block.dirt)) /\
      ((get3 (1, 0, 0) ax = 1 /\
        block_in (solid_chunk Block.dirt) (behind ax x) = t /\
        block_in (solid_chunk Block.dirt) x = Block.air)
       \/ (get3 (1, 0, 0) ax = -1 /\
           block_in (solid_chunk Block.dirt) x = t /\
           block_in (solid_chunk Block.dirt) (behind ax x) = Block.air)).
Proof.
  apply (faces_carry_the_block_type (solid_chunk Block.dirt)
           (mkFace [(16, 0, 0); (16, 64, 0); (16, 64, 16); (16, 0, 16)] (1, 0, 0)
                   (Some Block.dirt))).
  - apply solid_chunk_bytes. unfold Block.dirt. lia.
  - rewrite solid_chunk_faces by (unfold Block.dirt; lia).
    unfold six_faces. apply list_elem_of_further, list_elem_of_here.
Defined.

End EmptyMesh.
(* ===================================================================== *)
(** * The chunks around the player *)
(* ===================================================================== *)

Section Around.
Import Render.

Lemma elem_of_around (cx cz : Z) (k : Z * Z) :
  k ∈ around cx cz <-> near RENDER_DISTANCE cx cz k.
Proof.
  unfold around, near, RENDER_DISTANCE. destruct k as [x z]. cbn [fst snd].
  rewrite list_elem_of_bind. split.
  - intros (x' & Hz & Hx). apply list_elem_of_bind in Hz as (z' & Hk & Hz).
    apply list_elem_of_singleton in Hk. injection Hk as -> ->.
    apply elem_of_seqZ in Hx, Hz. lia.
  - intros [Hx Hz]. exists x. split; [| apply elem_of_seqZ; lia].
    apply list_elem_of_bind. exists z. split; [apply list_elem_of_here |].
    apply elem_of_seqZ. lia.
Qed.

Lemma NoDup_around (cx cz : Z) : NoDup (around cx cz).
Proof.
  unfold around. apply NoDup_bind.
  - intros x1 x2 k _ _ H1 H2.
    apply list_elem_of_bind in H1 as (z1 & E1 & _), H2 as (z2 & E2 & _).
    apply list_elem_of_singleton in E1, E2. congruence.
  - intros x _. apply NoDup_bind.
    + intros z1 z2 k _ _ H1 H2. apply list_elem_of_singleton in H1, H2. congruence.
    + intros z _. apply NoDup_singleton.
    + apply NoDup_seqZ.
  - apply NoDup_seqZ.
Qed.

Lemma length_product {A B C} (f : A -> B -> C) (l1 : list A) (l2 : list B) :
  length (x ← l1; z ← l2; [f x z]) = (length l1 * length l2)%nat.
Proof.
  induction l1 as [|a l1 IH]; csimpl; [reflexivity |].
  rewrite length_app, IH, bind_singleton_fmap, length_fmap. reflexivity.
Qed.

Lemma length_around (cx cz : Z) : length (around cx cz) = 289%nat.
Proof.
  unfold around. rewrite (length_product (fun x z => (x, z))), !length_seqZ. reflexivity.
Qed.

(** The store after a run of [generateChunk] over the coordinates [l]. *)
Lemma generate_list (l : list (Z * Z)) (w w' : World) :
  w' = foldl (fun w k => generateChunk w k.1 k.2) w l ->
  (forall k, is_Some (chunks w' !! k) <-> is_Some (chunks w !! k) \/ k ∈ l) /\
  (forall k c, chunks w !! k = Some c -> chunks w' !! k = Some c) /\
  (forall k c, chunks w' !! k = Some c ->
     chunks w !! k = Some c \/
     (chunks w !! k = None /\ needsUpdate c = true /\ (chunk_x c, chunk_z c) = k)) /\
  perm w' = perm w.
Proof.
  revert w w'. induction l as [|[cx cz] l IH]; intros w w' ->; cbn [foldl fst snd].
  - split; [| split; [| split]]; auto.
    intros k. rewrite elem_of_nil. tauto.
  - set (w1 := generateChunk w cx cz) in *.
    destruct (IH w1 _ eq_refl) as (H1 & H2 & H3 & H4).
    assert (Hk : forall k, k <> (cx, cz) -> chunks w1 !! k = chunks w !! k)
      by (intros k Hne; apply generateChunk_lookup_ne, Hne).
    assert (Hs : forall c, chunks w !! (cx, cz) = Some c -> w1 = w)
      by (intros c Hc; eapply generateChunk_stored, Hc).
    assert (Hn : chunks w !! (cx, cz) = None ->
                 exists c, chunks w1 !! (cx, cz) = Some c /\ needsUpdate c = true
                           /\ (chunk_x c, chunk_z c) = (cx, cz)).
    { intros Hnone. subst w1. unfold generateChunk. rewrite Hnone.
      destruct (Gen.fill _ _ _ _) as [u s]. cbn [chunks].
      rewrite lookup_insert_eq. eauto. }
    split; [| split; [| split]].
    + intros k. rewrite H1, elem_of_cons.
      destruct (decide (k = (cx, cz))) as [-> | Hne].
      * split; [auto |]. intros _. left. apply generateChunk_is_Some.
      * rewrite Hk by exact Hne. tauto.
    + intros k c Hc. apply H2.
      destruct (decide (k = (cx, cz))) as [-> | Hne].
      * rewrite (Hs c Hc). exact Hc.
      * rewrite Hk by exact Hne. exact Hc.
    + intros k c Hc. apply H3 in Hc as [Hc | (Hc & Hu & Hxz)].
      * destruct (decide (k = (cx, cz))) as [-> | Hne].
        -- destruct (chunks w !! (cx, cz)) as [c0|] eqn:E.
           ++ left. rewrite (Hs c0 eq_refl) in Hc. congruence.
           ++ right. destruct (Hn eq_refl) as (c1 & Hc1 & Hu & Hxz).
              rewrite Hc in Hc1. injection Hc1 as <-. auto.
        -- left. rewrite <- Hk by exact Hne. exact Hc.
      * right. split; [| auto].
        destruct (decide (k = (cx, cz))) as [-> | Hne].
        -- destruct (generateChunk_is_Some w cx cz) as [c1 Hc1].
           fold w1 in Hc1. congruence.
        -- rewrite <- Hk by exact Hne. exact Hc.
    + rewrite H4. subst w1. unfold generateChunk.
      destruct (chunks w !! (cx, cz)); [reflexivity |].
      destruct (Gen.fill _ _ _ _) as [u s]. reflexivity.
Qed.

Lemma generate_list_grids (P : TypedArray.Uint8Array -> Prop) (l : list (Z * Z)) (w : World) :
  stable P -> P (TypedArray.new grid_size) -> grids P w ->
  grids P (foldl (fun w k => generateChunk w k.1 k.2) w l).
Proof.
  intros Hs Hn. revert w. induction l as [|k l IH]; intros w Hw; [exact Hw |].
  cbn [foldl]. apply IH. apply generateChunk_grids; assumption.
Qed.

Lemma fill_around_generate (w : World) (cx cz : Z) :
  fill_around w cx cz = generate_around w cx cz.
Proof.
  unfold fill_around, generate_around. apply foldl_fun_ext.
  intros w' [x z]. cbn [fst snd]. unfold generateChunk.
  destruct (chunks w' !! (x, z)); reflexivity.
Qed.

Lemma generate_around_unfold (w : World) (cx cz : Z) :
  generate_around w cx cz
  = foldl (fun w k => generateChunk w k.1 k.2) w (around cx cz).
Proof. unfold generate_around. reflexivity. Qed.

Lemma generate_around_keyed (w : World) (cx cz : Z) :
  keyed w -> keyed (generate_around w cx cz).
Proof.
  intros Hk k c Hc.
  destruct (generate_list (around cx cz) w _ (generate_around_unfold w cx cz))
    as (_ & _ & H3 & _).
  apply H3 in Hc as [Hc | (_ & _ & Hc)]; [apply Hk, Hc | exact Hc].
Qed.

(** X17. [generateInitialWorld] generates the 17 by 17 chunks around the
    chunk of the player: afterwards exactly the chunks that were stored
    before and these are stored, the ones stored before are unchanged, and
    a world that was empty holds 289 chunks.  The sizes of the grids, the
    bytes in them and the keys of the chunks are kept. *)
Theorem generateInitialWorld_covers
    (w : World) (playerPosition : Three.Vector3) (cx cz : Z) :
  playerChunk (Three.vx playerPosition) = Some cx ->
  playerChunk (Three.vz playerPosition) = Some cz ->
  exists w',
    generateInitialWorld w playerPosition = Some w' /\
    (forall k, is_Some (chunks w' !! k) <->
               is_Some (chunks w !! k) \/ near RENDER_DISTANCE cx cz k) /\
    (forall k c, chunks w !! k = Some c -> chunks w' !! k = Some c) /\
    (wf_world w -> wf_world w') /\
    (byte_world w -> byte_world w') /\
    (keyed w -> keyed w') /\
    (chunks w = ∅ -> size (chunks w') = 289%nat).
Proof.
  intros Hx Hz. exists (generate_around w cx cz).
  split; [unfold generateInitialWorld; rewrite Hx, Hz; reflexivity |].
  destruct (generate_list (around cx cz) w _ (generate_around_unfold w cx cz))
    as (H1 & H2 & H3 & H4).
  split; [| split; [| split; [| split; [| split]]]].
  - intros k. rewrite H1, elem_of_around. reflexivity.
  - exact H2.
  - unfold generate_around. apply generate_list_grids; [exact sized_set | exact sized_new].
  - unfold generate_around. apply generate_list_grids; [exact bytes_set | apply bytes_new].
  - apply generate_around_keyed.
  - intros He.
    assert (Hd : dom (chunks (generate_around w cx cz)) = list_to_set (around cx cz)).
    { apply set_eq. intros k. rewrite elem_of_dom, H1, He, lookup_empty,
        elem_of_list_to_set. split; [intros [[? H] | H]; [discriminate | exact H] | auto]. }
    rewrite <- size_dom, Hd, size_list_to_set by apply NoDup_around.
    apply length_around.
Qed.

End Around.

Section Update.
Import Render.
Variables (mkColor : option Z -> Color) (inFrustum : Z -> Z -> bool).

Lemma createChunkMesh_chunk (cx cz : Z) (c : Chunk) (m : option Mesh) :
  (createChunkMesh mkColor cx cz c m).1 = lower c.
Proof. unfold createChunkMesh. destruct (Mesher.greedyMeshChunk c); reflexivity. Qed.

Lemma show_chunk (cx cz : Z) (c : Chunk) (m : option Mesh) :
  (show mkColor inFrustum cx cz c m).1 = c \/
  (show mkColor inFrustum cx cz c m).1 = lower c.
Proof.
  unfold show. destruct (inFrustum _ _); [| left; reflexivity].
  destruct (needsUpdate c || _); [| left; reflexivity].
  right. pose proof (createChunkMesh_chunk cx cz c m) as H.
  destruct (createChunkMesh mkColor cx cz c m) as [c' m']. exact H.
Qed.

Lemma show_fields (cx cz : Z) (c : Chunk) (m : option Mesh) :
  let c' := (show mkColor inFrustum cx cz c m).1 in
  blocks c' = blocks c /\ chunk_x c' = chunk_x c /\ chunk_z c' = chunk_z c.
Proof. cbv zeta. destruct (show_chunk cx cz c m) as [-> | ->]; auto. Qed.

Lemma update_around_unfold (sc : Scene) (cx cz : Z) :
  update_around mkColor inFrustum sc cx cz =
  let w := generate_around (world sc) cx cz in
  let kept :=
    map_imap (fun k c =>
                if far cx cz c then None
                else Some (show mkColor inFrustum cx cz c (mesh_of sc k)))
             (chunks w) in
  mkScene (mkWorld (fst <$> kept) (perm w) (rand w)) (omap snd kept).
Proof. unfold update_around. rewrite fill_around_generate. reflexivity. Qed.

(** The chunk and the mesh under a key after [updateWorld]. *)
Lemma update_around_lookup (sc : Scene) (cx cz : Z) (k : Z * Z) :
  let w := generate_around (world sc) cx cz in
  let sc' := update_around mkColor inFrustum sc cx cz in
  match chunks w !! k with
  | Some c =>
      if far cx cz c
      then chunks (world sc') !! k = None /\ meshes sc' !! k = None
      else chunks (world sc') !! k
           = Some (show mkColor inFrustum cx cz c (mesh_of sc k)).1 /\
           meshes sc' !! k = (show mkColor inFrustum cx cz c (mesh_of sc k)).2
  | None => chunks (world sc') !! k = None /\ meshes sc' !! k = None
  end.
Proof.
  cbv zeta. rewrite update_around_unfold. cbv zeta. cbn [world meshes chunks].
  rewrite lookup_fmap, lookup_omap, map_lookup_imap.
  destruct (chunks (generate_around (world sc) cx cz) !! k) as [c|]; cbn; [| auto].
  destruct (far cx cz c); cbn; auto.
Qed.

Lemma far_near (cx cz : Z) (c : Chunk) :
  far cx cz c = false <-> near (RENDER_DISTANCE + 2) cx cz (chunk_x c, chunk_z c).
Proof.
  unfold far, near, distance. cbn [fst snd]. rewrite Z.ltb_ge. lia.
Qed.

(** X18. [updateWorld] keeps the neighbourhood of the player: afterwards
    every chunk within 8 chunks of the player's chunk is stored, no chunk
    or mesh farther than 10 chunks is left, a chunk stored before within 10
    chunks keeps its blocks, and every mesh belongs to a stored chunk. *)
Theorem updateWorld_keeps_the_neighbourhood
    (sc : Scene) (playerPosition : Three.Vector3) (cx cz : Z) :
  keyed (world sc) ->
  playerChunk (Three.vx playerPosition) = Some cx ->
  playerChunk (Three.vz playerPosition) = Some cz ->
  exists sc',
    updateWorld mkColor inFrustum sc playerPosition = Some sc' /\
    (forall k, near RENDER_DISTANCE cx cz k -> is_Some (chunks (world sc') !! k)) /\
    (forall k, is_Some (chunks (world sc') !! k) -> near (RENDER_DISTANCE + 2) cx cz k) /\
    (forall k c, chunks (world sc) !! k = Some c -> near (RENDER_DISTANCE + 2) cx cz k ->
       exists c', chunks (world sc') !! k = Some c' /\ blocks c' = blocks c) /\
    (forall k, ~ near (RENDER_DISTANCE + 2) cx cz k ->
       chunks (world sc') !! k = None /\ meshes sc' !! k = None) /\
    (forall k, is_Some (meshes sc' !! k) -> is_Some (chunks (world sc') !! k)) /\
    keyed (world sc').
Proof.
  intros Hkey Hx Hz. exists (update_around mkColor inFrustum sc cx cz).
  split; [unfold updateWorld; rewrite Hx, Hz; reflexivity |].
  set (w := generate_around (world sc) cx cz).
  assert (Hkw : keyed w) by (apply generate_around_keyed, Hkey).
  destruct (generate_list (around cx cz) (world sc) _ (generate_around_unfold (world sc) cx cz))
    as (H1 & H2 & H3 & H4). fold w in H1, H2, H3, H4.
  split; [| split; [| split; [| split; [| split]]]].
  - intros k Hn. pose proof (update_around_lookup sc cx cz k) as L. cbv zeta in L.
    fold w in L.
    assert (Hs : is_Some (chunks w !! k)) by (apply H1; right; apply elem_of_around, Hn).
    destruct Hs as [c Hc]. rewrite Hc in L.
    assert (Hf : far cx cz c = false).
    { apply far_near. rewrite (Hkw k c Hc). unfold near, RENDER_DISTANCE in *. lia. }
    rewrite Hf in L. destruct L as [-> _]. eauto.
  - intros k [c' Hc']. pose proof (update_around_lookup sc cx cz k) as L. cbv zeta in L.
    fold w in L. destruct (chunks w !! k) as [c|] eqn:Hc; [| destruct L; congruence].
    destruct (far cx cz c) eqn:Hf; [destruct L; congruence |].
    apply far_near in Hf. rewrite (Hkw k c Hc) in Hf. exact Hf.
  - intros k c Hc Hn. pose proof (update_around_lookup sc cx cz k) as L. cbv zeta in L.
    fold w in L. rewrite (H2 k c Hc) in L.
    assert (Hf : far cx cz c = false).
    { apply far_near. rewrite (Hkw k c (H2 k c Hc)). exact Hn. }
    rewrite Hf in L. destruct L as [-> _]. eexists. split; [reflexivity |].
    apply show_fields.
  - intros k Hn. pose proof (update_around_lookup sc cx cz k) as L. cbv zeta in L.
    fold w in L. destruct (chunks w !! k) as [c|] eqn:Hc; [| exact L].
    destruct (far cx cz c) eqn:Hf; [exact L |].
    exfalso. apply Hn. apply far_near in Hf. rewrite (Hkw k c Hc) in Hf. exact Hf.
  - intros k [m Hm]. pose proof (update_around_lookup sc cx cz k) as L. cbv zeta in L.
    fold w in L. destruct (chunks w !! k) as [c|] eqn:Hc; [| destruct L; congruence].
    destruct (far cx cz c) eqn:Hf; [destruct L; congruence |].
    destruct L as [-> _]. eauto.
  - intros k c' Hc'. pose proof (update_around_lookup sc cx cz k) as L. cbv zeta in L.
    fold w in L. destruct (chunks w !! k) as [c|] eqn:Hc; [| destruct L; congruence].
    destruct (far cx cz c) eqn:Hf; [destruct L; congruence |].
    destruct L as [L _]. rewrite L in Hc'. injection Hc' as <-.
    destruct (show_fields cx cz c (mesh_of sc k)) as (_ & -> & ->).
    apply Hkw, Hc.
Qed.

Lemma mask_cell_blocks (c1 c2 : Chunk) (axis : nat) (x : Mesher.Arr3) :
  blocks c1 = blocks c2 -> Mesher.mask_cell c1 axis x = Mesher.mask_cell c2 axis x.
Proof. intros H. unfold Mesher.mask_cell, getBlockInChunk. rewrite H. reflexivity. Qed.

Lemma plane_mask_blocks (c1 c2 : Chunk) (axis : nat) (xa : Z) :
  blocks c1 = blocks c2 -> Mesher.plane_mask c1 axis xa = Mesher.plane_mask c2 axis xa.
Proof.
  intros H. unfold Mesher.plane_mask. apply list_bind_ext; [| reflexivity].
  intros xv. apply list_bind_ext; [| reflexivity].
  intros xu. rewrite (mask_cell_blocks c1 c2) by exact H. reflexivity.
Qed.

(** The mesh of a chunk depends on its grid only. *)
Lemma greedy_blocks (c1 c2 : Chunk) :
  blocks c1 = blocks c2 -> Mesher.greedyMeshChunk c1 = Mesher.greedyMeshChunk c2.
Proof.
  intros H. unfold Mesher.greedyMeshChunk. apply foldl_fun_ext. intros fs axis.
  unfold Mesher.axis_loop. apply foldl_fun_ext. intros fs' xa.
  rewrite (plane_mask_blocks c1 c2) by exact H. reflexivity.
Qed.

Lemma build_coords (c1 c2 : Chunk) (fs : list Mesher.Face) :
  chunk_x c1 = chunk_x c2 -> chunk_z c1 = chunk_z c2 ->
  build mkColor c1 fs = build mkColor c2 fs.
Proof.
  intros Hx Hz. unfold build. f_equal. apply foldl_fun_ext. intros [g off] f.
  unfold push_face. rewrite Hx, Hz. reflexivity.
Qed.

Lemma shown_same (c1 c2 : Chunk) (m : option Mesh) :
  blocks c1 = blocks c2 -> chunk_x c1 = chunk_x c2 -> chunk_z c1 = chunk_z c2 ->
  shown mkColor c1 m -> shown mkColor c2 m.
Proof.
  intros Hb Hx Hz H. unfold shown in *.
  rewrite <- (greedy_blocks c1 c2 Hb), <- (build_coords c1 c2 _ Hx Hz). exact H.
Qed.

Lemma shown_visible (b : bool) (c : Chunk) (m : option Mesh) :
  shown mkColor c m -> shown mkColor c (set_visible b <$> m).
Proof.
  intros H Hf. destruct (H Hf) as (mesh & -> & Hi & Hg).
  exists (set_visible b mesh). auto.
Qed.

Lemma createChunkMesh_shown (cx cz : Z) (c : Chunk) (m : option Mesh) :
  shown mkColor c (createChunkMesh mkColor cx cz c m).2.
Proof.
  unfold shown, createChunkMesh. intros Hf.
  destruct (Mesher.greedyMeshChunk c) as [|f fs] eqn:E; [congruence |].
  cbn [snd]. eexists. split; [reflexivity |]. split; reflexivity.
Qed.

(** What [updateWorld] does with a chunk that it keeps. *)
Lemma show_spec (cx cz : Z) (c : Chunk) (m : option Mesh) :
  (needsUpdate c = false -> shown mkColor c m) ->
  let r := show mkColor inFrustum cx cz c m in
  (needsUpdate r.1 = false -> shown mkColor r.1 r.2) /\
  (inFrustum (chunk_x c) (chunk_z c) = true ->
     needsUpdate r.1 = false /\ shown mkColor r.1 r.2 /\
     forall mesh, r.2 = Some mesh -> visible mesh = true) /\
  (inFrustum (chunk_x c) (chunk_z c) = false ->
     r.1 = c /\ forall mesh, r.2 = Some mesh -> visible mesh = false).
Proof.
  intros Hcur. cbv zeta. unfold show.
  assert (Hvis : forall b (o : option Mesh) mesh,
            set_visible b <$> o = Some mesh -> visible mesh = b).
  { intros b [m0|] mesh H; [injection H as <-; reflexivity | discriminate]. }
  destruct (inFrustum (chunk_x c) (chunk_z c)).
  - assert (H : let r := (let '(c0, mesh) :=
                   if needsUpdate c || negb (bool_decide (is_Some m))
                   then createChunkMesh mkColor cx cz c m else (c, m) in
                   (c0, set_visible true <$> mesh)) in
                needsUpdate r.1 = false /\ shown mkColor r.1 r.2).
    { destruct (needsUpdate c || negb (bool_decide (is_Some m))) eqn:E.
      - pose proof (createChunkMesh_chunk cx cz c m) as H1.
        pose proof (createChunkMesh_shown cx cz c m) as H2.
        destruct (createChunkMesh mkColor cx cz c m) as [c0 m0]. cbn [fst snd] in *.
        subst c0. split; [reflexivity |].
        apply shown_visible. apply (shown_same c); auto.
      - apply orb_false_iff in E as [E _]. cbn [fst snd].
        split; [exact E |]. apply shown_visible, Hcur, E. }
    cbv zeta in H. destruct H as [H1 H2].
    split; [intros _; exact H2 |]. split; [| discriminate].
    intros _. split; [exact H1 |]. split; [exact H2 |].
    intros mesh Hm.
    destruct (if needsUpdate c || negb (bool_decide (is_Some m))
              then createChunkMesh mkColor cx cz c m else (c, m)) as [c0 m0].
    cbn [snd] in Hm. eapply Hvis, Hm.
  - cbn [fst snd]. split; [intros H; apply shown_visible, Hcur, H |].
    split; [discriminate |]. intros _. split; [reflexivity |].
    intros mesh Hm. eapply Hvis, Hm.
Qed.

(** The meshes keep showing the chunks when a block is written. *)
Lemma setBlock_current (sc : Scene) (x y z t : Z) :
  current mkColor sc -> current mkColor (mkScene (setBlock (world sc) x y z t) (meshes sc)).
Proof.
  intros Hcur.
  destruct (decide (0 <= y < WORLD_HEIGHT)) as [Hy | Hy];
    [| rewrite setBlock_out_of_range by lia; destruct sc; exact Hcur].
  intros k c Hc Hu. cbn [world meshes] in *.
  rewrite setBlock_lookup in Hc by exact Hy.
  destruct (decide (k = chunk_key x z)) as [-> | Hne].
  - destruct (chunks (generateChunk _ _ _) !! _); [| discriminate].
    injection Hc as <-. discriminate Hu.
  - destruct (chunks (world sc) !! k) as [c0|] eqn:E; [| discriminate].
    injection Hc as <-. unfold flag_if in Hu. cbn [needsUpdate] in Hu.
    apply orb_false_iff in Hu as [Hu _].
    apply (shown_same c0); [reflexivity | reflexivity | reflexivity |].
    apply (Hcur k c0 E Hu).
Qed.

(** X19. [updateWorld] brings the meshes up to date: afterwards every
    chunk in view has its flag down and, when it has faces, a mesh in the
    scene that is visible and built from its current faces; the mesh of a
    chunk out of view is hidden.  A later [setBlock] does not break this:
    the chunks whose mesh it outdates are flagged. *)
Theorem updateWorld_shows_the_chunks
    (sc : Scene) (playerPosition : Three.Vector3) (cx cz : Z) :
  current mkColor sc ->
  playerChunk (Three.vx playerPosition) = Some cx ->
  playerChunk (Three.vz playerPosition) = Some cz ->
  exists sc',
    updateWorld mkColor inFrustum sc playerPosition = Some sc' /\
    current mkColor sc' /\
    (forall k c, chunks (world sc') !! k = Some c ->
       (inFrustum (chunk_x c) (chunk_z c) = true ->
          needsUpdate c = false /\ shown mkColor c (meshes sc' !! k) /\
          forall mesh, meshes sc' !! k = Some mesh -> visible mesh = true) /\
       (inFrustum (chunk_x c) (chunk_z c) = false ->
          forall mesh, meshes sc' !! k = Some mesh -> visible mesh = false)) /\
    (forall x y z t,
       current mkColor (mkScene (setBlock (world sc') x y z t) (meshes sc'))).
Proof.
  intros Hcur Hx Hz. exists (update_around mkColor inFrustum sc cx cz).
  split; [unfold updateWorld; rewrite Hx, Hz; reflexivity |].
  set (w := generate_around (world sc) cx cz).
  destruct (generate_list (around cx cz) (world sc) _ (generate_around_unfold (world sc) cx cz))
    as (H1 & H2 & H3 & H4). fold w in H1, H2, H3, H4.
  assert (Hspec : forall k c', chunks (world (update_around mkColor inFrustum sc cx cz)) !! k
                               = Some c' ->
            exists c, (needsUpdate c = false -> shown mkColor c (mesh_of sc k)) /\
              c' = (show mkColor inFrustum cx cz c (mesh_of sc k)).1 /\
              meshes (update_around mkColor inFrustum sc cx cz) !! k
              = (show mkColor inFrustum cx cz c (mesh_of sc k)).2).
  { intros k c' Hc'. pose proof (update_around_lookup sc cx cz k) as L. cbv zeta in L.
    fold w in L. destruct (chunks w !! k) as [c|] eqn:Hc; [| destruct L; congruence].
    destruct (far cx cz c); [destruct L; congruence |].
    destruct L as [L1 L2]. rewrite L1 in Hc'. injection Hc' as <-.
    exists c. split; [| auto].
    intros Hu. apply H3 in Hc as [Hc | (_ & Hc & _)]; [| congruence].
    unfold mesh_of. rewrite Hc. apply (Hcur k c Hc Hu). }
  assert (Hc1 : current mkColor (update_around mkColor inFrustum sc cx cz)).
  { intros k c' Hc' Hu. apply Hspec in Hc' as (c & Hc & -> & ->).
    destruct (show_spec cx cz c _ Hc) as (S0 & _). apply S0, Hu. }
  split; [exact Hc1 |]. split.
  - intros k c' Hc'. apply Hspec in Hc' as (c & Hc & -> & ->).
    destruct (show_fields cx cz c (mesh_of sc k)) as (_ & -> & ->).
    destruct (show_spec cx cz c _ Hc) as (_ & S1 & S2). cbv zeta in S1, S2.
    split; [exact S1 | intros Hf; apply S2, Hf].
  - intros x y z t. apply setBlock_current, Hc1.
Qed.

End Update.
(* ===================================================================== *)
(** * The geometry of a chunk *)
(* ===================================================================== *)

Section Geometry.
Import Mesher Render.
Variable mkColor : option Z -> Color.

Lemma push_vertices (chunk : Chunk) (c : Color) (vs : list Arr3) (g : Geometry) :
  foldl (fun g vertex =>
           mkGeometry
             (position g ++ [ get3 vertex 0 + chunk_x chunk * CHUNK_SIZE;
                              get3 vertex 1;
                              get3 vertex 2 + chunk_z chunk * CHUNK_SIZE ])
             (color g ++ [red c; green c; blue c])
             (index g))
        g vs
  = mkGeometry (position g ++ (vs ≫= placed chunk))
               (color g ++ (vs ≫= fun _ => [red c; green c; blue c]))
               (index g).
Proof.
  revert g. induction vs as [|v vs IH]; intros g; cbn [foldl].
  - csimpl. rewrite !app_nil_r. destruct g; reflexivity.
  - rewrite IH. cbn [position color index]. csimpl.
    rewrite <- !app_assoc. reflexivity.
Qed.

(** The loop over the faces, from any state of its variables. *)
Lemma push_faces (chunk : Chunk) (fs : list Face) (g : Geometry) (s : Z) :
  foldl (push_face mkColor chunk) (g, 4 * s) fs
  = (mkGeometry
       (position g ++ (fs ≫= fun f => vertices f ≫= placed chunk))
       (color g ++ (fs ≫= fun f => vertices f ≫= fun _ =>
                      [red (face_color mkColor f); green (face_color mkColor f);
                       blue (face_color mkColor f)]))
       (index g ++ (seqZ s (Z.of_nat (length fs)) ≫= quad_indices)),
     4 * (s + Z.of_nat (length fs))).
Proof.
  revert g s. induction fs as [|f fs IH]; intros g s.
  - cbn [foldl length]. csimpl. rewrite !app_nil_r, Z.add_0_r. destruct g; reflexivity.
  - cbn [foldl]. unfold push_face at 2. rewrite push_vertices.
    cbn [position color index].
    replace (4 * s + 4) with (4 * (s + 1)) by lia. rewrite IH.
    cbn [position color index length].
    rewrite Nat2Z.inj_succ, (seqZ_cons s) by lia. csimpl.
    replace (Z.pred (Z.succ (Z.of_nat (length fs)))) with (Z.of_nat (length fs)) by lia.
    replace (Z.succ s) with (s + 1) by lia.
    rewrite <- !app_assoc. f_equal. lia.
Qed.

Lemma build_unfold (chunk : Chunk) (fs : list Face) :
  build mkColor chunk fs
  = mkGeometry
      (fs ≫= fun f => vertices f ≫= placed chunk)
      (fs ≫= fun f => vertices f ≫= fun _ =>
         [red (face_color mkColor f); green (face_color mkColor f);
          blue (face_color mkColor f)])
      (seqZ 0 (Z.of_nat (length fs)) ≫= quad_indices).
Proof.
  unfold build, no_geometry. change 0 with (4 * 0) at 1. rewrite push_faces. reflexivity.
Qed.

Lemma length_bind_const {A B} (f : A -> list B) (n : nat) (l : list A) :
  (forall a, a ∈ l -> length (f a) = n) -> length (l ≫= f) = (length l * n)%nat.
Proof.
  induction l as [|a l IH]; intros H; csimpl; [reflexivity |].
  rewrite length_app, IH, H; [lia | left | intros b Hb; apply H; right; exact Hb].
Qed.

(** X20. The geometry that [createChunkMesh] builds from the faces of a
    chunk: four vertices, four colours and two triangles for each face, in
    the order of the faces; every index points at a vertex of the geometry,
    and every vertex lies in the box of the chunk in world coordinates. *)
Theorem chunk_geometry (chunk : Chunk) :
  let faces := greedyMeshChunk chunk in
  let g := build mkColor chunk faces in
  let n := Z.of_nat (length faces) in
  position g = (faces ≫= fun f => vertices f ≫= placed chunk) /\
  index g = (seqZ 0 n ≫= quad_indices) /\
  Z.of_nat (length (position g)) = 12 * n /\
  Z.of_nat (length (color g)) = 12 * n /\
  Z.of_nat (length (index g)) = 6 * n /\
  (forall i, i ∈ index g -> 0 <= i < 4 * n) /\
  (forall f v, f ∈ faces -> v ∈ vertices f ->
     exists x y z, placed chunk v = [x; y; z] /\
       chunk_x chunk * CHUNK_SIZE <= x <= (chunk_x chunk + 1) * CHUNK_SIZE /\
       0 <= y <= WORLD_HEIGHT /\
       chunk_z chunk * CHUNK_SIZE <= z <= (chunk_z chunk + 1) * CHUNK_SIZE).
Proof.
  cbv zeta. rewrite build_unfold. cbn [position color index].
  pose proof (greedy_faces_ok chunk) as Hok. rewrite Forall_forall in Hok.
  assert (H4 : forall f, f ∈ greedyMeshChunk chunk -> length (vertices f) = 4%nat).
  { intros f Hf. destruct (face_ok_shape chunk f (Hok f Hf)) as (ax & _ & _ & H & _).
    exact H. }
  split; [reflexivity |]. split; [reflexivity |].
  split; [| split; [| split; [| split]]].
  - rewrite (length_bind_const _ 12).
    + lia.
    + intros f Hf. rewrite (length_bind_const _ 3), (H4 f Hf); reflexivity.
  - rewrite (length_bind_const _ 12).
    + lia.
    + intros f Hf. rewrite (length_bind_const _ 3), (H4 f Hf); reflexivity.
  - rewrite (length_bind_const _ 6), length_seqZ; [lia | reflexivity].
  - intros i Hi. apply list_elem_of_bind in Hi as (j & Hi & Hj).
    apply elem_of_seqZ in Hj. unfold quad_indices in Hi.
    repeat (apply elem_of_cons in Hi as [-> | Hi]); try lia.
    apply elem_of_nil in Hi. contradiction.
  - intros f v Hf Hv.
    destruct (face_ok_shape chunk f (Hok f Hf)) as (ax & _ & _ & _ & _ & _ & Hb & _).
    pose proof (Hb v 0%nat Hv ltac:(lia)) as B0.
    pose proof (Hb v 1%nat Hv ltac:(lia)) as B1.
    pose proof (Hb v 2%nat Hv ltac:(lia)) as B2.
    cbn [get3 dims fst snd] in B0, B1, B2.
    eexists _, _, _. split; [reflexivity |].
    unfold CHUNK_SIZE, WORLD_HEIGHT in *. cbn [get3]. lia.
Qed.

End Geometry.
(* ===================================================================== *)
(** * The noise on the lattice *)
(* ===================================================================== *)

Section Lattice.
Import Js Perlin.
Local Open Scope float_scope.

(** A number minus itself is [+0]. *)
Lemma sub_diag (x : float) : is_finite x = true -> x - x = 0.
Proof.
  intros Hf. rewrite <- (SF2Prim_Prim2SF (x - x)), sub_spec.
  unfold is_finite in Hf. destruct (Prim2SF x) as [s | s | | s m e]; try discriminate.
  - destruct s; reflexivity.
  - unfold SF64sub, SFsub. rewrite Z.sub_diag. reflexivity.
Qed.

Lemma grad_hash (hash : option Z) (x y : float) :
  exists h, (0 <= h < 8)%Z /\ grad hash x y = grad (Some h) x y.
Proof.
  exists (Z.land (default 0%Z hash) 7). split.
  - change 7%Z with (Z.ones 3). rewrite Z.land_ones by lia.
    apply Z.mod_pos_bound. reflexivity.
  - unfold grad. cbn [default from_option]. unfold id.
    assert (E : Z.land (Z.land (from_option (fun x : Z => x) 0%Z hash) 7) 7
                = Z.land (from_option (fun x : Z => x) 0%Z hash) 7)
      by (rewrite <- Z.land_assoc; reflexivity).
    rewrite E. reflexivity.
Qed.

Lemma corner_noise_zero :
  forallb (fun h1 => forallb (fun h2 => forallb (fun h3 => forallb (fun h4 =>
    corner_noise h1 h2 h3 h4 =? 0) (seqZ 0 8)) (seqZ 0 8)) (seqZ 0 8)) (seqZ 0 8) = true.
Proof. vm_compute. reflexivity. Qed.

Lemma forallb_seqZ (f : Z -> bool) (s n h : Z) :
  forallb f (seqZ s n) = true -> (s <= h < s + n)%Z -> f h = true.
Proof.
  intros H Hh. rewrite forallb_forall in H. apply H.
  apply list_elem_of_In, elem_of_seqZ. exact Hh.
Qed.

Lemma corner_noise_vanishes (h1 h2 h3 h4 : Z) :
  (0 <= h1 < 8)%Z -> (0 <= h2 < 8)%Z -> (0 <= h3 < 8)%Z -> (0 <= h4 < 8)%Z ->
  (corner_noise h1 h2 h3 h4 =? 0) = true.
Proof.
  intros H1 H2 H3 H4. pose proof corner_noise_zero as H.
  apply (forallb_seqZ _ 0 8 h1) in H; [| lia].
  apply (forallb_seqZ _ 0 8 h2) in H; [| lia].
  apply (forallb_seqZ _ 0 8 h3) in H; [| lia].
  apply (forallb_seqZ _ 0 8 h4) in H; [| lia].
  exact H.
Qed.

(** X21. [perlin2D] is zero at every point whose two coordinates are
    integers, for every permutation table, also one that lacks entries. *)
Theorem perlin2D_vanishes_on_the_lattice (p : TypedArray.Uint8Array) (x y : float) :
  is_finite x = true -> is_finite y = true ->
  Math_floor x = x -> Math_floor y = y ->
  (perlin2D p x y =? 0) = true.
Proof.
  intros Fx Fy Hx Hy. unfold perlin2D. rewrite Hx, Hy.
  rewrite (sub_diag x Fx), (sub_diag y Fy).
  set (A := (fun a => (a + Z.land (floorZ y) 255)%Z) <$> TypedArray.get p (Z.land (floorZ x) 255)).
  set (B := (fun b => (b + Z.land (floorZ y) 255)%Z)
              <$> TypedArray.get p (Z.land (floorZ x) 255 + 1)).
  destruct (grad_hash ((A ≫= TypedArray.get p) ≫= TypedArray.get p) 0 0) as (h1 & R1 & ->).
  destruct (grad_hash ((B ≫= TypedArray.get p) ≫= TypedArray.get p) (0 - 1) 0)
    as (h2 & R2 & ->).
  destruct (grad_hash ((A ≫= fun a => TypedArray.get p (a + 1)) ≫= TypedArray.get p)
              0 (0 - 1)) as (h3 & R3 & ->).
  destruct (grad_hash ((B ≫= fun b => TypedArray.get p (b + 1)) ≫= TypedArray.get p)
              (0 - 1) (0 - 1)) as (h4 & R4 & ->).
  apply (corner_noise_vanishes h1 h2 h3 h4); assumption.
Qed.

Lemma perlin2D_vanishes_on_the_lattice_witness :
  (perlin2D (TypedArray.new 512) 3 (-2) =? 0) = true.
Proof.
  apply (perlin2D_vanishes_on_the_lattice (TypedArray.new 512) 3 (-2));
    vm_compute; reflexivity.
Defined.

End Lattice.
(* ===================================================================== *)
(** * The first frames of a fresh world *)
(* ===================================================================== *)

Section FirstFrames.
Import Render.

Lemma fresh_world_keyed (seed : Z) (r : Js.Rand) : keyed (fresh_world seed r).
Proof.
  intros k c H. unfold fresh_world in H. cbn [chunks] in H.
  rewrite lookup_empty in H. discriminate.
Qed.

Lemma empty_scene_current (mkColor : option Z -> Color) (seed : Z) (r : Js.Rand) :
  current mkColor (empty_scene seed r).
Proof.
  intros k c H. unfold empty_scene, fresh_world in H. cbn [world chunks] in H.
  rewrite lookup_empty in H. discriminate.
Qed.

Lemma start_chunk :
  playerChunk (Three.vx start_position) = Some 0 /\
  playerChunk (Three.vz start_position) = Some 0.
Proof. split; vm_compute; reflexivity. Qed.

Lemma generateChunk_terrain_witness :
  exists c,
    chunks (generateChunk (fresh_world 0 (fun _ => 0.5%float)) 2 (-1)) !! (2, -1) = Some c /\
    chunk_x c = 2 /\ chunk_z c = -1 /\ needsUpdate c = true /\
    TypedArray.len (blocks c) = grid_size /\
    (forall x y z, 0 <= getBlockInChunk c x y z <= Block.leaves) /\
    (forall x y z,
       chunk_key x z = (2, -1) ->
       0 <= getBlock (generateChunk (fresh_world 0 (fun _ => 0.5%float)) 2 (-1)) x y z
         <= Block.leaves).
Proof.
  apply (generateChunk_terrain (fresh_world 0 (fun _ => 0.5%float)) 2 (-1)).
  apply lookup_empty.
Defined.

Lemma generateInitialWorld_covers_witness :
  exists w',
    generateInitialWorld (fresh_world 0 (fun _ => 0.5%float)) start_position = Some w' /\
    (forall k, is_Some (chunks w' !! k) <->
               is_Some (chunks (fresh_world 0 (fun _ => 0.5%float)) !! k)
               \/ near RENDER_DISTANCE 0 0 k) /\
    (forall k c, chunks (fresh_world 0 (fun _ => 0.5%float)) !! k = Some c ->
                 chunks w' !! k = Some c) /\
    (wf_world (fresh_world 0 (fun _ => 0.5%float)) -> wf_world w') /\
    (byte_world (fresh_world 0 (fun _ => 0.5%float)) -> byte_world w') /\
    (keyed (fresh_world 0 (fun _ => 0.5%float)) -> keyed w') /\
    (chunks (fresh_world 0 (fun _ => 0.5%float)) = ∅ -> size (chunks w') = 289%nat).
Proof.
  apply (generateInitialWorld_covers (fresh_world 0 (fun _ => 0.5%float)) start_position 0 0).
  - apply start_chunk.
  - apply start_chunk.
Defined.

Lemma updateWorld_keeps_the_neighbourhood_witness :
  exists sc',
    updateWorld white in_view (empty_scene 0 (fun _ => 0.5%float)) start_position
    = Some sc' /\
    (forall k, near RENDER_DISTANCE 0 0 k -> is_Some (chunks (world sc') !! k)) /\
    (forall k, is_Some (chunks (world sc') !! k) -> near (RENDER_DISTANCE + 2) 0 0 k) /\
    (forall k c, chunks (world (empty_scene 0 (fun _ => 0.5%float))) !! k = Some c ->
       near (RENDER_DISTANCE + 2) 0 0 k ->
       exists c', chunks (world sc') !! k = Some c' /\ blocks c' = blocks c) /\
    (forall k, ~ near (RENDER_DISTANCE + 2) 0 0 k ->
       chunks (world sc') !! k = None /\ meshes sc' !! k = None) /\
    (forall k, is_Some (meshes sc' !! k) -> is_Some (chunks (world sc') !! k)) /\
    keyed (world sc').
Proof.
  apply (updateWorld_keeps_the_neighbourhood white in_view
           (empty_scene 0 (fun _ => 0.5%float)) start_position 0 0).
  - apply fresh_world_keyed.
  - apply start_chunk.
  - apply start_chunk.
Defined.

Lemma updateWorld_shows_the_chunks_witness :
  exists sc',
    updateWorld white in_view (empty_scene 0 (fun _ => 0.5%float)) start_position
    = Some sc' /\
    current white sc' /\
    (forall k c, chunks (world sc') !! k = Some c ->
       (in_view (chunk_x c) (chunk_z c) = true ->
          needsUpdate c = false /\ shown white c (meshes sc' !! k) /\
          forall mesh, meshes sc' !! k = Some mesh -> visible mesh = true) /\
       (in_view (chunk_x c) (chunk_z c) = false ->
          forall mesh, meshes sc' !! k = Some mesh -> visible mesh = false)) /\
    (forall x y z t,
       current white (mkScene (setBlock (world sc') x y z t) (meshes sc'))).
Proof.
  apply (updateWorld_shows_the_chunks white in_view
           (empty_scene 0 (fun _ => 0.5%float)) start_position 0 0).
  - apply empty_scene_current.
  - apply start_chunk.
  - apply start_chunk.
Defined.

End FirstFrames.
(* ===================================================================== *)
(** * The frame counter: the history of the frame times and its graph *)
(* ===================================================================== *)

Section FrameGraph.
Import Js Ui.

Lemma last_n_app {A} (n : nat) (a b : list A) :
  last_n n (last_n n a ++ b) = last_n n (a ++ b).
Proof.
  unfold last_n. rewrite !length_app, length_drop.
  rewrite <- (drop_app_le a b (length a - n)) by lia.
  rewrite drop_drop. f_equal. lia.
Qed.

Lemma length_last_n {A} (n : nat) (l : list A) :
  length (last_n n l) = Nat.min n (length l).
Proof. unfold last_n. rewrite length_drop. lia. Qed.

(** What [push] and [shift] leave of the history. *)
Lemma push_shift (cv : Canvas) (l : list float) (d : float) :
  0 <= width cv ->
  (length l <= Z.to_nat (width cv))%nat ->
  (if MAX_FRAME_HISTORY (Some cv) <? Z.of_nat (length (l ++ [d]))
   then tail (l ++ [d]) else l ++ [d])
  = last_n (Z.to_nat (width cv)) (l ++ [d]).
Proof.
  intros Hw Hl. unfold last_n, MAX_FRAME_HISTORY. rewrite length_app. cbn [length].
  destruct (Z.ltb_spec (width cv) (Z.of_nat (length l + 1))) as [H | H].
  - replace (length l + 1 - Z.to_nat (width cv))%nat with 1%nat by lia.
    destruct l; reflexivity.
  - replace (length l + 1 - Z.to_nat (width cv))%nat with 0%nat by lia. reflexivity.
Qed.

Lemma updateUI_frames (cv : Canvas) (s : State) (t : float) :
  hasContext cv = true -> 0 <= width cv ->
  (length (frameTimes s) <= Z.to_nat (width cv))%nat ->
  frameTimes (updateUI (Some cv) s t).1
  = last_n (Z.to_nat (width cv)) (frameTimes s ++ [(t - lastFrameTime s)%float]) /\
  lastFrameTime (updateUI (Some cv) s t).1 = t /\
  (updateUI (Some cv) s t).2
  = drawFrameTimeGraph (Some cv) (frameTimes (updateUI (Some cv) s t).1).
Proof.
  intros Hc Hw Hl. unfold updateUI. cbn [ctx]. rewrite Hc.
  destruct (if (lastTime s + 1000 <=? t)%float then _ else _) as [[fc lt] f].
  cbn [fst snd frameTimes lastFrameTime].
  rewrite (push_shift cv _ _ Hw Hl). auto.
Qed.

Lemma frames_history (cv : Canvas) (ts : list float) (s : State) :
  hasContext cv = true -> 0 <= width cv ->
  (length (frameTimes s) <= Z.to_nat (width cv))%nat ->
  frameTimes (frames (Some cv) s ts)
  = last_n (Z.to_nat (width cv)) (frameTimes s ++ deltas (lastFrameTime s) ts).
Proof.
  intros Hc Hw. revert s. induction ts as [|t ts IH]; intros s Hl.
  - cbn [frames foldl deltas]. rewrite app_nil_r. unfold last_n.
    replace (_ - _)%nat with 0%nat by lia. reflexivity.
  - unfold frames. cbn [foldl deltas]. fold (frames (Some cv) (updateUI (Some cv) s t).1 ts).
    destruct (updateUI_frames cv s t Hc Hw Hl) as (Ef & El & _).
    rewrite IH by (rewrite Ef, length_last_n; lia).
    rewrite Ef, El, last_n_app, <- app_assoc. reflexivity.
Qed.

Lemma frames_without_context (canvas : option Canvas) (ts : list float) (s : State) :
  ctx canvas = false ->
  frameTimes (frames canvas s ts) = frameTimes s.
Proof.
  intros Hc. revert s. induction ts as [|t ts IH]; intros s; [reflexivity |].
  unfold frames. cbn [foldl]. fold (frames canvas (updateUI canvas s t).1 ts).
  rewrite IH. unfold updateUI. rewrite Hc.
  destruct (if (lastTime s + 1000 <=? t)%float then _ else _) as [[fc lt] f].
  reflexivity.
Qed.

(** X22. The history of the frame times is bounded by the width of the
    canvas: after [updateUI] ran at the times [ts], it holds the times
    between the last frames, as many as the canvas has columns, in the
    order of the frames.  Without a drawing context nothing is recorded. *)
Theorem frame_history_is_a_window (cv : Canvas) (s : State) (ts : list float) :
  0 <= width cv ->
  (length (frameTimes s) <= Z.to_nat (width cv))%nat ->
  (hasContext cv = true ->
     frameTimes (frames (Some cv) s ts)
     = last_n (Z.to_nat (width cv)) (frameTimes s ++ deltas (lastFrameTime s) ts) /\
     (length (frameTimes (frames (Some cv) s ts)) <= Z.to_nat (width cv))%nat) /\
  (hasContext cv = false ->
     frameTimes (frames (Some cv) s ts) = frameTimes s) /\
  frameTimes (frames None s ts) = frameTimes s.
Proof.
  intros Hw Hl. split; [| split].
  - intros Hc. rewrite (frames_history cv ts s Hc Hw Hl).
    split; [reflexivity |]. rewrite length_last_n. lia.
  - intros Hc. apply frames_without_context. exact Hc.
  - apply frames_without_context. reflexivity.
Qed.

Lemma columns_bars (cv : Canvas) (n : Z) (l : list float) (k : nat) :
  columns (imap (fun i ft => bar cv n (Z.of_nat (k + i)) ft) l)
  = seqZ (width cv - n + Z.of_nat k) (Z.of_nat (length l)).
Proof.
  revert k. induction l as [|ft l IH]; intros k; [reflexivity |].
  rewrite imap_cons. unfold columns. cbn [omap list_omap bar]. fold (columns).
  cbn [length]. rewrite seqZ_cons by lia. f_equal; [lia |].
  replace (Z.pred (Z.of_nat (S (length l)))) with (Z.of_nat (length l)) by lia.
  replace (Z.succ (width cv - n + Z.of_nat k)) with (width cv - n + Z.of_nat (S k)) by lia.
  rewrite <- IH. unfold columns. f_equal. apply imap_ext. intros i x _. cbn.
  f_equal. lia.
Qed.

Lemma bars_in (cv : Canvas) (n : Z) (l : list float) (d : Draw) :
  d ∈ imap (fun i ft => bar cv n (Z.of_nat i) ft) l ->
  exists i ft, d = bar cv n (Z.of_nat i) ft.
Proof.
  intros H. apply list_elem_of_lookup in H as [i H].
  rewrite list_lookup_imap in H.
  destruct (l !! i) as [ft|]; [| discriminate]. injection H as <-. eauto.
Qed.

Lemma leb_refl (a : float) : is_nan a = false -> (a <=? a)%float = true.
Proof.
  intros H. apply is_nan_key in H as [k H]. apply leb_key.
  exists k, k. split; [exact H |]. split; [exact H | apply lex_lt_irrefl].
Qed.

(** [Math.min] is at most its first argument, unless it is not a number. *)
Lemma Math_min_le (a b : float) :
  is_nan (Math_min a b) = false -> (Math_min a b <=? a)%float = true.
Proof.
  unfold Math_min. destruct (is_nan a || is_nan b) eqn:En.
  { intros H. vm_compute in H. discriminate. }
  apply orb_false_iff in En as [Ea Eb]. intros _.
  destruct (a <? b)%float eqn:E1; [apply leb_refl, Ea |].
  destruct (b <? a)%float eqn:E2; [apply ltb_leb, E2 |].
  destruct (a =? 0)%float eqn:E3; [| apply leb_refl, Ea].
  revert Ea Eb E1 E2 E3. unfold is_nan.
  rewrite FloatAxioms.leb_spec, !FloatAxioms.ltb_spec, !FloatAxioms.eqb_spec,
    FloatAxioms.opp_spec, FloatAxioms.add_spec, !FloatAxioms.opp_spec.
  replace (Prim2SF 0) with (S754_zero false) by reflexivity.
  destruct (Prim2SF a) as [[]|[]| |[] ? ?], (Prim2SF b) as [[]|[]| |[] ? ?];
    cbn; congruence.
Qed.

(** X23. The graph stays inside the canvas: [updateUI] clears the
    canvas, draws the line of the target and then one bar for each frame
    time of the history; the bars are one pixel wide and fill the columns
    from the right edge of the canvas leftwards, the newest frame in the
    last column, and no bar is higher than the canvas. *)
Theorem graph_stays_inside_the_canvas (cv : Canvas) (s : State) (t : float) :
  hasContext cv = true ->
  0 <= width cv ->
  (length (frameTimes s) <= Z.to_nat (width cv))%nat ->
  let s' := (updateUI (Some cv) s t).1 in
  let drawn := (updateUI (Some cv) s t).2 in
  let n := Z.of_nat (length (frameTimes s')) in
  n <= width cv /\
  columns drawn = seqZ (width cv - n) n /\
  (forall x, x ∈ columns drawn -> 0 <= x < width cv) /\
  (exists y bars,
     drawn = clearRect 0 0 (width cv) (height cv)
             :: line "rgba(0, 255, 0, 0.3)" 0 y (width cv) y :: bars /\
     length bars = length (frameTimes s') /\
     forall d, d ∈ bars ->
       exists style x y h,
         d = fillRect style x y 1 h /\
         (is_nan h = false -> (h <=? of_Z (height cv))%float = true)).
Proof.
  intros Hc Hw Hl s' drawn n.
  destruct (updateUI_frames cv s t Hc Hw Hl) as (Ef & _ & Ed).
  fold s' in Ef, Ed. fold drawn in Ed.
  assert (Hle : n <= width cv).
  { unfold n. rewrite Ef, length_last_n. lia. }
  assert (Hcol : columns drawn = seqZ (width cv - n) n).
  { rewrite Ed. unfold drawFrameTimeGraph. rewrite Hc. unfold columns.
    cbn [app omap list_omap]. fold (columns).
    rewrite (imap_ext _ (fun i ft => bar cv n (Z.of_nat (0 + i)) ft))
      by (intros; reflexivity).
    rewrite columns_bars. f_equal. lia. }
  split; [exact Hle |]. split; [exact Hcol |]. split.
  - intros x Hx. rewrite Hcol in Hx. apply elem_of_seqZ in Hx. lia.
  - rewrite Ed. unfold drawFrameTimeGraph. rewrite Hc. cbn [app].
    eexists _, _. split; [reflexivity |]. split; [apply length_imap |].
    intros d Hd. apply bars_in in Hd as (i & ft & ->).
    unfold bar. eexists _, _, _, _. split; [reflexivity |].
    apply Math_min_le.
Qed.

Lemma frame_history_is_a_window_witness :
  (hasContext graph_canvas = true ->
     frameTimes (frames (Some graph_canvas) (ui_start 5) [21; 38; 54]%float)
     = last_n (Z.to_nat (width graph_canvas))
         (frameTimes (ui_start 5) ++ deltas (lastFrameTime (ui_start 5)) [21; 38; 54]%float) /\
     (length (frameTimes (frames (Some graph_canvas) (ui_start 5) [21; 38; 54]%float))
      <= Z.to_nat (width graph_canvas))%nat) /\
  (hasContext graph_canvas = false ->
     frameTimes (frames (Some graph_canvas) (ui_start 5) [21; 38; 54]%float)
     = frameTimes (ui_start 5)) /\
  frameTimes (frames None (ui_start 5) [21; 38; 54]%float) = frameTimes (ui_start 5).
Proof.
  apply (frame_history_is_a_window graph_canvas (ui_start 5) [21; 38; 54]%float).
  - cbn. lia.
  - cbn. lia.
Defined.

Lemma graph_stays_inside_the_canvas_witness :
  let s' := (updateUI (Some graph_canvas) (ui_start 5) 21).1 in
  let drawn := (updateUI (Some graph_canvas) (ui_start 5) 21).2 in
  let n := Z.of_nat (length (frameTimes s')) in
  n <= width graph_canvas /\
  columns drawn = seqZ (width graph_canvas - n) n /\
  (forall x, x ∈ columns drawn -> 0 <= x < width graph_canvas) /\
  (exists y bars,
     drawn = clearRect 0 0 (width graph_canvas) (height graph_canvas)
             :: line "rgba(0, 255, 0, 0.3)" 0 y (width graph_canvas) y :: bars /\
     length bars = length (frameTimes s') /\
     forall d, d ∈ bars ->
       exists style x y h,
         d = fillRect style x y 1 h /\
         (is_nan h = false -> (h <=? of_Z (height graph_canvas))%float = true)).
Proof.
  apply (graph_stays_inside_the_canvas graph_canvas (ui_start 5) 21).
  - reflexivity.
  - cbn. lia.
  - cbn. lia.
Defined.

End FrameGraph.
